(** * c_means: a shallow embedding of the k-means engine of [k_means.c]

    The C module is translated function by function.  A [double] is a
    primitive binary64 float, a [size_t] that is stored in memory is an
    integer with its 64-bit wrap-around written out, loop indices are
    natural numbers, and every [malloc]ed block is a list of cells that are
    [None] until they are first written.  The three ways a C run can stop
    without a value are kept apart in [outcome].

    A second translation, [Mem], keeps the pointers: blocks live in a heap
    and [data_rows] is an address in it.  It is the one used to state what
    [k_means] leaves untouched in the memory of its caller.

    The command-line program of [main.c] is translated in [Main], with the
    C library taken by what its functions report; [Repr] holds [reprf64v]
    with the bytes [sprintf] writes, and [Generator] the program that
    prints random rows. *)

From Stdlib Require Import ZArith Bool List Lia Floats Permutation Sorted.
From Stdlib Require Ascii.
From stdpp Require Import base tactics option list.
Import ListNotations.

Set Default Proof Using "Type".

(** ** Outcomes of a run *)

Inductive outcome (A : Type) : Type :=
| Ret (a : A)   (* the call returns *)
| Fail          (* [failwith]/[failwithf]: stack trace, then [exit(EXIT_FAILURE)] *)
| Undef         (* undefined behaviour: access outside a block, read of an
                   unwritten cell, float-to-integer conversion out of range *)
| Diverge.      (* the loop is still running when the fuel is spent *)

Arguments Ret {A} a.
Arguments Fail {A}.
Arguments Undef {A}.
Arguments Diverge {A}.

Definition bind {A B : Type} (x : outcome A) (f : A -> outcome B) : outcome B :=
  match x with
  | Ret a => f a
  | Fail => Fail
  | Undef => Undef
  | Diverge => Diverge
  end.

Notation "x <- e ;; k" := (bind e (fun x => k))
  (at level 20, e at level 99, k at level 200, only parsing).
Notation "' p <- e ;; k" := (bind e (fun x => match x with p => k end))
  (at level 20, p pattern, e at level 99, k at level 200, only parsing).

(** [for (i = lo; i < lo + n; i++) s = body(i, s);] *)
Fixpoint for_ {St : Type} (i n : nat) (body : nat -> St -> outcome St) (s : St)
  : outcome St :=
  match n with
  | O => Ret s
  | S n' => s' <- body i s ;; for_ (S i) n' body s'
  end.

(** ** Memory blocks *)

(** A block of [A]s obtained from [malloc]: cells are [None] until written. *)
Abbreviation array A := (list (option A)).

Definition malloc {A : Type} (n : nat) : array A := replicate n None.

Definition rd {A : Type} (a : array A) (i : nat) : outcome A :=
  match a !! i with
  | Some (Some x) => Ret x
  | _ => Undef
  end.

Definition wr {A : Type} (a : array A) (i : nat) (x : A) : outcome (array A) :=
  if decide (i < length a) then Ret (<[i := Some x]> a) else Undef.

(** A [double**]: the rows it points to. *)
Definition row_at {A : Type} (a : list A) (i : nat) : outcome A :=
  match a !! i with
  | Some r => Ret r
  | None => Undef
  end.

Definition rd2 {A : Type} (a : list (array A)) (i j : nat) : outcome A :=
  r <- row_at a i ;; rd r j.

Definition wr2 {A : Type} (a : list (array A)) (i j : nat) (x : A)
  : outcome (list (array A)) :=
  r <- row_at a i ;; r' <- wr r j x ;; Ret (<[i := r']> a).

(** ** Numbers *)

Definition SIZE_WIDTH : Z := 64.

(** [size_t] addition. *)
Definition size_add (a b : Z) : Z := ((a + b) mod 2 ^ SIZE_WIDTH)%Z.

(** [(double) z] for a [size_t] or an [int]: round to nearest, ties to even. *)
Definition f64_of_size (z : Z) : float :=
  SF2Prim (binary_normalize prec emax z 0 false).

(** [(size_t) x]: the fractional part is discarded; undefined when the
    integral part is not a [size_t]. *)
Definition size_of_f64 (x : float) : outcome nat :=
  match Prim2SF x with
  | S754_zero _ => Ret O
  | S754_finite s m e =>
      let t := Z.shiftl (Z.pos m) e in
      if s then (if (t =? 0)%Z then Ret O else Undef)
      else if (t <? 2 ^ SIZE_WIDTH)%Z then Ret (Z.to_nat t) else Undef
  | _ => Undef
  end.

Definition DBL_EPSILON : float := 0x1p-52%float.
Definition INFINITY : float := infinity.

(** glibc's [RAND_MAX]; [rand()] returns an [int] in [0 .. RAND_MAX]. *)
Definition RAND_MAX : Z := 2147483647.

(** ** [k_means.c] *)

Definition cmpf64v (a b : array float) (dim : nat) : outcome Z :=
  x <- rd a dim ;;
  y <- rd b dim ;;
  if (y <? x)%float then Ret 1%Z
  else if (x <? y)%float then Ret (-1)%Z
  else Ret 0%Z.

Definition distf64v (p q : array float) (m : nat) : outcome float :=
  sum <- for_ 0 m (fun i sum =>
           pi <- rd p i ;;
           qi <- rd q i ;;
           Ret (sum + (pi - qi) * (pi - qi))%float) 0%float ;;
  if (sum <? 0)%float then Fail
  else
    let out := sqrt sum in
    if negb (out =? out)%float then Fail else Ret out.

(** The [while (true)] of [pick_random_kernels]: one element of [draws] is
    one call of [rand()]. *)
Fixpoint draw_row (draws : list Z) (n : nat) (previous : array nat) (i : nat)
  : outcome (nat * list Z) :=
  match draws with
  | [] => Diverge
  | x :: draws' =>
      let r := (f64_of_size x / f64_of_size RAND_MAX)%float in
      row <- size_of_f64 (r * f64_of_size (Z.of_nat n))%float ;;
      already_seen <- for_ 0 i (fun ri seen =>
                        p <- rd previous ri ;;
                        if Nat.eqb p row then Ret true else Ret seen) false ;;
      if negb already_seen then Ret (row, draws')
      else draw_row draws' n previous i
  end.

Definition pick_random_kernels (draws : list Z) (data_rows : list (array float))
    (n m k : nat) : outcome (list (array float) * array nat * list Z) :=
  for_ 0 k (fun i '(kernels, previous, draws) =>
    '(row, draws) <- draw_row draws n previous i ;;
    previous <- wr previous i row ;;
    kernels <- for_ 0 m (fun j kernels =>
                 x <- rd2 data_rows row j ;;
                 wr2 kernels i j x) kernels ;;
    Ret (kernels, previous, draws))
  (replicate k (malloc m), malloc k, draws).

(** [qsort_r(base, nmemb, size, compar, arg)] of the C library, for elements
    of any type [A]. *)
Definition qsort_t : Type :=
  forall A : Type,
    list A -> nat -> (A -> A -> nat -> outcome Z) -> nat -> outcome (list A).

Definition pivot_index (i k n : nat) : outcome nat :=
  let t := (2 * f64_of_size (Z.of_nat i))%float in
  let b := (f64_of_size (Z.of_nat k) * 2)%float in
  size_of_f64 (t / b * f64_of_size (Z.of_nat n))%float.

Definition copy_rows (data_rows : list (array float)) (n m : nat)
  : outcome (list (array float)) :=
  for_ 0 n (fun i copy =>
    for_ 0 m (fun j copy => x <- rd2 data_rows i j ;; wr2 copy i j x) copy)
  (replicate n (malloc m)).

Definition make_pivots (n k : nat) : outcome (array nat) :=
  for_ 0 k (fun i pivots => p <- pivot_index i k n ;; wr pivots i p) (malloc k).

Definition generate_mean_kernels (qsort_r : qsort_t)
    (data_rows : list (array float)) (n m k : nat)
  : outcome (list (array float)) :=
  data_rows_copy <- copy_rows data_rows n m ;;
  pivots <- make_pivots n k ;;
  '(_, kernels) <- for_ 0 m (fun i '(data_rows_copy, kernels) =>
      data_rows_copy <- qsort_r (array float) data_rows_copy n cmpf64v i ;;
      kernels <- for_ 0 k (fun j kernels =>
                   pivot <- rd pivots j ;;
                   x <- rd2 data_rows_copy pivot i ;;
                   wr2 kernels j i x) kernels ;;
      Ret (data_rows_copy, kernels))
    (data_rows_copy, replicate k (malloc m)) ;;
  Ret kernels.

(** The memory [k_means] works on: the caller's rows, the kernels, the four
    file-scope blocks, and the two loop variables. *)
Record state : Type := mkState {
  data_rows : list (array float);
  kernels : list (array float);
  kernel_followers : array nat;
  kernel_follower_count : array Z;
  kernel_follower_sum : list (array float);
  prev_means : list (array float);
  movement : float;
  iterations : Z
}.

Definition set_kernels (v : list (array float)) (st : state) : state :=
  mkState (data_rows st) v (kernel_followers st) (kernel_follower_count st)
          (kernel_follower_sum st) (prev_means st) (movement st) (iterations st).

Definition set_prev_means (v : list (array float)) (st : state) : state :=
  mkState (data_rows st) (kernels st) (kernel_followers st) (kernel_follower_count st)
          (kernel_follower_sum st) v (movement st) (iterations st).

Definition set_accumulators (c : array Z) (s : list (array float)) (st : state)
  : state :=
  mkState (data_rows st) (kernels st) (kernel_followers st) c s
          (prev_means st) (movement st) (iterations st).

Definition set_assignment (f : array nat) (c : array Z) (s : list (array float))
    (st : state) : state :=
  mkState (data_rows st) (kernels st) f c s
          (prev_means st) (movement st) (iterations st).

Definition set_movement (v : float) (st : state) : state :=
  mkState (data_rows st) (kernels st) (kernel_followers st) (kernel_follower_count st)
          (kernel_follower_sum st) (prev_means st) v (iterations st).

(** Lines 207-211. *)
Definition save_prev_means (k m : nat) (st : state) : outcome state :=
  pm <- for_ 0 k (fun ki pm =>
          for_ 0 m (fun vi pm =>
            x <- rd2 (kernels st) ki vi ;; wr2 pm ki vi x) pm)
        (prev_means st) ;;
  Ret (set_prev_means pm st).

(** Lines 212-217. *)
Definition reset_followers (k m : nat) (st : state) : outcome state :=
  '(cnt, sums) <- for_ 0 k (fun ki '(cnt, sums) =>
      cnt <- wr cnt ki 0%Z ;;
      sums <- for_ 0 m (fun vi sums => wr2 sums ki vi 0%float) sums ;;
      Ret (cnt, sums))
    (kernel_follower_count st, kernel_follower_sum st) ;;
  Ret (set_accumulators cnt sums st).

(** Lines 221-230: the pair is [(closest_distance, closest_kernel)]. *)
Definition closest (k m : nat) (row : array float) (kernels : list (array float))
  : outcome (float * nat) :=
  for_ 0 k (fun ki '(closest_distance, closest_kernel) =>
    kernel <- row_at kernels ki ;;
    distance <- distf64v row kernel m ;;
    if (distance <? closest_distance)%float then Ret (distance, ki)
    else Ret (closest_distance, closest_kernel))
  (INFINITY, O).

(** Lines 220-235: the body of the loop over rows. *)
Definition assign_row (k m : nat) (ri : nat) (st : state) : outcome state :=
  row <- row_at (data_rows st) ri ;;
  '(_, closest_kernel) <- closest k m row (kernels st) ;;
  followers <- wr (kernel_followers st) ri closest_kernel ;;
  c <- rd (kernel_follower_count st) closest_kernel ;;
  cnt <- wr (kernel_follower_count st) closest_kernel (size_add c 1) ;;
  sums <- for_ 0 m (fun vi sums =>
            s <- rd2 sums closest_kernel vi ;;
            x <- rd row vi ;;
            wr2 sums closest_kernel vi (s + x)%float)
          (kernel_follower_sum st) ;;
  Ret (set_assignment followers cnt sums st).

Definition assign_rows (k n m : nat) (st : state) : outcome state :=
  for_ 0 n (assign_row k m) st.

(** Lines 239-247. *)
Definition update_kernels (k m : nat) (st : state) : outcome state :=
  ks <- for_ 0 k (fun ki ks =>
          for_ 0 m (fun vi ks =>
            c <- rd (kernel_follower_count st) ki ;;
            if (c <=? 0)%Z then Ret ks
            else
              s <- rd2 (kernel_follower_sum st) ki vi ;;
              wr2 ks ki vi (s / f64_of_size c)%float) ks)
        (kernels st) ;;
  Ret (set_kernels ks st).

(** Lines 248-260. *)
Definition update_movement (k m : nat) (st : state) : outcome state :=
  mv <- for_ 0 k (fun ki movement =>
          p <- row_at (prev_means st) ki ;;
          q <- row_at (kernels st) ki ;;
          current_movement <- distf64v p q m ;;
          let movement := (movement + current_movement)%float in
          if negb (movement =? movement)%float then Fail else Ret movement)
        0%float ;;
  Ret (set_movement mv st).

(** Lines 207-247: snapshot, reset, assignment, update. *)
Definition assign_and_update (k n m : nat) (st : state) : outcome state :=
  st <- save_prev_means k m st ;;
  st <- reset_followers k m st ;;
  st <- assign_rows k n m st ;;
  update_kernels k m st.

(** One pass of the [while] body, lines 207-260. *)
Definition iteration (k n m : nat) (st : state) : outcome state :=
  st <- assign_and_update k n m st ;;
  update_movement k m st.

Definition loop_condition (st : state) : bool :=
  (DBL_EPSILON <=? movement st)%float && (iterations st <? 2500)%Z.

(** Line 206.  The body never assigns [iterations], so the loop has no
    variant of its own and the embedding counts passes with [fuel]. *)
Fixpoint k_means_loop (fuel : nat) (k n m : nat) (st : state) : outcome state :=
  if loop_condition st then
    match fuel with
    | O => Diverge
    | S fuel' => st' <- iteration k n m st ;; k_means_loop fuel' k n m st'
    end
  else Ret st.

(** Lines 192-205: the state on entry to the loop. *)
Definition init_state (data_rows kernels : list (array float)) (k n m : nat)
  : state :=
  mkState data_rows kernels (malloc n) (malloc k)
          (replicate k (malloc m)) (replicate k (malloc m)) INFINITY 0.

Definition init_kernels (qsort_r : qsort_t) (draws : list Z)
    (data_rows : list (array float)) (n m k : nat) (generate_kernels : bool)
  : outcome (list (array float)) :=
  if generate_kernels then generate_mean_kernels qsort_r data_rows n m k
  else '(kernels, _, _) <- pick_random_kernels draws data_rows n m k ;; Ret kernels.

(** [k_means] up to the end of its loop; [draws] are the values [rand()]
    returns after [srand(time(NULL))]. *)
Definition k_means_run (qsort_r : qsort_t) (draws : list Z) (fuel : nat)
    (k : nat) (data_rows : list (array float)) (n m : nat)
    (generate_kernels : bool) : outcome state :=
  kernels <- init_kernels qsort_r draws data_rows n m k generate_kernels ;;
  k_means_loop fuel k n m (init_state data_rows kernels k n m).

Definition k_means (qsort_r : qsort_t) (draws : list Z) (fuel : nat)
    (k : nat) (data_rows : list (array float)) (n m : nat)
    (generate_kernels : bool) : outcome (array nat) :=
  st <- k_means_run qsort_r draws fuel k data_rows n m generate_kernels ;;
  Ret (kernel_followers st).

(** ** A sorting routine that meets the contract of [qsort_r] *)

Fixpoint insert_row {A : Type} (compar : A -> A -> nat -> outcome Z)
    (arg : nat) (x : A) (l : list A) : outcome (list A) :=
  match l with
  | [] => Ret [x]
  | y :: l' =>
      c <- compar x y arg ;;
      if (c <=? 0)%Z then Ret (x :: l)
      else l'' <- insert_row compar arg x l' ;; Ret (y :: l'')
  end.

Fixpoint insertion_sort {A : Type} (compar : A -> A -> nat -> outcome Z)
    (arg : nat) (l : list A) : outcome (list A) :=
  match l with
  | [] => Ret []
  | x :: l' => s <- insertion_sort compar arg l' ;; insert_row compar arg x s
  end.

Definition insertion_qsort_r : qsort_t :=
  fun A base nmemb compar arg =>
    if decide (nmemb <= length base) then
      s <- insertion_sort compar arg (take nmemb base) ;;
      Ret (s ++ drop nmemb base)
    else Undef.

(** ** Vocabulary of the statements *)

(** A block whose cells have all been written. *)
Definition vec (l : list float) : array float := map Some l.

(** The distance of the specification: the square root of the sum, taken
    left to right from [0.0], of the squared coordinate differences. *)
Definition sum_squares (p q : list float) : float :=
  fold_left (fun sum pq => (sum + (fst pq - snd pq) * (fst pq - snd pq))%float)
            (combine p q) 0%float.

Definition euclidean (p q : list float) : float := sqrt (sum_squares p q).


Section SpecFloatVocabulary.
Local Open Scope Z_scope.

(** Sign and class of a specification float. *)
Definition sf_signed (s : bool) (x : spec_float) : Prop :=
  match x with
  | S754_nan => False
  | S754_zero s' | S754_infinity s' | S754_finite s' _ _ => s' = s
  end.

Definition sf_nonneg (x : spec_float) : Prop :=
  match x with
  | S754_nan => False
  | S754_zero _ => True
  | S754_infinity s | S754_finite s _ _ => s = false
  end.

Definition sf_fin (x : spec_float) : Prop :=
  match x with
  | S754_zero _ | S754_finite _ _ _ => True
  | _ => False
  end.

Definition sf_key (x : spec_float) : Z * Z * Z :=
  match x with
  | S754_infinity false => (2, 0, 0)
  | S754_finite false m e => (1, e, Z.pos m)
  | S754_zero _ | S754_nan => (0, 0, 0)
  | S754_finite true m e => (-1, - e, Z.neg m)
  | S754_infinity true => (-2, 0, 0)
  end.

Definition key_lt (a b : Z * Z * Z) : Prop :=
  let '(a1, a2, a3) := a in
  let '(b1, b2, b3) := b in
  a1 < b1 \/ (a1 = b1 /\ (a2 < b2 \/ (a2 = b2 /\ a3 < b3))).

End SpecFloatVocabulary.

(** Neither a NaN nor below zero: a finite non-negative number or [+infinity]. *)
Definition nonneg (x : float) : Prop := is_nan x = false /\ (x <? 0)%float = false.

(** What a sum of squares can be when the inputs are arbitrary. *)
Definition nan_or_nonneg (x : float) : Prop := is_nan x = true \/ nonneg x.

(** [d] is the distance [distf64v] returns from [row] to kernel [j]. *)
Definition distance_to (kernels : list (array float)) (m : nat) (row : array float)
    (j : nat) (d : float) : Prop :=
  exists kernel, kernels !! j = Some kernel /\ distf64v row kernel m = Ret d.

(** [ck] is the first kernel, in index order, at the least distance [cd]. *)
Definition nearest (kernels : list (array float)) (k m : nat) (row : array float)
    (cd : float) (ck : nat) : Prop :=
  ck < k /\ distance_to kernels m row ck cd /\
  forall j, j < k -> exists dj,
    distance_to kernels m row j dj /\
    (dj <? cd)%float = false /\ (j < ck -> (cd <? dj)%float = true).

(** Every cell of the assignment block holds a kernel index below [k]. *)
Definition all_assigned (k : nat) (followers : array nat) : Prop :=
  Forall (fun cell => exists ck, cell = Some ck /\ ck < k) followers.

(** What one pass leaves alone, and what it establishes. *)
Definition pass_post (k n : nat) (st st' : state) : Prop :=
  data_rows st' = data_rows st /\
  iterations st' = iterations st /\
  length (kernel_followers st') = length (kernel_followers st) /\
  length (kernel_follower_count st') = length (kernel_follower_count st) /\
  forall ri, ri < n -> exists ck,
    ck < length (kernel_follower_count st) /\
    kernel_followers st' !! ri = Some (Some ck).

(** [rows] is a [k] by [m] matrix of blocks (written or not). *)
Definition shaped (k m : nat) (rows : list (array float)) : Prop :=
  length rows = k /\ Forall (fun r => length r = m) rows.

(** A [k] by [m] matrix of numbers. *)
Definition matrix (k m : nat) (M : list (list float)) : Prop :=
  length M = k /\ Forall (fun r => length r = m) M.


(** Every cell of every row has been written. *)
Definition written (rows : list (array float)) : Prop :=
  Forall (fun r => Forall is_Some r) rows.

(** ** The contract of [qsort_r] *)

(** [compar] answers on all elements of [base], its sign flips when its
    arguments are swapped, and "not after" is transitive. *)
Definition consistent {A : Type} (compar : A -> A -> nat -> outcome Z)
    (arg : nat) (base : list A) : Prop :=
  (forall a b, In a base -> In b base -> exists c, compar a b arg = Ret c) /\
  (forall a b c1 c2, In a base -> In b base ->
     compar a b arg = Ret c1 -> compar b a arg = Ret c2 ->
     Z.sgn c1 = (- Z.sgn c2)%Z) /\
  (forall a b c x y z, In a base -> In b base -> In c base ->
     compar a b arg = Ret x -> compar b c arg = Ret y -> compar a c arg = Ret z ->
     (x <= 0)%Z -> (y <= 0)%Z -> (z <= 0)%Z).

(** [compar] does not put [a] after [b]. *)
Definition ordered_by {A : Type} (compar : A -> A -> nat -> outcome Z)
    (arg : nat) (a b : A) : Prop :=
  exists c, compar a b arg = Ret c /\ (c <= 0)%Z.

(** Given a consistent comparison, [qsort_r] returns the elements of [base]
    rearranged so that none is put after a later one. *)
Definition qsort_contract (qsort_r : qsort_t) : Prop :=
  forall (A : Type) (base : list A) nmemb compar arg,
    nmemb = length base -> consistent compar arg base ->
    exists sorted,
      qsort_r A base nmemb compar arg = Ret sorted /\
      Permutation sorted base /\
      StronglySorted (ordered_by compar arg) sorted.

(** Row [a] does not come after row [b] along dimension [i]. *)
Definition not_after (i : nat) (a b : list float) : Prop :=
  exists x y, a !! i = Some x /\ b !! i = Some y /\ (y <? x)%float = false.

(** All the numbers of a dataset are finite. *)
Definition all_finite (D : list (list float)) : Prop :=
  Forall (fun r => Forall (fun x => is_finite x = true) r) D.


(** ** Example runs *)

(** Two groups of two points in the plane. *)
Definition two_clusters : list (list float) :=
  [[0; 0]; [1; 1]; [10; 10]; [11; 10]]%float.

(** [k_means] on [two_clusters] with kernels [0; 0] and [10; 10]: on entry
    to the loop, after the reset of the first pass, after the assignment of
    row 0, after the assignment of all rows, and after the update. *)
Definition example_entry : state :=
  init_state (map vec two_clusters) [vec [0; 0]%float; vec [10; 10]%float] 2 4 2.

Definition example_reset : state :=
  mkState (map vec two_clusters) [vec [0; 0]%float; vec [10; 10]%float]
          [None; None; None; None] [Some 0%Z; Some 0%Z]
          [vec [0; 0]%float; vec [0; 0]%float]
          [vec [0; 0]%float; vec [10; 10]%float] INFINITY 0.

Definition example_row0 : state :=
  mkState (map vec two_clusters) [vec [0; 0]%float; vec [10; 10]%float]
          [Some 0; None; None; None] [Some 1%Z; Some 0%Z]
          [vec [0; 0]%float; vec [0; 0]%float]
          [vec [0; 0]%float; vec [10; 10]%float] INFINITY 0.

Definition example_assigned : state :=
  mkState (map vec two_clusters) [vec [0; 0]%float; vec [10; 10]%float]
          [Some 0; Some 0; Some 1; Some 1] [Some 2%Z; Some 2%Z]
          [vec [1; 1]%float; vec [21; 20]%float]
          [vec [0; 0]%float; vec [10; 10]%float] INFINITY 0.

Definition example_updated : state :=
  mkState (map vec two_clusters) [vec [0.5; 0.5]%float; vec [10.5; 10]%float]
          [Some 0; Some 0; Some 1; Some 1] [Some 2%Z; Some 2%Z]
          [vec [1; 1]%float; vec [21; 20]%float]
          [vec [0; 0]%float; vec [10; 10]%float] INFINITY 0.

(** The state in which [k_means] leaves [two_clusters]. *)
Definition example_final : state :=
  mkState (map vec two_clusters) [vec [0.5; 0.5]%float; vec [10.5; 10]%float]
          [Some 0; Some 0; Some 1; Some 1] [Some 2%Z; Some 2%Z]
          [vec [1; 1]%float; vec [21; 20]%float]
          [vec [0.5; 0.5]%float; vec [10.5; 10]%float] 0%float 0.

(** Two rows whose smallest values lie in different rows. *)
Definition crossed : list (list float) := [[1; 20]; [2; 10]]%float.


(** Four rows of one column, just below 2^53, where the spacing of the
    doubles is 1 and the mean of several rows is rounded. *)
Definition rounding_cycle : list (array float) :=
  [vec [9007199254740981%float]; vec [9007199254740982%float];
   vec [9007199254740982%float]; vec [9007199254740982%float]].

(** The states of [k_means] on [rounding_cycle] with two generated kernels:
    on entry to the loop, after the first pass, after every later pass of
    even number, and after every later pass of odd number. *)
Definition cycle_start : state :=
  init_state rounding_cycle
             [vec [9007199254740981%float]; vec [9007199254740982%float]] 2 4 1.

Definition cycle_first : state :=
  mkState rounding_cycle
          [vec [9007199254740981%float]; vec [9007199254740981%float]]
          [Some 0; Some 1; Some 1; Some 1]
          [Some 1%Z; Some 3%Z]
          [vec [9007199254740981%float]; vec [27021597764222944%float]]
          [vec [9007199254740981%float]; vec [9007199254740982%float]]
          1%float 0.

Definition cycle_even : state :=
  mkState rounding_cycle
          [vec [9007199254740982%float]; vec [9007199254740981%float]]
          [Some 0; Some 0; Some 0; Some 0]
          [Some 4%Z; Some 0%Z]
          [vec [36028797018963928%float]; vec [0%float]]
          [vec [9007199254740981%float]; vec [9007199254740981%float]]
          1%float 0.

Definition cycle_odd : state :=
  mkState rounding_cycle
          [vec [9007199254740981%float]; vec [9007199254740981%float]]
          [Some 1; Some 0; Some 0; Some 0]
          [Some 3%Z; Some 1%Z]
          [vec [27021597764222944%float]; vec [9007199254740981%float]]
          [vec [9007199254740982%float]; vec [9007199254740981%float]]
          1%float 0.

(** * The same functions over an explicit heap

    To say what [k_means] does to memory it did not allocate, the module
    [Mem] translates [k_means.c] once more, now with every block in one
    heap: an address is the index of a block, [malloc] appends a block, and
    each [a[i]] of the source is a [load] or a [store]. *)

Module Mem.

Inductive cell : Type :=
| Uninit            (* not written since [malloc] *)
| Dbl (x : float)   (* a [double] *)
| Ptr (a : nat)     (* a [double*] or [double**] *)
| Size (z : Z).     (* a [size_t] *)

Abbreviation heap := (list (list cell)).

Definition M (A : Type) : Type := heap -> outcome (A * heap).

Definition ret {A : Type} (a : A) : M A := fun h => Ret (a, h).

Definition mbind {A B : Type} (c : M A) (f : A -> M B) : M B :=
  fun h =>
    match c h with
    | Ret (a, h') => f a h'
    | Fail => Fail
    | Undef => Undef
    | Diverge => Diverge
    end.

Definition lift {A : Type} (o : outcome A) : M A :=
  fun h =>
    match o with
    | Ret a => Ret (a, h)
    | Fail => Fail
    | Undef => Undef
    | Diverge => Diverge
    end.

Notation "x <~ e ;; k" := (mbind e (fun x => k))
  (at level 20, e at level 99, k at level 200, only parsing).
Notation "' p <~ e ;; k" := (mbind e (fun x => match x with p => k end))
  (at level 20, p pattern, e at level 99, k at level 200, only parsing).

Fixpoint mfor {St : Type} (i n : nat) (body : nat -> St -> M St) (s : St) : M St :=
  match n with
  | O => ret s
  | S n' => s' <~ body i s ;; mfor (S i) n' body s'
  end.

Definition malloc (n : nat) : M nat :=
  fun h => Ret (length h, h ++ [replicate n Uninit]).

Definition load (a i : nat) : M cell :=
  fun h =>
    match h !! a with
    | Some blk => match blk !! i with Some c => Ret (c, h) | None => Undef end
    | None => Undef
    end.

Definition store (a i : nat) (c : cell) : M unit :=
  fun h =>
    match h !! a with
    | Some blk =>
        if decide (i < length blk) then Ret (tt, <[a := <[i := c]> blk]> h)
        else Undef
    | None => Undef
    end.

Definition load_dbl (a i : nat) : M float :=
  c <~ load a i ;; match c with Dbl x => ret x | _ => lift Undef end.

Definition load_ptr (a i : nat) : M nat :=
  c <~ load a i ;; match c with Ptr p => ret p | _ => lift Undef end.

Definition load_size (a i : nat) : M Z :=
  c <~ load a i ;; match c with Size z => ret z | _ => lift Undef end.

Definition cmpf64v (a b dim : nat) : M Z :=
  x <~ load_dbl a dim ;;
  y <~ load_dbl b dim ;;
  if (y <? x)%float then ret 1%Z
  else if (x <? y)%float then ret (-1)%Z
  else ret 0%Z.

Definition distf64v (p q m : nat) : M float :=
  sum <~ mfor 0 m (fun i sum =>
           pi <~ load_dbl p i ;;
           qi <~ load_dbl q i ;;
           ret (sum + (pi - qi) * (pi - qi))%float) 0%float ;;
  if (sum <? 0)%float then lift Fail
  else
    let out := sqrt sum in
    if negb (out =? out)%float then lift Fail else ret out.

(** [qsort_r] rearranges the first [nmemb] cells of the block at [base];
    [compar] is handed the two row pointers and only reads. *)
Definition qsort_r (sort : qsort_t) (base nmemb : nat)
    (compar : nat -> nat -> nat -> M Z) (arg : nat) : M unit :=
  fun h =>
    match h !! base with
    | Some blk =>
        if decide (nmemb <= length blk) then
          match sort cell (take nmemb blk) nmemb
                  (fun a b arg =>
                     match a, b with
                     | Ptr pa, Ptr pb =>
                         match compar pa pb arg h with
                         | Ret (z, _) => Ret z
                         | Fail => Fail
                         | Undef => Undef
                         | Diverge => Diverge
                         end
                     | _, _ => Undef
                     end) arg with
          | Ret sorted => Ret (tt, <[base := sorted ++ drop nmemb blk]> h)
          | Fail => Fail
          | Undef => Undef
          | Diverge => Diverge
          end
        else Undef
    | None => Undef
    end.

(** [malloc] of a [double**] of [k] rows, then of each row (lines 86-90,
    143-147). *)
Definition alloc_rows (k m : nat) : M nat :=
  rows <~ malloc k ;;
  _ <~ mfor 0 k (fun i (_ : unit) => r <~ malloc m ;; store rows i (Ptr r)) tt ;;
  ret rows.

Fixpoint draw_row (draws : list Z) (n previous i : nat) : M (nat * list Z) :=
  match draws with
  | [] => lift Diverge
  | x :: draws' =>
      let r := (f64_of_size x / f64_of_size RAND_MAX)%float in
      row <~ lift (size_of_f64 (r * f64_of_size (Z.of_nat n))%float) ;;
      already_seen <~ mfor 0 i (fun ri seen =>
                        p <~ load_size previous ri ;;
                        if (p =? Z.of_nat row)%Z then ret true else ret seen) false ;;
      if negb already_seen then ret (row, draws')
      else draw_row draws' n previous i
  end.

Definition pick_random_kernels (draws : list Z) (data_rows n m k : nat)
  : M (nat * list Z) :=
  kernels <~ alloc_rows k m ;;
  previous <~ malloc k ;;
  draws <~ mfor 0 k (fun i draws =>
             '(row, draws) <~ draw_row draws n previous i ;;
             _ <~ store previous i (Size (Z.of_nat row)) ;;
             _ <~ mfor 0 m (fun j (_ : unit) =>
                    source <~ load_ptr data_rows row ;;
                    x <~ load_dbl source j ;;
                    kernel <~ load_ptr kernels i ;;
                    store kernel j (Dbl x)) tt ;;
             ret draws) draws ;;
  ret (kernels, draws).

Definition generate_mean_kernels (sort : qsort_t) (data_rows n m k : nat) : M nat :=
  data_rows_copy <~ malloc n ;;
  _ <~ mfor 0 n (fun i (_ : unit) =>
         r <~ malloc m ;;
         _ <~ store data_rows_copy i (Ptr r) ;;
         mfor 0 m (fun j (_ : unit) =>
           source <~ load_ptr data_rows i ;;
           x <~ load_dbl source j ;;
           target <~ load_ptr data_rows_copy i ;;
           store target j (Dbl x)) tt) tt ;;
  kernels <~ alloc_rows k m ;;
  pivots <~ malloc k ;;
  _ <~ mfor 0 k (fun i (_ : unit) =>
         p <~ lift (pivot_index i k n) ;;
         store pivots i (Size (Z.of_nat p))) tt ;;
  _ <~ mfor 0 m (fun i (_ : unit) =>
         _ <~ qsort_r sort data_rows_copy n cmpf64v i ;;
         mfor 0 k (fun j (_ : unit) =>
           pivot <~ load_size pivots j ;;
           source <~ load_ptr data_rows_copy (Z.to_nat pivot) ;;
           x <~ load_dbl source i ;;
           kernel <~ load_ptr kernels j ;;
           store kernel i (Dbl x)) tt) tt ;;
  ret kernels.

(** The pointers [k_means] holds: its local [kernels] and the four
    file-scope variables. *)
Record pointers : Type := mkPointers {
  kernels : nat;
  kernel_followers : nat;
  kernel_follower_count : nat;
  kernel_follower_sum : nat;
  prev_means : nat
}.

(** Lines 207-260; the value is the new [movement]. *)
Definition iteration (v : pointers) (data_rows k n m : nat) : M float :=
  _ <~ mfor 0 k (fun ki (_ : unit) =>
         mfor 0 m (fun vi (_ : unit) =>
           kernel <~ load_ptr (kernels v) ki ;;
           x <~ load_dbl kernel vi ;;
           prev <~ load_ptr (prev_means v) ki ;;
           store prev vi (Dbl x)) tt) tt ;;
  _ <~ mfor 0 k (fun ki (_ : unit) =>
         _ <~ store (kernel_follower_count v) ki (Size 0) ;;
         mfor 0 m (fun vi (_ : unit) =>
           sum <~ load_ptr (kernel_follower_sum v) ki ;;
           store sum vi (Dbl 0)) tt) tt ;;
  _ <~ mfor 0 n (fun ri (_ : unit) =>
         row <~ load_ptr data_rows ri ;;
         '(_, closest_kernel) <~
           mfor 0 k (fun ki '(closest_distance, closest_kernel) =>
             kernel <~ load_ptr (kernels v) ki ;;
             distance <~ distf64v row kernel m ;;
             if (distance <? closest_distance)%float then ret (distance, ki)
             else ret (closest_distance, closest_kernel)) (INFINITY, O) ;;
         _ <~ store (kernel_followers v) ri (Size (Z.of_nat closest_kernel)) ;;
         c <~ load_size (kernel_follower_count v) closest_kernel ;;
         _ <~ store (kernel_follower_count v) closest_kernel (Size (size_add c 1)) ;;
         mfor 0 m (fun vi (_ : unit) =>
           sum <~ load_ptr (kernel_follower_sum v) closest_kernel ;;
           s <~ load_dbl sum vi ;;
           x <~ load_dbl row vi ;;
           store sum vi (Dbl (s + x)%float)) tt) tt ;;
  _ <~ mfor 0 k (fun ki (_ : unit) =>
         mfor 0 m (fun vi (_ : unit) =>
           c <~ load_size (kernel_follower_count v) ki ;;
           if (c <=? 0)%Z then ret tt
           else
             sum <~ load_ptr (kernel_follower_sum v) ki ;;
             s <~ load_dbl sum vi ;;
             kernel <~ load_ptr (kernels v) ki ;;
             store kernel vi (Dbl (s / f64_of_size c)%float)) tt) tt ;;
  mfor 0 k (fun ki movement =>
    prev <~ load_ptr (prev_means v) ki ;;
    kernel <~ load_ptr (kernels v) ki ;;
    current_movement <~ distf64v prev kernel m ;;
    let movement := (movement + current_movement)%float in
    if negb (movement =? movement)%float then lift Fail else ret movement)
  0%float.

Fixpoint k_means_loop (fuel : nat) (v : pointers) (data_rows k n m : nat)
    (movement : float) (iterations : Z) : M unit :=
  if (DBL_EPSILON <=? movement)%float && (iterations <? 2500)%Z then
    match fuel with
    | O => lift Diverge
    | S fuel' =>
        movement <~ iteration v data_rows k n m ;;
        k_means_loop fuel' v data_rows k n m movement iterations
    end
  else ret tt.

(** [k_means]; the value is the pointer it returns. *)
Definition k_means (sort : qsort_t) (draws : list Z) (fuel : nat) (k : nat)
    (data_rows n m : nat) (generate_kernels : bool) : M nat :=
  kernels <~ (if generate_kernels then generate_mean_kernels sort data_rows n m k
              else '(kernels, _) <~ pick_random_kernels draws data_rows n m k ;;
                   ret kernels) ;;
  followers <~ malloc n ;;
  count <~ malloc k ;;
  sum <~ malloc k ;;
  prev <~ malloc k ;;
  _ <~ mfor 0 k (fun ki (_ : unit) =>
         p <~ malloc m ;;
         _ <~ store prev ki (Ptr p) ;;
         s <~ malloc m ;;
         store sum ki (Ptr s)) tt ;;
  _ <~ k_means_loop fuel (mkPointers kernels followers count sum prev)
         data_rows k n m INFINITY 0 ;;
  ret followers.

(** The caller's memory for a dataset: block 0 holds the row pointers, the
    rows follow. *)
Definition heap_of (D : list (list float)) : heap :=
  map Ptr (seq 1 (length D)) :: map (map Dbl) D.

(** Every pointer stored in a block at or above [base] points at or above
    [base]. *)
Definition fresh_ptrs (base : nat) (h : heap) : Prop :=
  forall b blk a, base <= b -> h !! b = Some blk -> In (Ptr a) blk -> base <= a.

(** The blocks below [base] are the same in [h'] as in [h]. *)
Definition kept (base : nat) (h h' : heap) : Prop :=
  forall b, b < base -> h' !! b = h !! b.

(** Run from a heap of at least [base] blocks, [c] writes only at or above
    [base], and its value satisfies [Q]. *)
Definition safe (base : nat) {A : Type} (c : M A) (Q : A -> Prop) : Prop :=
  forall h a h',
    base <= length h -> fresh_ptrs base h -> c h = Ret (a, h') ->
    base <= length h' /\ fresh_ptrs base h' /\ kept base h h' /\ Q a.

(** The value of [data_rows[r][c]] in heap [h], when that cell holds one. *)
Definition element (h : heap) (data_rows r c : nat) : option float :=
  match h !! data_rows with
  | Some blk =>
      match blk !! r with
      | Some (Ptr row) =>
          match h !! row with
          | Some cells =>
              match cells !! c with Some (Dbl x) => Some x | _ => None end
          | None => None
          end
      | _ => None
      end
  | None => None
  end.

(** A sorting routine that, when it returns, returns its input rearranged. *)
Definition rearranges (sort : qsort_t) : Prop :=
  forall (A : Type) (base : list A) nmemb compar arg sorted,
    sort A base nmemb compar arg = Ret sorted -> Permutation sorted base.

End Mem.

(** The heap in which [Mem.k_means] leaves the caller's [two_clusters]. *)
Definition example_heap_after : list (list Mem.cell) :=
  Eval vm_compute in
    match Mem.k_means insertion_qsort_r [] 3 2 0 4 2 true (Mem.heap_of two_clusters) with
    | Ret (_, h) => h
    | _ => []
    end.

(** The run ends with a value. *)
Definition returns {A : Type} (o : outcome A) : bool :=
  match o with Ret _ => true | _ => false end.

(** Component [i] of kernel 0 is the least value of column [i] of [D]. *)
Definition column_minimum (D : list (list float)) (i : nat)
    (kernels : list (array float)) : Prop :=
  exists x, rd2 kernels 0 i = Ret x /\
    (exists r, In r D /\ r !! i = Some x) /\
    forall r, In r D -> exists y, r !! i = Some y /\ (y <? x)%float = false.

(** The rows of [D] that the assignment [a] gives to kernel [j], in row
    order. *)
Definition followers_of (a : list nat) (D : list (list float)) (j : nat)
  : list (list float) :=
  map snd (List.filter (fun ar => Nat.eqb (fst ar) j) (combine a D)).

(** Column [vi] of [rows] added up from [0.0], first row first. *)
Definition column_sum (rows : list (list float)) (vi : nat) : float :=
  fold_left (fun s r => (s + nth vi r 0)%float) rows 0%float.

(** The run does not end in undefined behaviour. *)
Definition defined {A : Type} (o : outcome A) : bool :=
  match o with Undef => false | _ => true end.

(** The run returns a value that satisfies [Q], or it stops in [failwith]. *)
Definition safely {A : Type} (o : outcome A) (Q : A -> Prop) : Prop :=
  match o with
  | Ret a => Q a
  | Fail => True
  | _ => False
  end.



(** * The command-line program of [main.c]

    The file-scope variables of [main.c] are the fields of [globals].  The C
    library is taken by what it reports: [sscanf] by the number of
    conversions and the values it stores, [getopt] by the options it returns
    one after the other, [scanf("%s\n")] by the words it reads from standard
    input.  [char_replace] and [char_in_string] are the two functions of
    [util.c].  Allocation is taken to succeed, as in [k_means.c]. *)

Module Main.
Import Ascii.

(** A C string without its terminating NUL. *)
Abbreviation cstring := (list ascii).

(** What one [sscanf] conversion reports. *)
Inductive scanned (A : Type) : Type :=
| Converted (a : A)   (* the value is stored; [sscanf] returns 1 *)
| Mismatch            (* matching failure: nothing is stored, it returns 0 *)
| InputEnd.           (* the input ends first: nothing is stored, it returns [EOF] *)

Arguments Converted {A} a.
Arguments Mismatch {A}.
Arguments InputEnd {A}.

Definition EOF : Z := (-1)%Z.

Definition conversions {A : Type} (r : scanned A) : Z :=
  match r with
  | Converted _ => 1%Z
  | Mismatch => 0%Z
  | InputEnd => EOF
  end.

(** What [sscanf(range, "%zu-%zu", &from, &to)] reports. *)
Inductive scanned_range : Type :=
| Both (from to : Z)   (* returns 2 *)
| FromOnly (from : Z)  (* returns 1: [to] is not stored *)
| NoRange              (* returns 0 *)
| RangeEnd.            (* returns [EOF] *)

Definition range_conversions (r : scanned_range) : Z :=
  match r with
  | Both _ _ => 2%Z
  | FromOnly _ => 1%Z
  | NoRange => 0%Z
  | RangeEnd => EOF
  end.

Record externals : Type := mkExternals {
  sscanf_lf : cstring -> scanned float;       (* [sscanf(s, "%lf", &x)] *)
  sscanf_zu : cstring -> scanned Z;           (* [sscanf(s, "%zu", &c)] *)
  sscanf_range : cstring -> scanned_range;    (* [sscanf(s, "%zu-%zu", &from, &to)] *)
  char_replace : cstring -> ascii -> ascii -> cstring;
  char_in_string : cstring -> ascii -> bool;
  realloc_zero_is_null : bool                 (* [realloc(p, 0)] frees and returns [NULL] *)
}.

Definition ULONG_MAX : Z := (2 ^ 64 - 1)%Z.
Definition INT_MAX : Z := (2 ^ 31 - 1)%Z.
Definition EXIT_SUCCESS : Z := 0%Z.
Definition EXIT_FAILURE : Z := 1%Z.

(** [strlen] is [length]; [strstr] returns the text from the first
    occurrence of [needle] on, or [NULL]. *)
Fixpoint is_prefix (p s : cstring) : bool :=
  match p, s with
  | [], _ => true
  | a :: p', b :: s' => Ascii.eqb a b && is_prefix p' s'
  | _ :: _, [] => false
  end.

Fixpoint strstr (haystack needle : cstring) : option cstring :=
  if is_prefix needle haystack then Some haystack
  else match haystack with
       | [] => None
       | _ :: rest => strstr rest needle
       end.

(** [realloc(a, n * sizeof *a)]: the first cells are kept, the new ones are
    [fresh]. *)
Definition realloc {A : Type} (a : list A) (n : nat) (fresh : A) : list A :=
  take n a ++ replicate (n - length a) fresh.

(** An array of row pointers: a pointer that was not set yet points to no
    cell. *)
Definition no_row : array float := [].

Definition set_row (rows : list (array float)) (i : nat) (r : array float)
  : outcome (list (array float)) :=
  if decide (i < length rows) then Ret (<[i := r]> rows) else Undef.

Record globals : Type := mkGlobals {
  kernels : Z;
  generate_kernels : bool;
  ignore_header : bool;
  fail_on_errors : bool;
  use_ranges : bool;
  field_separator : cstring;
  num_separator : ascii;
  column_count : Z;
  columns : option (array Z);   (* [None] is [NULL] *)
  data_rows : list (array float);
  data_row_cap : Z;
  data_row_count : Z
}.

(** The initial values of lines 32-53. *)
Definition initial : globals :=
  mkGlobals 2 false false false false [","%char] "."%char 0 None [] 1024 0.

Definition set_columns (c : option (array Z)) (n : Z) (g : globals) : globals :=
  mkGlobals (kernels g) (generate_kernels g) (ignore_header g) (fail_on_errors g)
            (use_ranges g) (field_separator g) (num_separator g) n c
            (data_rows g) (data_row_cap g) (data_row_count g).

Definition set_data (rows : list (array float)) (cap count : Z) (g : globals)
  : globals :=
  mkGlobals (kernels g) (generate_kernels g) (ignore_header g) (fail_on_errors g)
            (use_ranges g) (field_separator g) (num_separator g) (column_count g)
            (columns g) rows cap count.

Definition set_kernels (k : Z) (g : globals) : globals :=
  mkGlobals k (generate_kernels g) (ignore_header g) (fail_on_errors g)
            (use_ranges g) (field_separator g) (num_separator g) (column_count g)
            (columns g) (data_rows g) (data_row_cap g) (data_row_count g).

Definition set_flags (gen ign fail : bool) (g : globals) : globals :=
  mkGlobals (kernels g) gen ign fail
            (use_ranges g) (field_separator g) (num_separator g) (column_count g)
            (columns g) (data_rows g) (data_row_cap g) (data_row_count g).

Definition set_separators (f : cstring) (n : ascii) (g : globals) : globals :=
  mkGlobals (kernels g) (generate_kernels g) (ignore_header g) (fail_on_errors g)
            (use_ranges g) f n (column_count g)
            (columns g) (data_rows g) (data_row_cap g) (data_row_count g).

(** Lines 55-61. *)
Definition preallocate_data_rows (g : globals) : outcome globals :=
  rows <- for_ 0 (Z.to_nat (data_row_cap g))
            (fun i rows => set_row rows i (malloc (Z.to_nat (column_count g))))
            (replicate (Z.to_nat (data_row_cap g)) no_row) ;;
  Ret (set_data rows (data_row_cap g) (data_row_count g) g).

(** Lines 63-72: the rows from [data_row_count] on are freed and the array
    of row pointers is cut to [data_row_count] cells. *)
Definition trim_data_rows (E : externals) (g : globals) : outcome globals :=
  let rows := realloc (data_rows g) (Z.to_nat (data_row_count g)) no_row in
  if (data_row_count g =? 0)%Z && realloc_zero_is_null E then Fail
  else Ret (set_data rows (data_row_cap g) (data_row_count g) g).

(** Lines 106-123, the loop [while (j < column)]; [n] is [column - j].  The
    value is the new [line_pointer], or [None] after the [return] of line
    116. *)
Fixpoint seek (g : globals) (n : nat) (line_pointer : cstring)
  : outcome (option cstring) :=
  match n with
  | O => Ret (Some line_pointer)
  | S n' =>
      match strstr line_pointer (field_separator g) with
      | None => if fail_on_errors g then Fail else Ret None
      | Some line_pointer =>
          if decide (length line_pointer < length (field_separator g)) then Fail
          else seek g n' (drop (length (field_separator g)) line_pointer)
      end
  end.

(** Lines 103-133, the loop over the columns from [i] on, [n] of them left;
    the flag tells whether the loop ran to its end ([true]) or the function
    returned from inside it ([false]). *)
Fixpoint parse_columns (E : externals) (g : globals) (r n i : nat) (j : Z)
    (line_pointer : cstring) (rows : list (array float))
  : outcome (list (array float) * bool) :=
  match n with
  | O => Ret (rows, true)
  | S n' =>
      cols <- match columns g with Some c => Ret c | None => Undef end ;;
      column <- rd cols i ;;
      found <- seek g (Z.to_nat (column - j)) line_pointer ;;
      match found with
      | None => Ret (rows, false)
      | Some line_pointer =>
          let j := Z.max j column in
          _ <- row_at rows r ;;
          let scan := sscanf_lf E line_pointer in
          rows <- match scan with
                  | Converted x => wr2 rows r i x
                  | _ => Ret rows
                  end ;;
          if (conversions scan =? 0)%Z then
            if fail_on_errors g then Fail else Ret (rows, false)
          else parse_columns E g r n' (S i) j line_pointer rows
      end
  end.

(** Lines 74-136. *)
Definition parse_data_row (E : externals) (line : cstring) (line_number : Z)
    (g : globals) : outcome globals :=
  let line := if Ascii.eqb (num_separator g) "."%char then line
              else char_replace E line (num_separator g) "."%char in
  g <- (if (data_row_count g =? data_row_cap g)%Z then
          if (data_row_cap g =? ULONG_MAX / 2)%Z then Fail
          else
            let i := data_row_cap g in
            let cap := ((data_row_cap g * 2) mod 2 ^ 64)%Z in
            rows <- for_ (Z.to_nat i) (Z.to_nat (cap - i))
                      (fun i rows => set_row rows i (malloc (Z.to_nat (column_count g))))
                      (realloc (data_rows g) (Z.to_nat cap) no_row) ;;
            Ret (set_data rows cap (data_row_count g) g)
        else Ret g) ;;
  '(rows, completed) <-
    parse_columns E g (Z.to_nat (data_row_count g)) (Z.to_nat (column_count g))
                  0 0%Z line (data_rows g) ;;
  if (completed : bool)
  then Ret (set_data rows (data_row_cap g) (size_add (data_row_count g) 1) g)
  else Ret (set_data rows (data_row_cap g) (data_row_count g) g).

(** Lines 138-159. *)
Definition add_column_index (index : Z) (g : globals) : outcome globals :=
  match columns g with
  | None =>
      cols <- wr (malloc 1) 0 index ;;
      Ret (set_columns (Some cols) (size_add (column_count g) 1) g)
  | Some cols =>
      let cols := realloc cols (Z.to_nat (column_count g + 1)) None in
      cols <- wr cols (Z.to_nat (column_count g)) index ;;
      Ret (set_columns (Some cols) (size_add (column_count g) 1) g)
  end.

(** Lines 161-168. *)
Definition add_column (E : externals) (column : cstring) (g : globals)
  : outcome globals :=
  let res := sscanf_zu E column in
  if (conversions res =? 0)%Z then Fail
  else match res with
       | Converted c => add_column_index c g
       | _ => Undef    (* [c] is read without having been written *)
       end.

(** Lines 183-186, the loop [for (i = from; i <= to; i++)]. *)
Fixpoint add_columns (fuel : nat) (i to : Z) (g : globals) : outcome globals :=
  if (i <=? to)%Z then
    match fuel with
    | O => Diverge
    | S fuel' =>
        g <- add_column_index i g ;;
        add_columns fuel' (size_add i 1) to g
    end
  else Ret g.

(** Lines 170-187. *)
Definition add_column_range (E : externals) (fuel : nat) (range : cstring)
    (g : globals) : outcome globals :=
  let res := sscanf_range E range in
  if (range_conversions res =? 0)%Z then Fail
  else match res with
       | Both from to =>
           if (to <=? from)%Z then Fail else add_columns fuel from to g
       | _ => Undef    (* [to] is read without having been written *)
       end.

(** How [main] ends: by returning from [main] with the lines it printed,
    or in [exit] before it read any data. *)
Inductive printed : Type :=
| Warning (optarg : cstring)     (* line 255, the decimal separator is too long *)
| Header (separator : cstring)   (* [printf("%skernel\n", field_separator)] *)
| Label (kernel : nat).          (* [printf("%zu\n", by_kernel[ri])] *)

Inductive ending (A : Type) : Type :=
| Go (a : A)
| Exit (status : Z).

Arguments Go {A} a.
Arguments Exit {A} status.

(** Lines 203-264, the loop over the options that [getopt] returns, each
    with its [optarg]; [out] is what has been printed on standard output. *)
Fixpoint parse_options (E : externals) (opts : list (ascii * cstring))
    (g : globals) (out : list printed) : outcome (ending (globals * list printed)) :=
  match opts with
  | [] => Ret (Go (g, out))
  | (opt, optarg) :: opts' =>
      if Ascii.eqb opt "h"%char then Ret (Exit EXIT_SUCCESS)
      else if Ascii.eqb opt "k"%char then
        let res := sscanf_zu E optarg in
        let g := match res with Converted k => set_kernels k g | _ => g end in
        if (conversions res =? 0)%Z then Fail else parse_options E opts' g out
      else if Ascii.eqb opt "g"%char then
        parse_options E opts' (set_flags true (ignore_header g) (fail_on_errors g) g) out
      else if Ascii.eqb opt "i"%char then
        parse_options E opts' (set_flags (generate_kernels g) true (fail_on_errors g) g) out
      else if Ascii.eqb opt "e"%char then
        parse_options E opts' (set_flags (generate_kernels g) (ignore_header g) true g) out
      else if Ascii.eqb opt "f"%char then
        parse_options E opts' (set_separators optarg (num_separator g) g) out
      else if Ascii.eqb opt "n"%char then
        parse_options E opts'
          (set_separators (field_separator g) (hd "000"%char optarg) g)
          (if decide (1 < length optarg) then out ++ [Warning optarg] else out)
      else Ret (Exit EXIT_FAILURE)
  end.

(** Lines 270-279, the loop over the positional arguments. *)
Fixpoint add_params (E : externals) (fuel : nat) (params : list cstring)
    (g : globals) : outcome globals :=
  match params with
  | [] => Ret g
  | param :: params' =>
      g <- (if char_in_string E param "-"%char then add_column_range E fuel param g
            else add_column E param g) ;;
      add_params E fuel params' g
  end.

(** Lines 189-280.  [argc] counts the program name; [opts] and [params]
    are what [getopt] makes of the other arguments. *)
Definition parse_args (E : externals) (fuel : nat) (argc : Z)
    (opts : list (ascii * cstring)) (params : list cstring) (g : globals)
  : outcome (ending (globals * list printed)) :=
  if (argc =? 1)%Z then Ret (Exit EXIT_FAILURE)
  else
    e <- parse_options E opts g [] ;;
    match e with
    | Exit status => Ret (Exit status)
    | Go (g, out) => g <- add_params E fuel params g ;; Ret (Go (g, out))
    end.

(** Lines 296-299, the loop [while (scanf("%s\n", line_buffer) != EOF)]:
    [words] are the words of standard input, [i] the [int] that counts
    them, [line_buffer] has 2048 cells. *)
Fixpoint read_lines (E : externals) (words : list cstring) (i : Z) (g : globals)
  : outcome globals :=
  match words with
  | [] => Ret g
  | word :: words' =>
      if decide (length word < 2048) then
        g <- parse_data_row E word i g ;;
        if (i =? INT_MAX)%Z then Undef else read_lines E words' (i + 1)%Z g
      else Undef
  end.

(** Lines 284-313. *)
Definition main (E : externals) (qsort_r : qsort_t) (draws : list Z)
    (fuel : nat) (argc : Z) (opts : list (ascii * cstring))
    (params : list cstring) (words : list cstring)
  : outcome (ending (list printed)) :=
  e <- parse_args E fuel argc opts params initial ;;
  match e with
  | Exit status => Ret (Exit status)
  | Go (g, warnings) =>
      g <- preallocate_data_rows g ;;
      '(out, words) <-
        (if ignore_header g then
           match words with
           | [] => Ret ([Header (field_separator g)], [])
           | word :: words' =>
               if decide (length word < 2048)
               then Ret ([Header (field_separator g)], words')
               else Undef
           end
         else Ret ([], words)) ;;
      g <- read_lines E words 0%Z g ;;
      g <- trim_data_rows E g ;;
      by_kernel <- k_means qsort_r draws fuel (Z.to_nat (kernels g)) (data_rows g)
                     (Z.to_nat (data_row_count g)) (Z.to_nat (column_count g))
                     (generate_kernels g) ;;
      labels <- for_ 0 (Z.to_nat (data_row_count g))
                  (fun ri labels => l <- rd by_kernel ri ;; Ret (labels ++ [Label l]))
                  [] ;;
      Ret (Go (warnings ++ out ++ labels))
  end.

End Main.

(** The run stops in [failwith]. *)
Definition failed {A : Type} (o : outcome A) : bool :=
  match o with Fail => true | _ => false end.

Module MainSpec.
Import Ascii Main.

(** [columns] holds the indices [l], in this order, and [column_count]
    counts them. *)
Definition columns_are (l : list Z) (g : globals) : Prop :=
  column_count g = Z.of_nat (length l) /\
  match columns g with
  | None => l = []
  | Some c => c = map Some l
  end.

(** The integers [from], [from + 1], ... ([n] of them). *)
Definition upto (from : Z) (n : nat) : list Z :=
  map (fun d => (from + Z.of_nat d)%Z) (seq 0 n).

(** The indices that one positional argument stands for, when it is well
    written: [from-to] with [from < to], or one index. *)
Definition indices_of (E : externals) (param : cstring) : option (list Z) :=
  if char_in_string E param "-"%char then
    match sscanf_range E param with
    | Both from to =>
        if ((0 <=? from) && (from <? to) && (to <? ULONG_MAX))%Z
        then Some (upto from (Z.to_nat (to - from + 1)))
        else None
    | _ => None
    end
  else
    match sscanf_zu E param with
    | Converted c => if ((0 <=? c) && (c <=? ULONG_MAX))%Z then Some [c] else None
    | _ => None
    end.



(** Cell [i] of row [r]: [None] when there is no such cell, [Some None]
    when it has not been written. *)
Definition cell (rows : list (array float)) (r i : nat) : option (option float) :=
  match rows !! r with
  | Some row => row !! i
  | None => None
  end.

(** The array of rows has [data_row_cap] rows of [column_count] cells, and
    [data_row_count] of them are in use. *)
Definition well_sized (g : globals) : Prop :=
  Z.of_nat (length (data_rows g)) = data_row_cap g /\
  (0 <= data_row_count g <= data_row_cap g)%Z /\
  (0 <= column_count g)%Z /\
  Forall (fun r => length r = Z.to_nat (column_count g)) (data_rows g).

(** Only the columns differ between [g] and [g']. *)
Definition same_but_columns (g g' : globals) : Prop :=
  g' = set_columns (columns g') (column_count g') g.

(** Only the rows, their capacity and their number differ. *)
Definition same_but_data (g g' : globals) : Prop :=
  g' = set_data (data_rows g') (data_row_cap g') (data_row_count g') g.

End MainSpec.

(** A C library for the examples: decimal numbers without sign or
    exponent, and the two functions of [util.c] as their names say. *)
Module MainExample.
Import Ascii Main.

Definition digit (c : ascii) : option Z :=
  let d := (Z.of_N (N_of_ascii c) - 48)%Z in
  if ((0 <=? d) && (d <=? 9))%Z then Some d else None.

(** The number written by the leading digits of [s], how many digits
    there are, and the text after them. *)
Fixpoint digits (s : cstring) (value : Z) (count : nat) : Z * nat * cstring :=
  match s with
  | c :: s' =>
      match digit c with
      | Some d => digits s' (10 * value + d)%Z (S count)
      | None => (value, count, s)
      end
  | [] => (value, count, [])
  end.

Definition scan_zu (s : cstring) : scanned Z :=
  match s with
  | [] => InputEnd
  | _ => let '(v, n, _) := digits s 0 0 in
         if Nat.eqb n 0 then Mismatch else Converted v
  end.

Definition scan_range (s : cstring) : scanned_range :=
  match s with
  | [] => RangeEnd
  | _ =>
      let '(from, n, rest) := digits s 0 0 in
      if Nat.eqb n 0 then NoRange
      else match rest with
           | c :: rest' =>
               if Ascii.eqb c "-"%char then
                 let '(to, n', _) := digits rest' 0 0 in
                 if Nat.eqb n' 0 then FromOnly from else Both from to
               else FromOnly from
           | [] => FromOnly from
           end
  end.

Definition scan_lf (s : cstring) : scanned float :=
  match s with
  | [] => InputEnd
  | _ =>
      let '(whole, n, rest) := digits s 0 0 in
      if Nat.eqb n 0 then Mismatch
      else match rest with
           | c :: rest' =>
               if Ascii.eqb c "."%char then
                 let '(num, n', _) := digits rest' whole 0 in
                 Converted (f64_of_size num / f64_of_size (10 ^ Z.of_nat n'))%float
               else Converted (f64_of_size whole)
           | [] => Converted (f64_of_size whole)
           end
  end.

(** The variables of [main.c] once the columns 0 and 1 have been asked for
    and four rows have been allocated. *)
Definition two_columns : globals :=
  mkGlobals 2 false false false false [","%char] "."%char 2
            (Some [Some 0%Z; Some 1%Z]) (replicate 4 (malloc 2)) 4 0.


Definition libc : externals :=
  mkExternals scan_lf scan_zu scan_range
    (fun s a b => map (fun c => if Ascii.eqb c a then b else c) s)
    (fun s a => existsb (Ascii.eqb a) s)
    true.

End MainExample.

(** * The text of a vector, [reprf64v] of [k_means.c] *)

Module Repr.
Import Ascii.

(** [sprintf(a_repr + pos, ...)] into a block of [size] bytes that holds
    [text] so far, [pos] being its length: the new characters and the NUL
    after them must fit. *)
Definition sprintf (size : Z) (text more : list ascii) : outcome (list ascii) :=
  if (Z.of_nat (length text + length more) + 1 <=? size)%Z
  then Ret (text ++ more) else Undef.

(** Lines 36-46; [format x] is what ["%0.2lf"] prints for [x]. *)
Definition reprf64v (format : float -> list ascii) (v : array float) (n : Z)
  : outcome (list ascii) :=
  let size := ((n * 256) mod 2 ^ 64)%Z in
  a_repr <- sprintf size [] ["["%char] ;;
  a_repr <- for_ 0 (Z.to_nat ((n - 1) mod 2 ^ 64))
              (fun i a_repr =>
                 x <- rd v i ;;
                 sprintf size a_repr (format x ++ [","; " "]%char))
              a_repr ;;
  x <- rd v (Z.to_nat ((n - 1) mod 2 ^ 64)) ;;
  sprintf size a_repr (format x ++ ["]"%char]).

(** A cell that is not the last: its text, a comma and a space. *)
Definition piece (format : float -> list ascii) (x : float) : list ascii :=
  format x ++ [","; " "]%char.

(** The cells of a vector, separated by a comma and a space, and the
    closing bracket. *)
Fixpoint cells (format : float -> list ascii) (l : list float) : list ascii :=
  match l with
  | [] => []
  | [x] => format x ++ ["]"%char]
  | x :: l' => format x ++ [","; " "]%char ++ cells format l'
  end.

Definition rendering (format : float -> list ascii) (l : list float) : list ascii :=
  "["%char :: cells format l.

(** A way of printing for the examples: the sign and the class of the
    number. *)
Definition sign_of (x : float) : list ascii :=
  if is_nan x then ["n"; "a"; "n"]%char
  else if (x <? 0)%float then ["-"%char]
  else if (0 <? x)%float then ["+"%char]
  else ["0"%char].

End Repr.

(** * The generator of test data

    The second program of the repository prints [n] lines of [m] random
    numbers.  [rand] gives the values of the successive calls of [rand()];
    [calls] counts them. *)

Module Generator.
Import Ascii Main.

(** [randf64]: the value and the number of calls of [rand()] so far. *)
Definition randf64 (rand : nat -> Z) (calls : nat) : float * nat :=
  let p := (f64_of_size (rand calls) / f64_of_size RAND_MAX)%float in
  let q := (f64_of_size (rand (S calls)) / f64_of_size RAND_MAX * 10)%float in
  ((p * q)%float, S (S calls)).

(** One line: the loop [for (j = 0; j < m - 1; j++)], the subtraction
    being one of [size_t], and the last number. *)
Definition print_row (rand : nat -> Z) (m : Z) (calls : nat)
  : outcome (list float * nat) :=
  '(row, calls) <- for_ 0 (Z.to_nat ((m - 1) mod 2 ^ 64))
                     (fun j '(row, calls) =>
                        let '(x, calls) := randf64 rand calls in
                        Ret (row ++ [x], calls))
                     ([], calls) ;;
  let '(x, calls) := randf64 rand calls in
  Ret (row ++ [x], calls).

(** [main]: the numbers printed, line by line.  [n] and [m] are file-scope
    variables, 0 until [sscanf] stores a value. *)
Definition main (E : externals) (rand : nat -> Z) (argc : Z)
    (argv1 argv2 : cstring) : outcome (list (list float)) :=
  if negb (argc =? 3)%Z then Ret []
  else
    let res := sscanf_zu E argv1 in
    let n := match res with Converted n => n | _ => 0%Z end in
    if (conversions res =? 0)%Z then Fail
    else
      let res := sscanf_zu E argv2 in
      let m := match res with Converted m => m | _ => 0%Z end in
      if (conversions res =? 0)%Z then Fail
      else
        '(rows, _) <- for_ 0 (Z.to_nat n)
                        (fun i '(rows, calls) =>
                           '(row, calls) <- print_row rand m calls ;;
                           Ret (rows ++ [row], calls))
                        ([], 0) ;;
        Ret rows.

(** The number of numbers on a line when [m] columns are asked for. *)
Definition row_width (m : Z) : nat := S (Z.to_nat ((m - 1) mod 2 ^ 64)).

(** The [c]-th number that [randf64] returns. *)
Definition number (rand : nat -> Z) (c : nat) : float := fst (randf64 rand (2 * c)).

End Generator.

(** * Facts about binary64 arithmetic *)

Section SpecFloatFacts.
Local Open Scope Z_scope.

Lemma sf_signed_nonneg x : sf_signed false x -> sf_nonneg x.
Proof. destruct x; simpl; auto. Qed.

Lemma shr_1_nonneg mrs : 0 <= shr_m mrs -> 0 <= shr_m (shr_1 mrs).
Proof. destruct mrs as [[|[p|p|]|[p|p|]] r s]; simpl; lia. Qed.

Lemma iter_pos_preserves {A} (P : A -> Prop) (f : A -> A) :
  (forall x, P x -> P (f x)) -> forall p x, P x -> P (SpecFloat.iter_pos f p x).
Proof. intros Hf p; induction p; simpl; auto. Qed.

Lemma shr_nonneg mrs e n : 0 <= shr_m mrs -> 0 <= shr_m (fst (shr mrs e n)).
Proof.
  intros H. destruct n; simpl; auto.
  apply (iter_pos_preserves (fun r => 0 <= shr_m r)); auto using shr_1_nonneg.
Qed.

Lemma shr_fexp_nonneg pr em m e l :
  0 <= m -> 0 <= shr_m (fst (shr_fexp pr em m e l)).
Proof.
  intros H. unfold shr_fexp. apply shr_nonneg.
  destruct l as [|[| |]]; simpl; assumption.
Qed.

Lemma round_nearest_even_nonneg m l : 0 <= m -> 0 <= round_nearest_even m l.
Proof.
  intros H. destruct l as [|[| |]]; simpl; try lia.
  destruct (Z.even m); lia.
Qed.

Lemma binary_round_aux_signed pr em s m e l :
  0 <= m -> sf_signed s (binary_round_aux pr em s m e l).
Proof.
  intros H. unfold binary_round_aux.
  pose proof (shr_fexp_nonneg pr em m e l H) as H1.
  destruct (shr_fexp pr em m e l) as [mrs' e']. simpl in H1.
  pose proof (shr_fexp_nonneg pr em _ e' loc_Exact
                (round_nearest_even_nonneg _ (loc_of_shr_record mrs') H1)) as H2.
  destruct (shr_fexp pr em _ e' loc_Exact) as [mrs'' e'']. simpl in H2.
  destruct (shr_m mrs'') as [|p|p]; simpl; auto; try lia.
  destruct (e'' <=? em - pr); simpl; auto.
Qed.

Lemma binary_round_signed pr em s m e : sf_signed s (binary_round pr em s m e).
Proof.
  unfold binary_round. destruct (shl_align _ _ _) as [mz ez].
  apply binary_round_aux_signed. lia.
Qed.

Lemma binary_normalize_signed pr em z e sz :
  sf_signed (if z =? 0 then sz else z <? 0) (binary_normalize pr em z e sz).
Proof.
  destruct z; simpl; auto; apply binary_round_signed.
Qed.

Lemma binary_normalize_nonneg pr em z e : 0 <= z -> sf_nonneg (binary_normalize pr em z e false).
Proof.
  intros H. destruct z; simpl; auto; try lia.
  apply sf_signed_nonneg, binary_round_signed.
Qed.

Lemma binary_normalize_not_nan pr em z e sz : binary_normalize pr em z e sz <> S754_nan.
Proof.
  pose proof (binary_normalize_signed pr em z e sz) as H.
  intros E. rewrite E in H. exact H.
Qed.

Lemma SFadd_nonneg x y : sf_nonneg x -> sf_nonneg y -> sf_nonneg (SF64add x y).
Proof.
  unfold SF64add.
  destruct x as [sx|sx| |sx mx ex], y as [sy|sy| |sy my ey]; intros Hx Hy;
    simpl in Hx, Hy; try contradiction; subst; unfold SFadd; try exact I;
    try reflexivity.
  - destruct sx, sy; exact I.
  - apply binary_normalize_nonneg. unfold cond_Zopp. lia.
Qed.

Lemma SFsub_fin x y : sf_fin x -> sf_fin y -> SF64sub x y <> S754_nan.
Proof.
  unfold SF64sub.
  destruct x as [sx|sx| |sx mx ex], y as [sy|sy| |sy my ey]; intros Hx Hy;
    simpl in Hx, Hy; try contradiction; unfold SFsub; try discriminate.
  - destruct sx, sy; discriminate.
  - apply binary_normalize_not_nan.
Qed.

Lemma SFmul_self_nonneg x : x <> S754_nan -> sf_nonneg (SF64mul x x).
Proof.
  unfold SF64mul.
  destruct x as [s|s| |s m e]; intros H; try congruence; unfold SFmul.
  - exact I.
  - apply xorb_nilpotent.
  - apply sf_signed_nonneg. rewrite xorb_nilpotent.
    apply binary_round_aux_signed. lia.
Qed.

Lemma SFsqrt_nonneg x : sf_nonneg x -> sf_nonneg (SF64sqrt x).
Proof.
  unfold SF64sqrt.
  destruct x as [s|s| |s m e]; intros H; simpl in H; try contradiction; subst;
    unfold SFsqrt; try exact I; try reflexivity.
  unfold SFsqrt_core_binary.
  set (e' := Z.min _ _).
  set (m' := match e - 2 * e' with 0 => _ | Z.pos _ => _ | Z.neg _ => _ end).
  assert (Hm' : 0 <= m').
  { subst m'. destruct (e - 2 * e'); try lia. apply Z.shiftl_nonneg. lia. }
  pose proof (Z.sqrtrem_spec m' Hm') as Hs.
  destruct (Z.sqrtrem m') as [q r].
  apply sf_signed_nonneg, binary_round_aux_signed. nia.
Qed.

Lemma SFltb_nonneg_zero x s : sf_nonneg x -> SFltb x (S754_zero s) = false.
Proof. destruct x; simpl; intros H; try contradiction; subst; reflexivity. Qed.

Lemma SFcompare_refl x : x <> S754_nan -> SFcompare x x = Some Eq.
Proof.
  destruct x as [s|s| |s m e]; simpl; intros H; try congruence.
  - destruct s; reflexivity.
  - rewrite Z.compare_refl.
    replace (Pos.compare_cont Eq m m) with (Pos.compare m m) by reflexivity.
    rewrite Pos.compare_refl. destruct s; reflexivity.
Qed.

Lemma SFltb_key x y :
  x <> S754_nan -> y <> S754_nan ->
  (SFltb x y = true <-> key_lt (sf_key x) (sf_key y)).
Proof.
  unfold SFltb.
  destruct x as [sx|sx| |sx mx ex], y as [sy|sy| |sy my ey]; intros Hx Hy;
    try congruence; simpl;
    repeat match goal with s : bool |- _ => destruct s end; simpl;
    try (split; [discriminate || lia | lia || reflexivity]).
  all: replace (Pos.compare_cont Eq mx my) with (Pos.compare mx my) by reflexivity.
  all: destruct (Z.compare_spec ex ey); destruct (Pos.compare_spec mx my); simpl;
    (split; [try discriminate; lia | try reflexivity; lia]).
Qed.

Lemma zero_nonneg : nonneg 0.
Proof. split; reflexivity. Qed.

End SpecFloatFacts.

Section PrimFloatFacts.
Local Open Scope float_scope.

Lemma is_nan_false x : is_nan x = false <-> Prim2SF x <> S754_nan.
Proof.
  unfold is_nan. rewrite FloatAxioms.eqb_spec. unfold SFeqb. split.
  - intros H E. rewrite E in H. discriminate.
  - intros H. rewrite SFcompare_refl by assumption. reflexivity.
Qed.

Lemma is_nan_true x : is_nan x = true <-> Prim2SF x = S754_nan.
Proof.
  unfold is_nan. rewrite FloatAxioms.eqb_spec. unfold SFeqb.
  destruct (Prim2SF x) as [s|s| |s m e] eqn:E;
    try (rewrite SFcompare_refl by discriminate; split; discriminate).
  split; reflexivity.
Qed.

Lemma nonneg_spec x : nonneg x <-> sf_nonneg (Prim2SF x).
Proof.
  unfold nonneg. rewrite is_nan_false, FloatAxioms.ltb_spec.
  change (Prim2SF 0) with (S754_zero false).
  destruct (Prim2SF x) as [s|s| |s m e]; simpl; unfold SFltb; simpl.
  - split; [auto | split; [discriminate | reflexivity]].
  - destruct s; split; intros H; try reflexivity; try discriminate;
      [destruct H; discriminate | split; [discriminate | reflexivity]].
  - split; [intros [H _]; congruence | contradiction].
  - destruct s; split; intros H; try reflexivity; try discriminate;
      [destruct H; discriminate | split; [discriminate | reflexivity]].
Qed.

Lemma is_finite_spec x : is_finite x = true -> sf_fin (Prim2SF x).
Proof.
  unfold is_finite, is_infinity. intros H.
  apply negb_true_iff, orb_false_iff in H as [Hn Hi].
  apply is_nan_false in Hn.
  rewrite FloatAxioms.eqb_spec, FloatAxioms.abs_spec in Hi.
  change (Prim2SF infinity) with (S754_infinity false) in Hi.
  destruct (Prim2SF x); simpl in *; auto; try congruence. discriminate Hi.
Qed.

Lemma add_nonneg x y : nonneg x -> nonneg y -> nonneg (x + y).
Proof. rewrite !nonneg_spec, FloatAxioms.add_spec. apply SFadd_nonneg. Qed.

Lemma sqrt_nonneg x : nonneg x -> nonneg (sqrt x).
Proof. rewrite !nonneg_spec, FloatAxioms.sqrt_spec. apply SFsqrt_nonneg. Qed.

Lemma mul_self_nonneg x : is_nan x = false -> nonneg (x * x).
Proof. rewrite nonneg_spec, FloatAxioms.mul_spec, is_nan_false. apply SFmul_self_nonneg. Qed.

Lemma sub_finite x y : is_finite x = true -> is_finite y = true -> is_nan (x - y) = false.
Proof.
  intros Hx Hy. rewrite is_nan_false, FloatAxioms.sub_spec.
  apply SFsub_fin; apply is_finite_spec; assumption.
Qed.

Lemma add_nan_l x y : is_nan x = true -> is_nan (x + y) = true.
Proof. rewrite !is_nan_true, FloatAxioms.add_spec. intros ->. reflexivity. Qed.

Lemma add_nan_r x y : is_nan y = true -> is_nan (x + y) = true.
Proof.
  rewrite !is_nan_true, FloatAxioms.add_spec. intros ->.
  destruct (Prim2SF x); reflexivity.
Qed.

Lemma mul_nan x : is_nan x = true -> is_nan (x * x) = true.
Proof. rewrite !is_nan_true, FloatAxioms.mul_spec. intros ->. reflexivity. Qed.


Lemma ltb_nan_l x y : is_nan x = true -> (x <? y) = false.
Proof. rewrite is_nan_true, FloatAxioms.ltb_spec. intros ->. reflexivity. Qed.

Lemma ltb_key x y :
  is_nan x = false -> is_nan y = false ->
  ((x <? y) = true <-> key_lt (sf_key (Prim2SF x)) (sf_key (Prim2SF y))).
Proof. rewrite !is_nan_false, FloatAxioms.ltb_spec. apply SFltb_key. Qed.

Lemma ltb_trans x y z : (x <? y) = true -> (y <? z) = true -> (x <? z) = true.
Proof.
  intros Hxy Hyz.
  destruct (is_nan x) eqn:Hx; [rewrite ltb_nan_l in Hxy by assumption; discriminate|].
  destruct (is_nan y) eqn:Hy; [rewrite ltb_nan_l in Hyz by assumption; discriminate|].
  destruct (is_nan z) eqn:Hz.
  { apply is_nan_true in Hz. rewrite FloatAxioms.ltb_spec, Hz in Hyz.
    destruct (Prim2SF y); discriminate. }
  rewrite ltb_key in * by assumption.
  destruct (sf_key (Prim2SF x)) as [[? ?] ?], (sf_key (Prim2SF y)) as [[? ?] ?],
    (sf_key (Prim2SF z)) as [[? ?] ?]. unfold key_lt in *. lia.
Qed.

Lemma ltb_irrefl x : (x <? x) = false.
Proof.
  destruct (is_nan x) eqn:Hx; [apply ltb_nan_l; assumption|].
  destruct (x <? x) eqn:E; [|reflexivity].
  rewrite ltb_key in E by assumption.
  destruct (sf_key (Prim2SF x)) as [[? ?] ?]. unfold key_lt in E. lia.
Qed.

Lemma ltb_le_trans x y z :
  is_nan y = false -> (x <? z) = true -> (y <? z) = false -> (x <? y) = true.
Proof.
  intros Hy Hxz Hyz.
  destruct (is_nan x) eqn:Hx; [rewrite ltb_nan_l in Hxz by assumption; discriminate|].
  destruct (is_nan z) eqn:Hz.
  { apply is_nan_true in Hz. rewrite FloatAxioms.ltb_spec, Hz in Hxz.
    destruct (Prim2SF x); discriminate. }
  assert (Hyz' : ~ key_lt (sf_key (Prim2SF y)) (sf_key (Prim2SF z))).
  { rewrite <- ltb_key by assumption. rewrite Hyz. discriminate. }
  rewrite ltb_key in * by assumption.
  destruct (sf_key (Prim2SF x)) as [[? ?] ?], (sf_key (Prim2SF y)) as [[? ?] ?],
    (sf_key (Prim2SF z)) as [[? ?] ?]. unfold key_lt in *. lia.
Qed.

Lemma not_ltb_infinity x : is_nan x = false -> (x <? infinity) = false -> x = infinity.
Proof.
  intros Hx H. apply Prim2SF_inj.
  change (Prim2SF infinity) with (S754_infinity false).
  rewrite FloatAxioms.ltb_spec in H. apply is_nan_false in Hx.
  change (Prim2SF infinity) with (S754_infinity false) in H.
  destruct (Prim2SF x) as [s|s| |s m e]; try congruence;
    unfold SFltb in H; simpl in H; try discriminate; destruct s; try discriminate.
  reflexivity.
Qed.

End PrimFloatFacts.

(** * Reasoning about outcomes, loops and blocks *)

Section Outcomes.
Context {A B : Type}.

Lemma bind_Ret (x : outcome A) (f : A -> outcome B) (b : B) :
  bind x f = Ret b -> exists a, x = Ret a /\ f a = Ret b.
Proof. destruct x; simpl; intros H; try discriminate. eauto. Qed.

Lemma bind_Ret_l (a : A) (f : A -> outcome B) : bind (Ret a) f = f a.
Proof. reflexivity. Qed.

End Outcomes.

(** Break [x <- e ;; k = Ret b] in hypothesis [H] into its steps. *)
Ltac inv_bind H :=
  let a := fresh "a" in
  let H1 := fresh H in
  apply bind_Ret in H; destruct H as (a & H1 & H).

Ltac inv_ret H := inversion H; clear H; subst.

Tactic Notation "bind_inv" hyp(H) "as" simple_intropattern(a) ident(Ha) :=
  apply bind_Ret in H; destruct H as (a & Ha & H).

Section Loops.
Context {St : Type}.
Implicit Types (body : nat -> St -> outcome St) (I : nat -> St -> Prop).

(** The invariant rule of a counted loop that runs to its end. *)
Lemma for_inv I body lo n s s' :
  for_ lo n body s = Ret s' ->
  I lo s ->
  (forall i t t', lo <= i < lo + n -> I i t -> body i t = Ret t' -> I (S i) t') ->
  I (lo + n) s'.
Proof.
  revert lo s. induction n as [|n IH]; intros lo s H H0 Hstep; simpl in H.
  - inv_ret H. rewrite Nat.add_0_r. assumption.
  - inv_bind H. rewrite Nat.add_succ_r. change (S (lo + n)) with (S lo + n).
    apply (IH (S lo) a); auto.
    + apply (Hstep lo s a); auto. lia.
    + intros i t t' Hi. apply Hstep. lia.
Qed.

(** The same rule with progress: the loop runs to its end. *)
Lemma for_total I body lo n s :
  I lo s ->
  (forall i t, lo <= i < lo + n -> I i t -> exists t', body i t = Ret t' /\ I (S i) t') ->
  exists s', for_ lo n body s = Ret s' /\ I (lo + n) s'.
Proof.
  revert lo s. induction n as [|n IH]; intros lo s H0 Hstep; simpl.
  - exists s. rewrite Nat.add_0_r. auto.
  - destruct (Hstep lo s) as (t' & Hb & Ht'); [lia | assumption |].
    rewrite Hb. simpl.
    destruct (IH (S lo) t') as (s' & Hs' & HI); auto.
    + intros i t Hi. apply Hstep. lia.
    + exists s'. split; auto. rewrite Nat.add_succ_r. exact HI.
Qed.

Lemma for_ext body body' lo n s :
  (forall i t, lo <= i < lo + n -> body i t = body' i t) ->
  for_ lo n body s = for_ lo n body' s.
Proof.
  revert lo s. induction n as [|n IH]; intros lo s H; simpl; auto.
  rewrite H by lia. destruct (body' lo s); simpl; auto.
  apply IH. intros i t Hi. apply H. lia.
Qed.

End Loops.

Section Blocks.
Context {A : Type}.
Implicit Types (a : array A) (rows : list (array A)).

Lemma rd_Ret a i x : rd a i = Ret x <-> a !! i = Some (Some x).
Proof.
  unfold rd. destruct (a !! i) as [[y|]|]; split; intros H; try discriminate;
    congruence.
Qed.

Lemma wr_Ret a i x a' : wr a i x = Ret a' <-> i < length a /\ a' = <[i := Some x]> a.
Proof.
  unfold wr. destruct (decide (i < length a)); split; intros H;
    try discriminate; try (destruct H; try lia; congruence).
  inv_ret H. auto.
Qed.

Lemma row_at_Ret {B} (l : list B) i r : row_at l i = Ret r <-> l !! i = Some r.
Proof.
  unfold row_at. destruct (l !! i); split; intros H; try discriminate; congruence.
Qed.

Lemma rd2_Ret rows i j x :
  rd2 rows i j = Ret x <-> exists r, rows !! i = Some r /\ r !! j = Some (Some x).
Proof.
  unfold rd2. split.
  - intros H. inv_bind H. apply row_at_Ret in H0. apply rd_Ret in H. eauto.
  - intros (r & Hr & Hx). apply row_at_Ret in Hr. rewrite Hr. simpl.
    apply rd_Ret. assumption.
Qed.

Lemma wr2_Ret rows i j x rows' :
  wr2 rows i j x = Ret rows' <->
  exists r, rows !! i = Some r /\ j < length r /\ rows' = <[i := <[j := Some x]> r]> rows.
Proof.
  unfold wr2. split.
  - intros H. inv_bind H. inv_bind H. inv_ret H.
    apply row_at_Ret in H0. apply wr_Ret in H1 as [? ->]. eauto.
  - intros (r & Hr & Hj & ->). apply row_at_Ret in Hr. rewrite Hr. simpl.
    unfold wr. rewrite decide_True by assumption. reflexivity.
Qed.

End Blocks.

Section WrittenBlocks.

Lemma rd_vec (l : list float) i x : rd (vec l) i = Ret x <-> l !! i = Some x.
Proof.
  rewrite rd_Ret. unfold vec. rewrite list_lookup_fmap.
  destruct (l !! i); simpl; split; congruence.
Qed.

Lemma rd_vec_lookup (l : list float) i x : l !! i = Some x -> rd (vec l) i = Ret x.
Proof. apply rd_vec. Qed.

Lemma length_vec (l : list float) : length (vec l) = length l.
Proof. apply length_map. Qed.

Lemma length_malloc {A} n : length (@malloc A n) = n.
Proof. apply length_replicate. Qed.

Lemma rd2_wr2_same {A} (t : list (array A)) i j x t' :
  wr2 t i j x = Ret t' -> rd2 t' i j = Ret x.
Proof.
  intros H. apply wr2_Ret in H as (r & Hr & Hj & ->).
  apply rd2_Ret. exists (<[j := Some x]> r). split.
  - apply list_lookup_insert_eq. eapply lookup_lt_Some; eassumption.
  - apply list_lookup_insert_eq. assumption.
Qed.

Lemma rd2_wr2_other {A} (t : list (array A)) i j x t' i' j' :
  wr2 t i j x = Ret t' -> i' <> i \/ j' <> j -> rd2 t' i' j' = rd2 t i' j'.
Proof.
  intros H Hne. apply wr2_Ret in H as (r & Hr & Hj & ->).
  unfold rd2, row_at. destruct (decide (i' = i)) as [->|Hi].
  - rewrite list_lookup_insert_eq by (eapply lookup_lt_Some; eassumption).
    rewrite Hr. simpl. unfold rd.
    rewrite list_lookup_insert_ne by (destruct Hne; congruence). reflexivity.
  - rewrite list_lookup_insert_ne by congruence. reflexivity.
Qed.

Lemma wr2_other_rows {A} (t : list (array A)) i j x t' i' :
  wr2 t i j x = Ret t' -> i' <> i -> t' !! i' = t !! i'.
Proof.
  intros H Hne. apply wr2_Ret in H as (r & Hr & Hj & ->).
  apply list_lookup_insert_ne. congruence.
Qed.

Lemma rd2_same_row {A} (t t' : list (array A)) i j :
  t' !! i = t !! i -> rd2 t' i j = rd2 t i j.
Proof. unfold rd2, row_at. intros ->. reflexivity. Qed.

End WrittenBlocks.

(** * Copying a matrix cell by cell *)

Section Copy.

Lemma shaped_lookup k m rows i r : shaped k m rows -> rows !! i = Some r -> length r = m.
Proof. intros [_ H] Hr. eapply (proj1 (Forall_lookup _ _) H); eassumption. Qed.

Lemma shaped_insert k m rows i r :
  shaped k m rows -> length r = m -> shaped k m (<[i := r]> rows).
Proof.
  intros [Hl H] Hr. split; [rewrite length_insert; assumption|].
  apply Forall_insert; assumption.
Qed.


Lemma shaped_malloc k m : shaped k m (replicate k (malloc m)).
Proof.
  split; [apply length_replicate|].
  apply Forall_replicate. apply length_malloc.
Qed.

Lemma wr2_shaped k m rows i j (x : float) rows' :
  shaped k m rows -> wr2 rows i j x = Ret rows' -> shaped k m rows'.
Proof.
  intros Hs H. apply wr2_Ret in H as (r & Hr & Hj & ->).
  apply shaped_insert; [assumption|]. rewrite length_insert.
  eapply shaped_lookup; eassumption.
Qed.

(** The inner loop: row [i] of [dst] becomes row [i] of [src]. *)
Lemma copy_row_loop k m (S : list (list float)) dst i s :
  shaped k m dst -> S !! i = Some s -> length s = m -> i < k ->
  exists dst',
    for_ 0 m (fun j d => x <- rd2 (map vec S) i j ;; wr2 d i j x) dst = Ret dst' /\
    dst' = <[i := vec s]> dst.
Proof.
  intros Hs Hsi Hlen Hi.
  destruct (lookup_lt_is_Some_2 dst i) as [r0 Hr0]; [destruct Hs; lia|].
  pose proof (shaped_lookup _ _ _ _ _ Hs Hr0) as Hlr0.
  destruct (for_total
    (fun j d => exists r, d = <[i := r]> dst /\ length r = m /\
                          (forall j', j' < j -> r !! j' = vec s !! j'))
    (fun j d => x <- rd2 (map vec S) i j ;; wr2 d i j x) 0 m dst)
    as (dst' & Hrun & r & -> & Hlr & Hcells).
  - exists r0. split; [symmetry; apply list_insert_id; assumption|].
    split; [assumption|]. intros j' Hj'. lia.
  - intros j d Hj (r & -> & Hlr & Hcells).
    destruct (lookup_lt_is_Some_2 s j) as [x Hx]; [lia|].
    assert (Hrd : rd2 (map vec S) i j = Ret x).
    { apply rd2_Ret. exists (vec s). split.
      - rewrite list_lookup_fmap, Hsi. reflexivity.
      - unfold vec. rewrite list_lookup_fmap, Hx. reflexivity. }
    rewrite Hrd. simpl.
    assert (Hrow : <[i := r]> dst !! i = Some r)
      by (apply list_lookup_insert_eq; destruct Hs; lia).
    exists (<[i := <[j := Some x]> r]> dst). split.
    + apply wr2_Ret. exists r. split; [assumption|]. split; [lia|].
      rewrite list_insert_insert_eq. reflexivity.
    + exists (<[j := Some x]> r). split; [reflexivity|].
      split; [rewrite length_insert; assumption|].
      intros j' Hj'. destruct (decide (j' = j)) as [->|Hne].
      * rewrite list_lookup_insert_eq by lia.
        unfold vec. rewrite list_lookup_fmap, Hx. reflexivity.
      * rewrite list_lookup_insert_ne by congruence. apply Hcells. lia.
  - exists (<[i := r]> dst). split; [assumption|]. f_equal.
    apply list_eq_same_length with m; [rewrite length_vec; assumption|assumption|].
    intros j x y Hj Hx Hy. rewrite Hcells in Hx by assumption. congruence.
Qed.

(** The double loop of lines 136-141 and of lines 207-211. *)
Lemma copy_loop k m (S : list (list float)) dst :
  matrix k m S -> shaped k m dst ->
  for_ 0 k (fun i d =>
    for_ 0 m (fun j d => x <- rd2 (map vec S) i j ;; wr2 d i j x) d) dst
  = Ret (map vec S).
Proof.
  intros [HlS HS] Hdst.
  destruct (for_total
    (fun i d => shaped k m d /\ forall i', i' < i -> d !! i' = map vec S !! i')
    (fun i d => for_ 0 m (fun j d => x <- rd2 (map vec S) i j ;; wr2 d i j x) d)
    0 k dst) as (dst' & Hrun & Hs' & Hrows).
  - split; [assumption|]. intros i' Hi'. lia.
  - intros i d Hi [Hd Hrows].
    destruct (lookup_lt_is_Some_2 S i) as [s Hs]; [lia|].
    pose proof (proj1 (Forall_lookup _ _) HS i s Hs) as Hls. simpl in Hls.
    destruct (copy_row_loop k m S d i s Hd Hs Hls) as (d' & Hrun & ->); [lia|].
    exists (<[i := vec s]> d). split; [assumption|]. split.
    + apply shaped_insert; [assumption|]. rewrite length_vec. assumption.
    + intros i' Hi'. destruct (decide (i' = i)) as [->|Hne].
      * rewrite list_lookup_insert_eq by (destruct Hd; lia).
        rewrite list_lookup_fmap, Hs. reflexivity.
      * rewrite list_lookup_insert_ne by congruence. apply Hrows. lia.
  - rewrite Hrun. f_equal.
    apply list_eq_same_length with k;
      [rewrite length_map; assumption | destruct Hs'; assumption |].
    intros i x y Hi Hx Hy. rewrite Hrows in Hx by assumption. congruence.
Qed.


End Copy.

(** * The example run *)

Lemma example_steps :
  (st <- save_prev_means 2 2 example_entry ;; reset_followers 2 2 st) = Ret example_reset /\
  assign_row 2 2 0 example_reset = Ret example_row0 /\
  assign_rows 2 4 2 example_reset = Ret example_assigned /\
  update_kernels 2 2 example_assigned = Ret example_updated /\
  assign_and_update 2 4 2 example_entry = Ret example_updated /\
  k_means_run insertion_qsort_r [] 3 2 (map vec two_clusters) 4 2 true = Ret example_final.
Proof. repeat split; vm_compute; reflexivity. Qed.

(** * The distance function *)

Section Distance.

(** The summation loop of [distf64v] is the left fold of [sum_squares]. *)
Lemma distf64v_loop p q n i acc :
  length p = length q -> i + n = length p ->
  for_ i n (fun i sum =>
              pi <- rd (vec p) i ;;
              qi <- rd (vec q) i ;;
              Ret (sum + (pi - qi) * (pi - qi))%float) acc
  = Ret (fold_left (fun sum pq => (sum + (fst pq - snd pq) * (fst pq - snd pq))%float)
                   (combine (drop i p) (drop i q)) acc).
Proof.
  intros Hlen. revert i acc. induction n as [|n IH]; intros i acc Hi; simpl.
  - rewrite !drop_ge by lia. reflexivity.
  - destruct (lookup_lt_is_Some_2 p i) as [x Hx]; [lia|].
    destruct (lookup_lt_is_Some_2 q i) as [y Hy]; [lia|].
    rewrite (rd_vec_lookup _ _ _ Hx), (rd_vec_lookup _ _ _ Hy). simpl.
    rewrite IH by lia.
    rewrite (drop_S p x i Hx), (drop_S q y i Hy). reflexivity.
Qed.

Lemma square_class d : nan_or_nonneg (d * d)%float.
Proof.
  destruct (is_nan d) eqn:E.
  - left. apply mul_nan. assumption.
  - right. apply mul_self_nonneg. assumption.
Qed.

Lemma add_class x y : nan_or_nonneg x -> nan_or_nonneg y -> nan_or_nonneg (x + y)%float.
Proof.
  intros [Hx|Hx] [Hy|Hy]; [left; apply add_nan_l| left; apply add_nan_l
                           | left; apply add_nan_r | right; apply add_nonneg]; assumption.
Qed.

Lemma fold_squares_class l acc :
  nan_or_nonneg acc ->
  nan_or_nonneg (fold_left (fun sum (pq : float * float) =>
                              (sum + (fst pq - snd pq) * (fst pq - snd pq))%float) l acc).
Proof.
  revert acc. induction l as [|[x y] l IH]; intros acc H; simpl; auto.
  apply IH, add_class; auto using square_class.
Qed.

Lemma sum_squares_class p q : nan_or_nonneg (sum_squares p q).
Proof. apply fold_squares_class. right. apply zero_nonneg. Qed.

Lemma nan_or_nonneg_not_neg x : nan_or_nonneg x -> (x <? 0)%float = false.
Proof. intros [H|[_ H]]; [apply ltb_nan_l|]; assumption. Qed.

(** On fully written vectors of equal length the two "impossible" branches
    reduce to one test: the result is a NaN. *)
Lemma distf64v_vec p q :
  length p = length q ->
  distf64v (vec p) (vec q) (length p)
  = if is_nan (euclidean p q) then Fail else Ret (euclidean p q).
Proof.
  intros Hlen. unfold distf64v.
  rewrite (distf64v_loop p q (length p) 0 0%float Hlen) by lia.
  rewrite !drop_0. simpl bind. fold (sum_squares p q).
  rewrite nan_or_nonneg_not_neg by apply sum_squares_class.
  reflexivity.
Qed.

Lemma fold_squares_finite l acc :
  nonneg acc ->
  Forall (fun pq : float * float => is_finite (fst pq) = true /\ is_finite (snd pq) = true) l ->
  nonneg (fold_left (fun sum (pq : float * float) =>
                       (sum + (fst pq - snd pq) * (fst pq - snd pq))%float) l acc).
Proof.
  revert acc. induction l as [|[x y] l IH]; intros acc H Hl; simpl; auto.
  inversion Hl as [|? ? [Hx Hy] Hl']; subst. simpl in *.
  apply IH; auto. apply add_nonneg; auto.
  apply mul_self_nonneg, sub_finite; assumption.
Qed.

Lemma Forall_combine_finite p q :
  Forall (fun x => is_finite x = true) p -> Forall (fun x => is_finite x = true) q ->
  Forall (fun pq : float * float => is_finite (fst pq) = true /\ is_finite (snd pq) = true)
         (combine p q).
Proof.
  intros Hp. revert q. induction Hp as [|x p Hx Hp IH]; intros q Hq; simpl.
  - constructor.
  - destruct Hq as [|y q Hy Hq]; constructor; simpl; auto.
Qed.

Lemma euclidean_finite_nonneg p q :
  Forall (fun x => is_finite x = true) p -> Forall (fun x => is_finite x = true) q ->
  nonneg (euclidean p q).
Proof.
  intros Hp Hq. apply sqrt_nonneg, fold_squares_finite.
  - apply zero_nonneg.
  - apply Forall_combine_finite; assumption.
Qed.

End Distance.

(** C5 (amended): for vectors of equal length [m] whose components are all
    finite, [distf64v] takes neither failure branch and returns the square
    root of the sum of the squared differences, a number that is not a NaN
    and not below zero; it is finite or, when the sum overflows, +infinity. *)
Theorem distf64v_finite_inputs (p q : list float) (m : nat) :
  length p = m -> length q = m ->
  Forall (fun x => is_finite x = true) p ->
  Forall (fun x => is_finite x = true) q ->
  distf64v (vec p) (vec q) m = Ret (euclidean p q) /\
  is_nan (euclidean p q) = false /\
  (euclidean p q <? 0)%float = false.
Proof.
  intros Hp Hq Fp Fq.
  destruct (euclidean_finite_nonneg p q Fp Fq) as [Hnan Hneg].
  subst m. rewrite distf64v_vec by congruence. rewrite Hnan. auto.
Qed.

Lemma distf64v_finite_inputs_witness :
  distf64v (vec [3; 0]%float) (vec [0; 4]%float) 2
    = Ret (euclidean [3; 0]%float [0; 4]%float) /\
  is_nan (euclidean [3; 0]%float [0; 4]%float) = false /\
  (euclidean [3; 0]%float [0; 4]%float <? 0)%float = false.
Proof.
  apply (distf64v_finite_inputs [3; 0]%float [0; 4]%float 2);
    [reflexivity | reflexivity | repeat constructor | repeat constructor].
Defined.

(** C5, as stated, fails: both components are finite, no failure branch is
    taken, and the distance returned is +infinity. *)
Lemma distf64v_overflow :
  is_finite 0x1p600%float = true /\ is_finite (-0x1p600)%float = true /\
  distf64v (vec [0x1p600%float]) (vec [(-0x1p600)%float]) 1 = Ret infinity /\
  is_finite infinity = false.
Proof. repeat split; vm_compute; reflexivity. Qed.

(** * Uniform random sampling *)

Section RandomKernels.

(** The scan of lines 100-105 answers whether [row] is among the first [i]
    rows chosen so far. *)
Lemma already_seen_loop (previous : array nat) (row i : nat) (seen : bool) :
  for_ 0 i (fun ri seen =>
              p <- rd previous ri ;;
              if Nat.eqb p row then Ret true else Ret seen) false = Ret seen ->
  (forall ri, ri < i -> exists p, previous !! ri = Some (Some p)) /\
  (seen = false -> forall ri, ri < i -> previous !! ri <> Some (Some row)).
Proof.
  intros H.
  apply (for_inv (fun i (s : bool) =>
           (forall ri, ri < i -> exists p, previous !! ri = Some (Some p)) /\
           (s = false -> forall ri, ri < i -> previous !! ri <> Some (Some row)))) in H.
  - exact H.
  - split; intros; lia.
  - intros ri s s' _ [Hprev Hnot] Hbody.
    bind_inv Hbody as p Hp. apply rd_Ret in Hp. split.
    + intros r Hr. destruct (decide (r = ri)) as [->|Hne]; [eauto|].
      apply Hprev. lia.
    + intros -> r Hr. destruct (Nat.eqb_spec p row) as [->|Hpr];
        [discriminate|]. inv_ret Hbody.
      destruct (decide (r = ri)) as [->|Hne]; [congruence|].
      apply Hnot; [reflexivity|lia].
Qed.

(** A draw that is accepted differs from the rows chosen before it. *)
Lemma draw_row_fresh draws n previous i row draws' :
  draw_row draws n previous i = Ret (row, draws') ->
  forall ri, ri < i -> previous !! ri <> Some (Some row).
Proof.
  revert row draws'. induction draws as [|x draws IH]; intros row draws' H;
    simpl in H; [discriminate|].
  bind_inv H as row0 Hrow0. bind_inv H as seen Hseen.
  destruct seen; simpl in H.
  - eapply IH; eassumption.
  - inv_ret H. apply already_seen_loop in Hseen as [_ Hnot]. auto.
Qed.

(** Lines 114-116: kernel [i] receives the first [m] cells of the row. *)
Lemma copy_kernel_loop (data : list (array float)) m i row ks0 ks :
  for_ 0 m (fun j kernels => x <- rd2 data row j ;; wr2 kernels i j x) ks0 = Ret ks ->
  (forall i' j, i' <> i -> rd2 ks i' j = rd2 ks0 i' j) /\
  (forall j, j < m -> exists x, rd2 data row j = Ret x /\ rd2 ks i j = Ret x).
Proof.
  intros H.
  apply (for_inv (fun j t =>
           (forall i' j', i' <> i -> rd2 t i' j' = rd2 ks0 i' j') /\
           (forall j', j' < j -> exists x, rd2 data row j' = Ret x /\ rd2 t i j' = Ret x))) in H.
  - exact H.
  - split; [auto|]. intros; lia.
  - intros j t t' _ [Hother Hdone] Hbody. bind_inv Hbody as x Hx. split.
    + intros i' j' Hne. rewrite (rd2_wr2_other _ _ _ _ _ i' j' Hbody) by auto. auto.
    + intros j' Hj'. destruct (decide (j' = j)) as [->|Hne].
      * exists x. split; [assumption|]. eapply rd2_wr2_same; eassumption.
      * destruct (Hdone j') as (x' & ? & ?); [lia|]. exists x'.
        split; [assumption|].
        rewrite (rd2_wr2_other _ _ _ _ _ i j' Hbody) by auto. assumption.
Qed.

(** What holds of [pick_random_kernels] whenever it returns: [k] different
    rows were chosen, and kernel [i] is a copy of the [i]-th of them. *)
Lemma pick_random_kernels_spec draws (data : list (array float)) n m k
    kernels previous draws' :
  pick_random_kernels draws data n m k = Ret (kernels, previous, draws') ->
  exists rows,
    previous = map Some rows /\ length rows = k /\ NoDup rows /\
    forall i j, i < k -> j < m -> exists row x,
      rows !! i = Some row /\ rd2 data row j = Ret x /\ rd2 kernels i j = Ret x.
Proof.
  intros H. unfold pick_random_kernels in H.
  apply (for_inv (fun i (s : list (array float) * array nat * list Z) =>
      let '(ks, prev, _) := s in
      exists rows,
        prev = map Some rows ++ replicate (k - i) None /\ length rows = i /\
        NoDup rows /\
        forall i' j, i' < i -> j < m -> exists row x,
          rows !! i' = Some row /\ rd2 data row j = Ret x /\ rd2 ks i' j = Ret x)) in H.
  - destruct H as (rows & Hprev & Hlen & Hnd & Hk).
    rewrite Nat.sub_diag, app_nil_r in Hprev. simpl in Hlen. eauto.
  - exists []. simpl. rewrite Nat.sub_0_r. repeat split; auto using NoDup_nil_2.
    intros; lia.
  - intros i [[ks prev] dr] [[ks' prev'] dr'] Hi (rows & Hprev & Hlen & Hnd & Hk) Hbody.
    bind_inv Hbody as [row dr1] Hdraw. bind_inv Hbody as prev1 Hwr.
    bind_inv Hbody as ks1 Hcopy. injection Hbody as <- <- <-.
    apply wr_Ret in Hwr as [_ ->]. subst prev.
    apply copy_kernel_loop in Hcopy as [Hother Hrow].
    pose proof (draw_row_fresh _ _ _ _ _ _ Hdraw) as Hfresh.
    exists (rows ++ [row]). split; [|split; [|split]].
    + rewrite map_app, <- app_assoc. simpl.
      replace (k - i) with (S (k - S i)) by lia. simpl.
      rewrite insert_app_r_alt by (rewrite length_map; lia).
      rewrite length_map, Hlen, Nat.sub_diag. reflexivity.
    + rewrite length_app. simpl. lia.
    + apply NoDup_app. split; [assumption|]. split; [|apply NoDup_singleton].
      intros r Hr Hr'. apply list_elem_of_singleton in Hr'. subst r.
      apply list_elem_of_lookup in Hr as [ri Hri].
      apply (Hfresh ri); [apply lookup_lt_Some in Hri; lia|].
      rewrite lookup_app_l by (rewrite length_map; apply lookup_lt_Some in Hri; lia).
      rewrite list_lookup_fmap, Hri. reflexivity.
    + intros i' j Hi' Hj. destruct (decide (i' = i)) as [->|Hne].
      * destruct (Hrow j Hj) as (x & Hx & Hx'). exists row, x.
        split; [|auto]. rewrite lookup_app_r by lia.
        rewrite Hlen, Nat.sub_diag. reflexivity.
      * destruct (Hk i' j) as (r & x & Hr & Hx & Hx'); [lia|assumption|].
        exists r, x. split; [rewrite lookup_app_l by lia; assumption|].
        split; [assumption|]. rewrite Hother by assumption. assumption.
Qed.

End RandomKernels.

(** C7 (the code departs from it): [rand()] may return [RAND_MAX]; the
    candidate row is then [n] itself, one past the last row, it is accepted,
    and [data_rows[n]] is read. *)
Theorem pick_random_kernels_reads_past_end :
  draw_row [RAND_MAX] 4 (malloc 2) 0 = Ret (4, []) /\
  pick_random_kernels [RAND_MAX; 0%Z] (map vec two_clusters) 4 2 2 = Undef /\
  k_means insertion_qsort_r [RAND_MAX; 0%Z] 3 2 (map vec two_clusters) 4 2 false = Undef.
Proof. repeat split; vm_compute; reflexivity. Qed.

(** * Sorting *)

Section Sorting.
Context {A : Type}.
Variable compar : A -> A -> nat -> outcome Z.
Variable arg : nat.
Implicit Types (base l : list A).

Lemma consistent_incl base base' :
  consistent compar arg base -> (forall a, In a base' -> In a base) ->
  consistent compar arg base'.
Proof.
  intros (H1 & H2 & H3) Hin. split; [|split].
  - intros a b Ha Hb. apply H1; auto.
  - intros a b c1 c2 Ha Hb. apply H2; auto.
  - intros a b c x y z Ha Hb Hc. apply H3; auto.
Qed.

Lemma ordered_by_flip base a b c :
  consistent compar arg base -> In a base -> In b base ->
  compar a b arg = Ret c -> (0 < c)%Z -> ordered_by compar arg b a.
Proof.
  intros (H1 & H2 & _) Ha Hb Hc Hpos.
  destruct (H1 b a Hb Ha) as [c' Hc'].
  exists c'. split; [assumption|].
  pose proof (H2 a b c c' Ha Hb Hc Hc') as Hs.
  destruct c, c'; simpl in *; lia.
Qed.

Lemma ordered_by_trans base a b c :
  consistent compar arg base -> In a base -> In b base -> In c base ->
  ordered_by compar arg a b -> ordered_by compar arg b c -> ordered_by compar arg a c.
Proof.
  intros (H1 & _ & H3) Ha Hb Hc (x & Hx & Hx0) (y & Hy & Hy0).
  destruct (H1 a c Ha Hc) as [z Hz]. exists z. split; [assumption|].
  eapply (H3 a b c); eassumption.
Qed.

Lemma insert_row_sorted base x l :
  consistent compar arg base -> In x base -> (forall a, In a l -> In a base) ->
  StronglySorted (ordered_by compar arg) l ->
  exists l', insert_row compar arg x l = Ret l' /\
             Permutation l' (x :: l) /\
             StronglySorted (ordered_by compar arg) l'.
Proof.
  intros Hc Hx. induction l as [|y l IH]; intros Hin Hs; simpl.
  - exists [x]. repeat split; auto. repeat constructor.
  - assert (Hy : In y base) by (apply Hin; left; reflexivity).
    destruct Hc as (H1 & H2 & H3). destruct (H1 x y Hx Hy) as [c Hxy].
    rewrite Hxy. simpl. destruct (Z.leb_spec c 0) as [Hle|Hgt].
    + exists (x :: y :: l). repeat split; auto.
      constructor; [assumption|].
      assert (Hxy' : ordered_by compar arg x y) by (exists c; auto).
      constructor; [assumption|].
      inversion Hs as [|? ? Hs' Hall]; subst.
      apply Forall_forall. intros b Hb.
      pose proof (proj1 (Forall_forall _ _) Hall b Hb) as Hyb. simpl in Hyb.
      apply (ordered_by_trans base x y b); auto.
      * split; [|split]; assumption.
      * apply Hin. right. apply list_elem_of_In. assumption.
    + inversion Hs as [|? ? Hs' Hall]; subst.
      destruct IH as (l' & Hl' & Hperm & Hsorted);
        [intros a Ha; apply Hin; right; assumption | assumption |].
      rewrite Hl'. simpl. exists (y :: l'). repeat split.
      * rewrite Hperm. apply perm_swap.
      * constructor; [assumption|].
        rewrite Hperm. constructor; [|assumption].
        apply (ordered_by_flip base x y c); auto. split; [|split]; assumption.
Qed.

Lemma insertion_sort_sorted base l :
  consistent compar arg base -> (forall a, In a l -> In a base) ->
  exists l', insertion_sort compar arg l = Ret l' /\
             Permutation l' l /\
             StronglySorted (ordered_by compar arg) l'.
Proof.
  intros Hc. induction l as [|x l IH]; intros Hin; simpl.
  - exists []. repeat split; auto. constructor.
  - destruct IH as (s & Hs & Hperm & Hsorted);
      [intros a Ha; apply Hin; right; assumption|].
    rewrite Hs. simpl.
    destruct (insert_row_sorted base x s Hc) as (l' & Hl' & Hperm' & Hsorted');
      [apply Hin; left; reflexivity | | assumption |].
    + intros a Ha. apply Hin. right.
      eapply Permutation_in; [exact Hperm|assumption].
    + exists l'. repeat split; auto.
      rewrite Hperm'. constructor. assumption.
Qed.

End Sorting.

Lemma insertion_qsort_r_contract : qsort_contract insertion_qsort_r.
Proof.
  intros A base nmemb compar arg -> Hc. unfold insertion_qsort_r.
  rewrite decide_True by lia. rewrite firstn_all, drop_all.
  destruct (insertion_sort_sorted compar arg base base Hc) as (s & Hs & Hp & Hsorted);
    [auto|].
  rewrite Hs. simpl. rewrite app_nil_r. eauto.
Qed.

(** * Percentile sampling *)

Section Percentiles.

Lemma is_finite_not_nan x : is_finite x = true -> is_nan x = false.
Proof.
  unfold is_finite. intros H. apply negb_true_iff, orb_false_iff in H. apply H.
Qed.

Lemma ltb_asym x y : (x <? y)%float = true -> (y <? x)%float = false.
Proof.
  intros H. destruct (y <? x)%float eqn:E; [|reflexivity].
  pose proof (ltb_trans _ _ _ H E) as Hxx. rewrite ltb_irrefl in Hxx. discriminate.
Qed.

Lemma cmpf64v_vec a b i x y :
  a !! i = Some x -> b !! i = Some y ->
  cmpf64v (vec a) (vec b) i
  = Ret (if (y <? x)%float then 1%Z else if (x <? y)%float then (-1)%Z else 0%Z).
Proof.
  intros Ha Hb. unfold cmpf64v.
  rewrite (rd_vec_lookup _ _ _ Ha), (rd_vec_lookup _ _ _ Hb). simpl.
  destruct (y <? x)%float, (x <? y)%float; reflexivity.
Qed.

Lemma ordered_by_cmpf64v a b i :
  ordered_by cmpf64v i (vec a) (vec b) -> not_after i a b.
Proof.
  intros (c & Hc & Hle). unfold cmpf64v in Hc.
  bind_inv Hc as x Hx. bind_inv Hc as y Hy.
  apply rd_vec in Hx, Hy. exists x, y. repeat split; try assumption.
  destruct (y <? x)%float; [|reflexivity]. inv_ret Hc. lia.
Qed.

(** On rows of finite numbers [cmpf64v] is a consistent comparison. *)
Lemma cmpf64v_consistent n m (C : list (list float)) i :
  matrix n m C -> all_finite C -> i < m ->
  consistent cmpf64v i (map vec C).
Proof.
  intros [_ Hm] Hfin Hi.
  assert (Hcell : forall r, In r (map vec C) ->
            exists a x, r = vec a /\ a !! i = Some x /\ is_nan x = false).
  { intros r Hr. apply in_map_iff in Hr as (a & <- & Ha).
    apply list_elem_of_In in Ha.
    pose proof (proj1 (Forall_forall _ _) Hm a Ha) as Hla. simpl in Hla.
    destruct (lookup_lt_is_Some_2 a i) as [x Hx]; [lia|].
    exists a, x. repeat split; try assumption.
    apply is_finite_not_nan.
    pose proof (proj1 (Forall_forall _ _) Hfin a Ha) as Hfa. simpl in Hfa.
    eapply (proj1 (Forall_lookup _ _) Hfa); eassumption. }
  split; [|split].
  - intros r1 r2 H1 H2.
    destruct (Hcell r1 H1) as (a & x & -> & Hx & _).
    destruct (Hcell r2 H2) as (b & y & -> & Hy & _).
    rewrite (cmpf64v_vec a b i x y Hx Hy). eauto.
  - intros r1 r2 c1 c2 H1 H2.
    destruct (Hcell r1 H1) as (a & x & -> & Hx & _).
    destruct (Hcell r2 H2) as (b & y & -> & Hy & _).
    rewrite (cmpf64v_vec a b i x y Hx Hy), (cmpf64v_vec b a i y x Hy Hx).
    intros E1 E2. inv_ret E1. inv_ret E2.
    destruct (y <? x)%float eqn:Eyx, (x <? y)%float eqn:Exy; try reflexivity.
    rewrite (ltb_asym _ _ Eyx) in Exy. discriminate.
  - intros r1 r2 r3 c1 c2 c3 H1 H2 H3.
    destruct (Hcell r1 H1) as (a & x & -> & Hx & _).
    destruct (Hcell r2 H2) as (b & y & -> & Hy & Hny).
    destruct (Hcell r3 H3) as (c & z & -> & Hz & _).
    rewrite (cmpf64v_vec a b i x y Hx Hy), (cmpf64v_vec b c i y z Hy Hz),
            (cmpf64v_vec a c i x z Hx Hz).
    intros E1 E2 E3. inv_ret E1. inv_ret E2. inv_ret E3.
    destruct (y <? x)%float eqn:Eyx; [lia|].
    destruct (z <? y)%float eqn:Ezy; [lia|]. intros _ _.
    destruct (z <? x)%float eqn:Ezx.
    + rewrite (ltb_le_trans z y x Hny Ezx Eyx) in Ezy. discriminate.
    + destruct (x <? z)%float; lia.
Qed.

Lemma StronglySorted_vec i (C : list (list float)) :
  StronglySorted (ordered_by cmpf64v i) (map vec C) ->
  StronglySorted (not_after i) C.
Proof.
  induction C as [|a C IH]; simpl; intros H; [constructor|].
  inversion H as [|? ? Hs Hall]; subst. constructor; [auto|].
  apply Forall_forall. intros b Hb. apply ordered_by_cmpf64v.
  apply (proj1 (Forall_forall _ _) Hall).
  apply list_elem_of_In, in_map, list_elem_of_In. assumption.
Qed.


Lemma copy_rows_vec n m D :
  matrix n m D -> copy_rows (map vec D) n m = Ret (map vec D).
Proof.
  intros HM. unfold copy_rows. apply copy_loop; [assumption|apply shaped_malloc].
Qed.


End Percentiles.

Section PercentileKernels.

Lemma matrix_perm n m C D : Permutation C D -> matrix n m D -> matrix n m C.
Proof.
  intros Hp [Hl Hm]. split.
  - rewrite (Permutation_length Hp). assumption.
  - rewrite Hp. assumption.
Qed.

Lemma all_finite_perm C D : Permutation C D -> all_finite D -> all_finite C.
Proof. unfold all_finite. intros Hp H. rewrite Hp. assumption. Qed.


End PercentileKernels.



(** The components of one kernel can come from different rows: on
    [crossed] the first kernel is [1; 10], which is no row of the dataset. *)
Lemma generate_mean_kernels_mixes_rows :
  generate_mean_kernels insertion_qsort_r (map vec crossed) 2 2 2
    = Ret [vec [1; 10]%float; vec [2; 20]%float] /\
  ~ In [1; 10]%float crossed.
Proof.
  split; [vm_compute; reflexivity|].
  intros [H|[H|[]]]; discriminate H.
Qed.

(** The pivot is the value of the double expression: the quotient 2/98 is
    rounded down, so the product with 49 stays below 1. *)
Lemma pivot_index_rounds : pivot_index 1 49 49 = Ret 0.
Proof. vm_compute. reflexivity. Qed.

(** * The assignment step *)

Section Assignment.

Lemma distf64v_not_nan p q m d : distf64v p q m = Ret d -> is_nan d = false.
Proof.
  unfold distf64v. intros H. inv_bind H.
  destruct (a <? 0)%float; [discriminate|].
  fold (is_nan (sqrt a)) in H.
  destruct (is_nan (sqrt a)) eqn:E; [discriminate|].
  inv_ret H. assumption.
Qed.

Lemma closest_nearest k m row kernels cd ck :
  0 < k ->
  closest k m row kernels = Ret (cd, ck) ->
  nearest kernels k m row cd ck.
Proof.
  intros Hk H. unfold closest in H.
  pose (I := fun (i : nat) (s : float * nat) =>
    is_nan (fst s) = false /\
    (forall j, j < i -> exists dj,
        distance_to kernels m row j dj /\
        (dj <? fst s)%float = false /\ (j < snd s -> (fst s <? dj)%float = true)) /\
    ((snd s = 0 /\ fst s = infinity) \/ (snd s < i /\ distance_to kernels m row (snd s) (fst s)))).
  apply (for_inv I) in H.
  - subst I. simpl in H. destruct H as (Hnan & Hall & Hck).
    assert (Hd : ck < k /\ distance_to kernels m row ck cd).
    { destruct Hck as [[-> ->]|[? ?]]; [|auto]. split; [exact Hk|].
      destruct (Hall 0 Hk) as (d0 & Hd0 & Hlt & _).
      assert (d0 = infinity) as ->; [|assumption].
      destruct Hd0 as (kern & _ & Hd0).
      apply not_ltb_infinity; eauto using distf64v_not_nan. }
    destruct Hd. split; [assumption|]. split; assumption.
  - subst I. simpl. split; [reflexivity|]. split; [intros j Hj; lia|]. left. auto.
  - intros i [cd0 ck0] [cd1 ck1] Hi HI Hbody. subst I. simpl in *.
    destruct HI as (Hnan & Hall & Hck).
    inv_bind Hbody. inv_bind Hbody. apply row_at_Ret in Hbody0.
    assert (Hdi : distance_to kernels m row i a0) by (exists a; auto).
    pose proof (distf64v_not_nan _ _ _ _ Hbody1) as Hnan_i.
    assert (Hck0 : ck0 <= i) by (destruct Hck as [[-> _]|[? _]]; lia).
    destruct (a0 <? cd0)%float eqn:Hlt; injection Hbody as <- <-.
    + split; [assumption|]. split; [|right; split; [lia|assumption]].
      intros j Hj. destruct (decide (j = i)) as [->|Hne].
      * exists a0. split; [assumption|]. split; [apply ltb_irrefl|lia].
      * destruct (Hall j) as (dj & Hdj & Hle & _); [lia|].
        exists dj. split; [assumption|].
        assert (Hnan_j : is_nan dj = false)
          by (destruct Hdj as (? & _ & ?); eauto using distf64v_not_nan).
        split.
        -- destruct (dj <? a0)%float eqn:E; [|reflexivity].
           rewrite (ltb_trans _ _ _ E Hlt) in Hle. discriminate.
        -- intros _. eapply ltb_le_trans; eassumption.
    + split; [assumption|]. split.
      * intros j Hj. destruct (decide (j = i)) as [->|Hne].
        -- exists a0. split; [assumption|]. split; [assumption|lia].
        -- apply Hall. lia.
      * destruct Hck as [?|[? ?]]; [left; assumption|right; split; [lia|assumption]].
Qed.

(** Lines 233-235: the row is added, cell by cell, to the sum of kernel [ck]. *)
Lemma add_row_loop m ck (row : array float) sums0 sums :
  for_ 0 m (fun vi sums =>
              s <- rd2 sums ck vi ;;
              x <- rd row vi ;;
              wr2 sums ck vi (s + x)%float) sums0 = Ret sums ->
  (forall j, j <> ck -> sums !! j = sums0 !! j) /\
  (forall vi, vi < m -> exists s x,
      rd2 sums0 ck vi = Ret s /\ rd row vi = Ret x /\
      rd2 sums ck vi = Ret (s + x)%float).
Proof.
  intros H.
  pose (I := fun (vi : nat) (t : list (array float)) =>
    (forall j, j <> ck -> t !! j = sums0 !! j) /\
    (forall v, v < vi -> exists s x,
        rd2 sums0 ck v = Ret s /\ rd row v = Ret x /\ rd2 t ck v = Ret (s + x)%float) /\
    (forall v, vi <= v -> rd2 t ck v = rd2 sums0 ck v)).
  apply (for_inv I) in H.
  - destruct H as (H1 & H2 & _). split; assumption.
  - subst I; simpl. split; [auto|]. split; [intros; lia|auto].
  - intros vi t t' Hvi HI Hbody. subst I; simpl in *.
    destruct HI as (H1 & H2 & H3).
    inv_bind Hbody. inv_bind Hbody. repeat split.
    + intros j Hj. rewrite (wr2_other_rows _ _ _ _ _ _ Hbody) by assumption. auto.
    + intros v Hv. destruct (decide (v = vi)) as [->|Hne].
      * exists a, a0. rewrite <- H3 by lia.
        repeat split; try assumption. eapply rd2_wr2_same; eassumption.
      * destruct (H2 v) as (s & x & ? & ? & ?); [lia|]. exists s, x.
        repeat split; try assumption.
        rewrite (rd2_wr2_other _ _ _ _ _ ck v Hbody) by auto. assumption.
    + intros v Hv. rewrite (rd2_wr2_other _ _ _ _ _ ck v Hbody) by (right; lia).
      apply H3. lia.
Qed.

Lemma size_add_succ c : (0 <= c < 2 ^ 64 - 1)%Z -> size_add c 1 = (c + 1)%Z.
Proof. intros H. unfold size_add, SIZE_WIDTH. apply Z.mod_small. lia. Qed.

End Assignment.



(** * The update step *)

Section Update.

(** Lines 240-246 for one kernel [ki]. *)
Lemma update_row_loop (st : state) m ki ks0 ks :
  for_ 0 m (fun vi ks =>
              c <- rd (kernel_follower_count st) ki ;;
              if (c <=? 0)%Z then Ret ks
              else
                s <- rd2 (kernel_follower_sum st) ki vi ;;
                wr2 ks ki vi (s / f64_of_size c)%float) ks0 = Ret ks ->
  (forall j, j <> ki -> ks !! j = ks0 !! j) /\
  (forall c, kernel_follower_count st !! ki = Some (Some c) ->
     ((0 < c)%Z -> forall vi, vi < m -> exists s,
         rd2 (kernel_follower_sum st) ki vi = Ret s /\
         rd2 ks ki vi = Ret (s / f64_of_size c)%float) /\
     ((c <= 0)%Z -> ks = ks0)).
Proof.
  intros H.
  pose (I := fun (vi : nat) (t : list (array float)) =>
    (forall j, j <> ki -> t !! j = ks0 !! j) /\
    (forall c, kernel_follower_count st !! ki = Some (Some c) ->
       ((0 < c)%Z -> forall v, v < vi -> exists s,
           rd2 (kernel_follower_sum st) ki v = Ret s /\
           rd2 t ki v = Ret (s / f64_of_size c)%float) /\
       ((c <= 0)%Z -> t = ks0))).
  apply (for_inv I) in H.
  - exact H.
  - subst I; simpl. split; [auto|]. intros c Hc.
    split; [intros _ v Hv; exfalso; clear -Hv; lia|auto].
  - intros vi t t' Hvi HI Hbody. subst I; simpl in *.
    destruct HI as (H1 & H2).
    bind_inv Hbody as c' Hc'. apply rd_Ret in Hc'.
    destruct (Z.leb_spec c' 0) as [Hle|Hgt].
    + inv_ret Hbody. split; [assumption|].
      intros c Hc. assert (c = c') as -> by congruence.
      destruct (H2 c' Hc) as [_ H2']. split; [lia|auto].
    + bind_inv Hbody as s Hs. split.
      * intros j Hj. rewrite (wr2_other_rows _ _ _ _ _ _ Hbody) by assumption. auto.
      * intros c Hc. assert (c = c') as -> by congruence.
        split; [|lia]. intros _ v Hv.
        destruct (decide (v = vi)) as [->|Hne].
        -- exists s. split; [assumption|]. eapply rd2_wr2_same; eassumption.
        -- destruct (H2 c' Hc) as [H2' _].
           destruct (H2' Hgt v) as (s' & ? & ?); [lia|]. exists s'.
           split; [assumption|].
           rewrite (rd2_wr2_other _ _ _ _ _ ki v Hbody) by auto. assumption.
Qed.

End Update.

(** C4: in the update step a kernel whose follower count [c] is positive
    gets, in each of its [m] dimensions, the accumulated sum of that
    dimension divided by [c]; a kernel whose count is zero keeps the very
    cells it had before the step. *)
Theorem update_kernels_spec (k m : nat) (st st' : state) :
  update_kernels k m st = Ret st' ->
  forall ki c, ki < k ->
    kernel_follower_count st !! ki = Some (Some c) ->
    ((0 < c)%Z -> forall vi, vi < m -> exists s,
        rd2 (kernel_follower_sum st) ki vi = Ret s /\
        rd2 (kernels st') ki vi = Ret (s / f64_of_size c)%float) /\
    (c = 0%Z -> kernels st' !! ki = kernels st !! ki).
Proof.
  intros H. unfold update_kernels in H.
  bind_inv H as ks Hks. inv_ret H. simpl.
  pose (J := fun (i : nat) (t : list (array float)) =>
    (forall j, i <= j -> t !! j = kernels st !! j) /\
    (forall j c, j < i -> kernel_follower_count st !! j = Some (Some c) ->
       ((0 < c)%Z -> forall vi, vi < m -> exists s,
           rd2 (kernel_follower_sum st) j vi = Ret s /\
           rd2 t j vi = Ret (s / f64_of_size c)%float) /\
       (c = 0%Z -> t !! j = kernels st !! j))).
  apply (for_inv J) in Hks.
  - intros ki c Hki Hc. apply Hks; assumption.
  - subst J; simpl. split; [auto|]. intros; lia.
  - intros i t t' Hi HJ Hbody. subst J; simpl in *.
    destruct HJ as (J1 & J2).
    apply update_row_loop in Hbody as (Hother & Hrow). split.
    + intros j Hj. rewrite Hother by lia. apply J1. lia.
    + intros j c Hj Hc. destruct (decide (j = i)) as [->|Hne].
      * destruct (Hrow c Hc) as [Hpos Hzero]. split; [assumption|].
        intros ->. rewrite Hzero by lia. apply J1. lia.
      * destruct (J2 j c) as [Hpos Hzero]; [lia|assumption|].
        split.
        -- intros Hc0 vi Hvi. destruct (Hpos Hc0 vi Hvi) as (s & ? & ?).
           exists s. split; [assumption|].
           rewrite (rd2_same_row t t') by (apply Hother; assumption). assumption.
        -- intros Hc0. rewrite Hother by assumption. auto.
Qed.

Lemma update_kernels_spec_witness :
  ((0 < 2)%Z -> forall vi, vi < 2 -> exists s,
      rd2 (kernel_follower_sum example_assigned) 1 vi = Ret s /\
      rd2 (kernels example_updated) 1 vi = Ret (s / f64_of_size 2)%float) /\
  (2%Z = 0%Z -> kernels example_updated !! 1 = kernels example_assigned !! 1).
Proof.
  apply (update_kernels_spec 2 2 example_assigned example_updated);
    [vm_compute; reflexivity | lia | reflexivity].
Defined.

(** * The loop of [k_means] *)

Section Passes.

Lemma save_prev_means_frame k m st st' :
  save_prev_means k m st = Ret st' -> exists pm, st' = set_prev_means pm st.
Proof. unfold save_prev_means. intros H. bind_inv H as pm Hpm. inv_ret H. eauto. Qed.

Lemma update_kernels_frame k m st st' :
  update_kernels k m st = Ret st' -> exists ks, st' = set_kernels ks st.
Proof. unfold update_kernels. intros H. bind_inv H as ks Hks. inv_ret H. eauto. Qed.

Lemma update_movement_frame k m st st' :
  update_movement k m st = Ret st' -> exists mv, st' = set_movement mv st.
Proof. unfold update_movement. intros H. bind_inv H as mv Hmv. inv_ret H. eauto. Qed.

Lemma reset_followers_frame k m st st' :
  reset_followers k m st = Ret st' ->
  exists cnt sums, st' = set_accumulators cnt sums st /\
                   length cnt = length (kernel_follower_count st).
Proof.
  unfold reset_followers. intros H. bind_inv H as [cnt sums] Hloop. inv_ret H.
  exists cnt, sums. split; [reflexivity|].
  apply (for_inv (fun _ (s : array Z * list (array float)) =>
                    length (fst s) = length (kernel_follower_count st))) in Hloop;
    [exact Hloop | reflexivity |].
  intros i [c s] [c' s'] _ HI Hbody. simpl in *.
  bind_inv Hbody as c1 Hc1. bind_inv Hbody as s1 Hs1. inv_ret Hbody.
  apply wr_Ret in Hc1 as [_ ->]. rewrite length_insert. assumption.
Qed.

Lemma assign_row_frame k m ri st st' :
  assign_row k m ri st = Ret st' ->
  exists ck cnt sums,
    st' = set_assignment (<[ri := Some ck]> (kernel_followers st)) cnt sums st /\
    ri < length (kernel_followers st) /\
    ck < length (kernel_follower_count st) /\
    length cnt = length (kernel_follower_count st).
Proof.
  unfold assign_row. intros H.
  bind_inv H as row Hrow. bind_inv H as [cd ck] Hnear.
  bind_inv H as fol Hfol. apply wr_Ret in Hfol as [Hri ->].
  bind_inv H as c Hc. apply rd_Ret in Hc.
  bind_inv H as cnt Hcnt. apply wr_Ret in Hcnt as [Hck ->].
  bind_inv H as sums Hsums. inv_ret H.
  exists ck, (<[ck := Some (size_add c 1)]> (kernel_follower_count st)), sums.
  rewrite length_insert. auto.
Qed.

Lemma assign_rows_post k n m st st' :
  assign_rows k n m st = Ret st' ->
  kernels st' = kernels st /\ prev_means st' = prev_means st /\
  movement st' = movement st /\ pass_post k n st st'.
Proof.
  unfold assign_rows. intros H.
  apply (for_inv (fun i t =>
           kernels t = kernels st /\ prev_means t = prev_means st /\
           movement t = movement st /\ pass_post k i st t)) in H.
  - exact H.
  - unfold pass_post. repeat split; auto. intros ri Hri. lia.
  - intros i t t' _ (Hk & Hp & Hm & Hd & Hi & Hlf & Hlc & Hass) Hbody.
    apply assign_row_frame in Hbody as (ck & cnt & sums & -> & Hri & Hck & Hlen).
    unfold pass_post. simpl. rewrite length_insert.
    repeat split; try congruence.
    intros ri Hlt. destruct (decide (ri = i)) as [->|Hne].
    + exists ck. split; [congruence|]. apply list_lookup_insert_eq. assumption.
    + rewrite list_lookup_insert_ne by congruence. apply Hass. lia.
Qed.

Lemma iteration_post k n m st st' :
  iteration k n m st = Ret st' -> pass_post k n st st'.
Proof.
  unfold iteration, assign_and_update. intros H.
  bind_inv H as s4 H4.
  bind_inv H4 as s1 H1. apply save_prev_means_frame in H1 as (pm & ->).
  bind_inv H4 as s2 H2. apply reset_followers_frame in H2 as (cnt & sums & -> & Hlen).
  bind_inv H4 as s3 H3. apply assign_rows_post in H3 as (_ & _ & _ & H3).
  apply update_kernels_frame in H4 as (ks & ->).
  apply update_movement_frame in H as (mv & ->).
  unfold pass_post in *. simpl in *.
  destruct H3 as (Hd & Hi & Hlf & Hlc & Hass).
  repeat split; try congruence.
  intros ri Hri. destruct (Hass ri Hri) as (ck & Hck & Hfol).
  exists ck. split; [congruence|assumption].
Qed.

Lemma pass_post_trans k n st st1 st2 :
  pass_post k n st st1 -> pass_post k n st1 st2 -> pass_post k n st st2.
Proof.
  unfold pass_post.
  intros (Hd & Hi & Hlf & Hlc & Hass) (Hd' & Hi' & Hlf' & Hlc' & Hass').
  repeat split; try congruence.
  intros ri Hri. destruct (Hass' ri Hri) as (ck & Hck & Hfol).
  exists ck. split; [congruence|assumption].
Qed.

(** A loop that returns either did not run at all or ran a first pass. *)
Lemma k_means_loop_Ret fuel k n m st st' :
  k_means_loop fuel k n m st = Ret st' ->
  (loop_condition st = false /\ st' = st) \/
  (loop_condition st = true /\ exists fuel' st1,
      fuel = S fuel' /\ iteration k n m st = Ret st1 /\
      k_means_loop fuel' k n m st1 = Ret st').
Proof.
  destruct fuel as [|fuel']; simpl; destruct (loop_condition st); intros H;
    try discriminate.
  - left. inv_ret H. auto.
  - right. bind_inv H as st1 H1. eauto 6.
  - left. inv_ret H. auto.
Qed.

Lemma k_means_loop_post fuel k n m st st' :
  k_means_loop fuel k n m st = Ret st' ->
  loop_condition st = true ->
  pass_post k n st st'.
Proof.
  revert st. induction fuel as [|fuel IH]; intros st H Hc.
  - simpl in H. rewrite Hc in H. discriminate.
  - apply k_means_loop_Ret in H as [[Hf _]|(_ & f & st1 & Hfuel & Hit & Hloop)];
      [congruence|].
    injection Hfuel as <-.
    apply iteration_post in Hit.
    destruct (loop_condition st1) eqn:Hc1.
    + eapply pass_post_trans; eauto.
    + apply k_means_loop_Ret in Hloop as [[_ ->]|[Ht _]]; [assumption|congruence].
Qed.

Lemma loop_condition_init data_rows kernels k n m :
  loop_condition (init_state data_rows kernels k n m) = true.
Proof. reflexivity. Qed.

Lemma k_means_run_Ret qsort_r draws fuel k data n m gen st :
  k_means_run qsort_r draws fuel k data n m gen = Ret st ->
  exists kernels0,
    init_kernels qsort_r draws data n m k gen = Ret kernels0 /\
    k_means_loop fuel k n m (init_state data kernels0 k n m) = Ret st.
Proof. unfold k_means_run. intros H. bind_inv H as ks Hks. eauto. Qed.

Lemma k_means_run_post qsort_r draws fuel k data n m gen st :
  k_means_run qsort_r draws fuel k data n m gen = Ret st ->
  data_rows st = data /\ iterations st = 0%Z /\
  length (kernel_followers st) = n /\
  forall ri, ri < n -> exists ck, ck < k /\ kernel_followers st !! ri = Some (Some ck).
Proof.
  intros H. apply k_means_run_Ret in H as (ks & _ & H).
  apply k_means_loop_post in H as (Hd & Hi & Hlf & _ & Hass);
    [|apply loop_condition_init].
  simpl in *. rewrite length_malloc in Hlf.
  repeat split; try assumption.
  intros ri Hri. destruct (Hass ri Hri) as (ck & Hck & Hfol).
  rewrite length_malloc in Hck. eauto.
Qed.

End Passes.

(** C1: every cell of the assignment block that [k_means] returns holds a
    kernel index in [0, k).  The precondition (k <= n, m >= 1, n >= 1,
    finite data) is not needed. *)
Theorem k_means_assignment_in_range
    (qsort_r : qsort_t) (draws : list Z) (fuel k : nat)
    (data : list (array float)) (n m : nat) (gen : bool) (a : array nat) :
  k_means qsort_r draws fuel k data n m gen = Ret a ->
  length a = n /\ all_assigned k a.
Proof.
  unfold k_means. intros H. bind_inv H as st Hst. inv_ret H.
  apply k_means_run_post in Hst as (_ & _ & Hlen & Hass).
  split; [assumption|].
  apply Forall_lookup_2. intros ri cell Hcell.
  destruct (Hass ri) as (ck & Hck & Hfol).
  - rewrite <- Hlen. eapply lookup_lt_Some; eassumption.
  - exists ck. split; congruence.
Qed.

Lemma k_means_assignment_in_range_witness :
  length [Some 0; Some 0; Some 1; Some 1] = 4 /\
  all_assigned 2 [Some 0; Some 0; Some 1; Some 1].
Proof.
  apply (k_means_assignment_in_range insertion_qsort_r [] 3 2
           (map vec two_clusters) 4 2 true).
  vm_compute. reflexivity.
Defined.

(** With no kernel and at least one row the call does not return: line 232
    increments [kernel_follower_count[0]] in a block of no cells. *)
Lemma k_means_needs_a_kernel qsort_r draws fuel data n m gen st :
  0 < n -> k_means_run qsort_r draws fuel 0 data n m gen <> Ret st.
Proof.
  intros Hn H. apply k_means_run_post in H as (_ & _ & _ & Hass).
  destruct (Hass 0 Hn) as (ck & Hck & _). lia.
Qed.

(** C10: a call of [k_means] that returns has run its loop body at least
    once, because the loop condition holds on entry ([movement] starts at
    [INFINITY], [iterations] at 0); hence each of the [n] cells of the
    returned block has been written. *)
Theorem k_means_runs_first_pass
    (qsort_r : qsort_t) (draws : list Z) (fuel k : nat)
    (data : list (array float)) (n m : nat) (gen : bool) (st : state) :
  k_means_run qsort_r draws fuel k data n m gen = Ret st ->
  (exists kernels0 st1 fuel',
      init_kernels qsort_r draws data n m k gen = Ret kernels0 /\
      loop_condition (init_state data kernels0 k n m) = true /\
      iteration k n m (init_state data kernels0 k n m) = Ret st1 /\
      fuel = S fuel' /\ k_means_loop fuel' k n m st1 = Ret st) /\
  length (kernel_followers st) = n /\
  Forall is_Some (kernel_followers st).
Proof.
  intros H. pose proof (k_means_run_post _ _ _ _ _ _ _ _ _ H) as (_ & _ & Hlen & Hass).
  apply k_means_run_Ret in H as (ks & Hks & H). split; [|split; [assumption|]].
  - apply k_means_loop_Ret in H as [[Hf _]|(Hc & f & st1 & -> & Hit & Hloop)].
    + rewrite loop_condition_init in Hf. discriminate.
    + exists ks, st1, f. auto.
  - apply Forall_lookup_2. intros ri cell Hcell.
    destruct (Hass ri) as (ck & _ & Hfol).
    + rewrite <- Hlen. eapply lookup_lt_Some; eassumption.
    + rewrite Hfol in Hcell. injection Hcell as <-. eexists; reflexivity.
Qed.

Lemma k_means_runs_first_pass_witness :
  (exists kernels0 st1 fuel',
      init_kernels insertion_qsort_r [] (map vec two_clusters) 4 2 2 true = Ret kernels0 /\
      loop_condition (init_state (map vec two_clusters) kernels0 2 4 2) = true /\
      iteration 2 4 2 (init_state (map vec two_clusters) kernels0 2 4 2) = Ret st1 /\
      3 = S fuel' /\ k_means_loop fuel' 2 4 2 st1 = Ret example_final) /\
  length (kernel_followers example_final) = 4 /\
  Forall is_Some (kernel_followers example_final).
Proof.
  apply (k_means_runs_first_pass insertion_qsort_r [] 3 2 (map vec two_clusters) 4 2 true).
  vm_compute. reflexivity.
Defined.

(** * The movement of a pass *)

Section Movement.


Lemma row_is_vec (r : array float) :
  Forall is_Some r -> r = vec (map (from_option id 0%float) r).
Proof.
  induction 1 as [|c r [x ->] _ IH]; simpl; [reflexivity|].
  f_equal. exact IH.
Qed.

Lemma written_is_matrix k m rows :
  shaped k m rows -> written rows ->
  exists K, rows = map vec K /\ matrix k m K.
Proof.
  intros [Hl Hs] Hw.
  exists (map (map (from_option id 0%float)) rows). split.
  - rewrite map_map. rewrite <- (map_id rows) at 1.
    apply map_ext_Forall. eapply Forall_impl; [exact Hw|].
    intros r Hr. simpl. apply row_is_vec. assumption.
  - split; [rewrite length_map; assumption|].
    apply Forall_map. eapply Forall_impl; [exact Hs|].
    intros r Hr. simpl. rewrite length_map. assumption.
Qed.







End Movement.




(** * The iteration cap *)

Section Cap.

Lemma k_means_loop_0 k n m st :
  k_means_loop 0 k n m st = if loop_condition st then Diverge else Ret st.
Proof. reflexivity. Qed.

Lemma k_means_loop_S fuel k n m st :
  k_means_loop (S fuel) k n m st
  = if loop_condition st
    then st' <- iteration k n m st ;; k_means_loop fuel k n m st'
    else Ret st.
Proof. reflexivity. Qed.

(** No pass touches [iterations]. *)
Lemma iteration_keeps_counter k n m st st' :
  iteration k n m st = Ret st' -> iterations st' = iterations st.
Proof. intros H. apply iteration_post in H. apply H. Qed.

Lemma cycle_start_step : iteration 2 4 1 cycle_start = Ret cycle_first.
Proof. vm_compute. reflexivity. Qed.

Lemma cycle_first_step : iteration 2 4 1 cycle_first = Ret cycle_even.
Proof. vm_compute. reflexivity. Qed.

Lemma cycle_even_step : iteration 2 4 1 cycle_even = Ret cycle_odd.
Proof. vm_compute. reflexivity. Qed.

Lemma cycle_odd_step : iteration 2 4 1 cycle_odd = Ret cycle_even.
Proof. vm_compute. reflexivity. Qed.

Lemma cycle_conditions :
  loop_condition cycle_start = true /\ loop_condition cycle_first = true /\
  loop_condition cycle_even = true /\ loop_condition cycle_odd = true.
Proof. repeat split; vm_compute; reflexivity. Qed.

Lemma cycle_diverges fuel :
  k_means_loop fuel 2 4 1 cycle_even = Diverge /\
  k_means_loop fuel 2 4 1 cycle_odd = Diverge.
Proof.
  destruct cycle_conditions as (_ & _ & He & Ho).
  induction fuel as [|fuel [IHe IHo]].
  - rewrite !k_means_loop_0, He, Ho. split; reflexivity.
  - rewrite !k_means_loop_S, He, Ho, cycle_even_step, cycle_odd_step.
    rewrite !bind_Ret_l. split; assumption.
Qed.

Lemma cycle_start_diverges fuel : k_means_loop fuel 2 4 1 cycle_start = Diverge.
Proof.
  destruct cycle_conditions as (Hs & Hf & _ & _).
  destruct fuel as [|[|fuel]].
  - rewrite k_means_loop_0, Hs. reflexivity.
  - rewrite k_means_loop_S, Hs, cycle_start_step, bind_Ret_l.
    rewrite k_means_loop_0, Hf. reflexivity.
  - rewrite k_means_loop_S, Hs, cycle_start_step, bind_Ret_l.
    rewrite k_means_loop_S, Hf, cycle_first_step, bind_Ret_l.
    apply cycle_diverges.
Qed.

Lemma cycle_kernels draws :
  init_kernels insertion_qsort_r draws rounding_cycle 4 1 2 true
  = Ret [vec [9007199254740981%float]; vec [9007199254740982%float]].
Proof. vm_compute. reflexivity. Qed.

End Cap.

(** C2 (the code departs from it): on [rounding_cycle] with two generated
    kernels the loop never ends, whatever the number of passes allowed;
    [iterations] is still 0 after every pass, so the test against 2500
    never becomes false. *)
Theorem k_means_cap_not_enforced :
  (forall fuel draws,
      k_means insertion_qsort_r draws fuel 2 rounding_cycle 4 1 true = Diverge) /\
  (forall k n m st st', iteration k n m st = Ret st' -> iterations st' = iterations st).
Proof.
  split; [|apply iteration_keeps_counter].
  intros fuel draws. unfold k_means, k_means_run.
  rewrite cycle_kernels, bind_Ret_l.
  fold cycle_start. rewrite cycle_start_diverges. reflexivity.
Qed.

(** * Memory that [k_means] did not allocate *)

Module MemFacts.
Import Mem.

Section Rules.
Variable base : nat.

Lemma mbind_Ret {A B} (c : M A) (f : A -> M B) h b h' :
  mbind c f h = Ret (b, h') ->
  exists a h1, c h = Ret (a, h1) /\ f a h1 = Ret (b, h').
Proof.
  unfold mbind. destruct (c h) as [[a h1]| | |]; intros H; try discriminate. eauto.
Qed.

Lemma safe_ret {A} (a : A) (Q : A -> Prop) : Q a -> safe base (ret a) Q.
Proof.
  intros HQ h a' h' Hlen Hf H. unfold ret in H. injection H as <- <-.
  repeat split; auto; intros b Hb; reflexivity.
Qed.

Lemma safe_lift {A} (o : outcome A) (Q : A -> Prop) :
  (forall a, Q a) -> safe base (lift o) Q.
Proof.
  intros HQ h a h' Hlen Hf H. unfold lift in H.
  destruct o; try discriminate. injection H as <- <-.
  repeat split; auto; intros b Hb; reflexivity.
Qed.

Lemma safe_stuck {A} (o : outcome A) (Q : A -> Prop) :
  (forall a, o <> Ret a) -> safe base (lift o) Q.
Proof.
  intros Ho h a h' _ _ H. unfold lift in H.
  destruct o as [a'| | |]; try discriminate. destruct (Ho a' eq_refl).
Qed.

Lemma safe_bind {A B} (c : M A) (f : A -> M B) (Q : A -> Prop) (R : B -> Prop) :
  safe base c Q -> (forall a, Q a -> safe base (f a) R) -> safe base (mbind c f) R.
Proof.
  intros Hc Hf h b h' Hlen Hfr H.
  apply mbind_Ret in H as (a & h1 & H1 & H2).
  destruct (Hc h a h1 Hlen Hfr H1) as (Hlen1 & Hfr1 & Hk1 & HQ).
  destruct (Hf a HQ h1 b h' Hlen1 Hfr1 H2) as (Hlen2 & Hfr2 & Hk2 & HR).
  repeat split; auto. intros x Hx. rewrite Hk2, Hk1; auto.
Qed.

Lemma safe_for {St} (body : nat -> St -> M St) (I : St -> Prop) i n s :
  I s -> (forall j t, I t -> safe base (body j t) I) -> safe base (mfor i n body s) I.
Proof.
  intros Hs Hbody. revert i s Hs. induction n as [|n IH]; intros i s Hs; simpl.
  - apply safe_ret. assumption.
  - eapply safe_bind; [apply Hbody; assumption|]. intros t Ht. apply IH. assumption.
Qed.

Lemma safe_malloc n (Q : nat -> Prop) :
  (forall a, base <= a -> Q a) -> safe base (malloc n) Q.
Proof.
  intros HQ h a h' Hlen Hfr H. unfold malloc in H. injection H as <- <-.
  split; [rewrite length_app; lia|]. split; [|split; [|auto]].
  - intros b blk p Hb Hblk Hin.
    destruct (decide (b < length h)) as [Hlt|Hge].
    + rewrite lookup_app_l in Hblk by assumption. eapply Hfr; eassumption.
    + rewrite lookup_app_r in Hblk by lia.
      destruct (b - length h) as [|d]; simpl in Hblk; [|discriminate].
      injection Hblk as <-.
      apply list_elem_of_In, elem_of_replicate in Hin as [? _]. discriminate.
  - intros b Hb. apply lookup_app_l. lia.
Qed.

Lemma load_Ret a i h c h' :
  load a i h = Ret (c, h') ->
  h' = h /\ exists blk, h !! a = Some blk /\ blk !! i = Some c.
Proof.
  unfold load. destruct (h !! a) as [blk|]; [|discriminate].
  destruct (blk !! i) as [c'|] eqn:E; [|discriminate].
  intros H. injection H as <- <-. eauto.
Qed.

Lemma safe_load a i (Q : cell -> Prop) :
  (forall c, (forall p, base <= a -> c = Ptr p -> base <= p) -> Q c) ->
  safe base (load a i) Q.
Proof.
  intros HQ h c h' Hlen Hfr H. apply load_Ret in H as (-> & blk & Hblk & Hc).
  split; [assumption|]. split; [assumption|]. split; [intros b Hb; reflexivity|].
  apply HQ. intros p Ha ->. eapply Hfr; [exact Ha|exact Hblk|].
  apply list_elem_of_In. eapply list_elem_of_lookup_2. eassumption.
Qed.

Lemma safe_load_dbl a i (Q : float -> Prop) :
  (forall x, Q x) -> safe base (load_dbl a i) Q.
Proof.
  intros HQ. unfold load_dbl. eapply safe_bind; [apply safe_load; intros c _; exact I|].
  intros [|x|p|z] _; try (apply safe_stuck; discriminate). apply safe_ret. auto.
Qed.

Lemma safe_load_size a i (Q : Z -> Prop) :
  (forall z, Q z) -> safe base (load_size a i) Q.
Proof.
  intros HQ. unfold load_size. eapply safe_bind; [apply safe_load; intros c _; exact I|].
  intros [|x|p|z] _; try (apply safe_stuck; discriminate). apply safe_ret. auto.
Qed.

Lemma safe_load_ptr a i (Q : nat -> Prop) :
  (forall p, (base <= a -> base <= p) -> Q p) -> safe base (load_ptr a i) Q.
Proof.
  intros HQ. unfold load_ptr.
  eapply safe_bind; [apply safe_load; intros c Hc; exact Hc|].
  intros [|x|p|z] Hc; try (apply safe_stuck; discriminate).
  apply safe_ret. apply HQ. intros Ha. eapply Hc; eauto.
Qed.

Lemma In_insert {A} (l : list A) i x y : In y (<[i := x]> l) -> y = x \/ In y l.
Proof.
  revert i. induction l as [|z l IH]; intros [|i]; simpl; auto.
  - intros [->|H]; auto.
  - intros [->|H]; auto. destruct (IH i H); auto.
Qed.

Lemma safe_store a i c (Q : unit -> Prop) :
  base <= a -> (forall p, c = Ptr p -> base <= p) -> Q tt ->
  safe base (store a i c) Q.
Proof.
  intros Ha Hc HQ h u h' Hlen Hfr H. unfold store in H.
  destruct (h !! a) as [blk|] eqn:Hblk; [|discriminate].
  destruct (decide (i < length blk)); [|discriminate].
  injection H as <- <-. split; [rewrite length_insert; assumption|].
  split; [|split; [|assumption]].
  - intros b blk' p Hb Hblk' Hin.
    destruct (decide (b = a)) as [->|Hne].
    + rewrite list_lookup_insert_eq in Hblk' by (eapply lookup_lt_Some; eassumption).
      injection Hblk' as <-. apply In_insert in Hin as [Heq|Hin]; [auto|].
      eapply Hfr; eassumption.
    + rewrite list_lookup_insert_ne in Hblk' by congruence. eapply Hfr; eassumption.
  - intros b Hb. apply list_lookup_insert_ne. lia.
Qed.

Lemma safe_qsort_r sort blk n compar arg (Q : unit -> Prop) :
  rearranges sort -> base <= blk -> Q tt ->
  safe base (qsort_r sort blk n compar arg) Q.
Proof.
  intros Hsort Hblk HQ h u h' Hlen Hfr H. unfold qsort_r in H.
  destruct (h !! blk) as [cells|] eqn:Hcells; [|discriminate].
  destruct (decide (n <= length cells)); [|discriminate].
  match type of H with match ?s with _ => _ end = _ => destruct s as [sorted| | |] eqn:Hs end;
    try discriminate.
  injection H as <- <-. apply Hsort in Hs.
  split; [rewrite length_insert; assumption|]. split; [|split; [|assumption]].
  - intros b blk' p Hb Hblk' Hin.
    destruct (decide (b = blk)) as [->|Hne].
    + rewrite list_lookup_insert_eq in Hblk' by (eapply lookup_lt_Some; eassumption).
      injection Hblk' as <-. eapply Hfr; [exact Hblk|exact Hcells|].
      rewrite <- (take_drop n cells). apply in_app_iff.
      apply in_app_iff in Hin as [Hin|Hin]; [left|right; assumption].
      eapply Permutation_in; eassumption.
    + rewrite list_lookup_insert_ne in Hblk' by congruence. eapply Hfr; eassumption.
  - intros b Hb. apply list_lookup_insert_ne. lia.
Qed.

Lemma safe_weaken {A} (c : M A) (Q Q' : A -> Prop) :
  safe base c Q -> (forall a, Q a -> Q' a) -> safe base c Q'.
Proof.
  intros Hc HQ h a h' Hlen Hfr H.
  destruct (Hc h a h' Hlen Hfr H) as (? & ? & ? & ?). auto.
Qed.

End Rules.

(** The rules applied along the syntax of a computation. *)
Ltac fresh_side :=
  first [ assumption
        | match goal with H : _ -> ?b <= ?p |- ?b <= ?p => apply H; assumption end
        | lia ].

Ltac safe_auto :=
  lazymatch goal with
  | |- safe ?b (mbind ?c ?f) ?R =>
      lazymatch c with
      | malloc _ => eapply safe_bind; [safe_auto | intros ? ?; cbv beta in *; safe_auto]
      | load_ptr _ _ => eapply safe_bind; [safe_auto | intros ? ?; cbv beta in *; safe_auto]
      | _ =>
          first [ eapply safe_bind; [solve [eauto with safe] | intros ? ?; cbv beta in *; safe_auto]
                | apply (safe_bind b c f (fun _ => True) R);
                  [safe_auto | intros ? _; safe_auto] ]
      end
  | |- safe _ (ret _) _ => apply safe_ret; first [exact I | fresh_side]
  | |- safe _ (lift _) _ => apply safe_lift; intros; exact I
  | |- safe _ (malloc _) _ =>
      apply safe_malloc; let H := fresh in intros ? H; first [exact H | exact I]
  | |- safe _ (load_dbl _ _) _ => apply safe_load_dbl; intros; exact I
  | |- safe _ (load_size _ _) _ => apply safe_load_size; intros; exact I
  | |- safe _ (load_ptr _ _) _ =>
      apply safe_load_ptr; let H := fresh in intros ? H; first [exact H | exact I]
  | |- safe _ (store _ _ _) _ =>
      apply safe_store;
      [ fresh_side
      | let E := fresh in intros ? E; first [discriminate E | injection E as <-; fresh_side]
      | exact I ]
  | |- safe ?b (mfor _ _ ?body _) _ =>
      apply (safe_for b body (fun _ => True)); [exact I | intros ? ? _; safe_auto]
  | |- safe _ (if ?c then _ else _) _ => destruct c; safe_auto
  | |- safe _ (match ?x with pair _ _ => _ end) _ => destruct x; safe_auto
  | |- safe _ (let _ := _ in _) _ => cbv zeta; safe_auto
  | |- safe _ _ _ =>
      eapply safe_weaken; [solve [eauto with safe] | intros; first [exact I | fresh_side]]
  end.

Create HintDb safe.

Section Functions.
Variable base : nat.

Lemma safe_cmpf64v a b dim : safe base (cmpf64v a b dim) (fun _ => True).
Proof. unfold cmpf64v. safe_auto. Qed.

Lemma safe_distf64v p q m : safe base (distf64v p q m) (fun _ => True).
Proof. unfold distf64v. safe_auto. Qed.

Lemma safe_alloc_rows k m : safe base (alloc_rows k m) (fun a => base <= a).
Proof. unfold alloc_rows. safe_auto. Qed.

Lemma safe_draw_row draws n previous i :
  safe base (draw_row draws n previous i) (fun _ => True).
Proof.
  induction draws as [|x draws IH]; simpl; [apply safe_stuck; discriminate|].
  eapply safe_bind; [safe_auto|]. intros row _.
  eapply safe_bind; [safe_auto|]. intros seen _.
  destruct (negb seen); [safe_auto|exact IH].
Qed.

#[local] Hint Resolve safe_cmpf64v safe_distf64v safe_alloc_rows safe_draw_row : safe.

Lemma safe_pick_random_kernels draws data_rows n m k :
  safe base (pick_random_kernels draws data_rows n m k) (fun r => base <= fst r).
Proof. unfold pick_random_kernels. safe_auto. Qed.

Lemma safe_generate_mean_kernels sort data_rows n m k :
  rearranges sort ->
  safe base (generate_mean_kernels sort data_rows n m k) (fun a => base <= a).
Proof.
  intros Hsort. unfold generate_mean_kernels.
  pose proof (fun blk n cmp arg Hb =>
                safe_qsort_r base sort blk n cmp arg (fun _ => True) Hsort Hb I) as Hq.
  safe_auto.
Qed.

#[local] Hint Resolve safe_pick_random_kernels : safe.

Lemma safe_iteration v data_rows k n m :
  base <= kernels v -> base <= kernel_followers v ->
  base <= kernel_follower_count v -> base <= kernel_follower_sum v ->
  base <= prev_means v ->
  safe base (iteration v data_rows k n m) (fun _ => True).
Proof. intros Hk Hf Hc Hs Hp. unfold iteration. safe_auto. Qed.

Lemma safe_k_means_loop fuel v data_rows k n m movement iterations :
  base <= kernels v -> base <= kernel_followers v ->
  base <= kernel_follower_count v -> base <= kernel_follower_sum v ->
  base <= prev_means v ->
  safe base (k_means_loop fuel v data_rows k n m movement iterations) (fun _ => True).
Proof.
  intros Hk Hf Hc Hs Hp. revert movement.
  induction fuel as [|fuel IH]; intros movement; simpl;
    destruct (_ && _); try (apply safe_ret; exact I).
  - apply safe_stuck. discriminate.
  - eapply safe_bind; [apply safe_iteration; assumption|]. intros mv _. apply IH.
Qed.

Lemma safe_k_means sort draws fuel k data_rows n m generate_kernels :
  rearranges sort ->
  safe base (k_means sort draws fuel k data_rows n m generate_kernels)
       (fun a => base <= a).
Proof.
  intros Hsort. unfold k_means.
  pose proof (safe_generate_mean_kernels sort data_rows n m k Hsort) as Hgen.
  assert (Hloop : forall v, base <= kernels v -> base <= kernel_followers v ->
            base <= kernel_follower_count v -> base <= kernel_follower_sum v ->
            base <= prev_means v ->
            safe base (k_means_loop fuel v data_rows k n m INFINITY 0) (fun _ => True))
    by (intros; apply safe_k_means_loop; assumption).
  eapply safe_bind.
  - destruct generate_kernels; [exact Hgen|]. safe_auto.
  - intros kernels Hk. cbv beta in Hk.
    eapply safe_bind; [safe_auto|]. intros followers Hf.
    eapply safe_bind; [safe_auto|]. intros count Hc.
    eapply safe_bind; [safe_auto|]. intros sum Hs.
    eapply safe_bind; [safe_auto|]. intros prev Hp. cbv beta in *.
    eapply (safe_bind _ _ _ (fun _ => True)); [safe_auto|]. intros _ _.
    eapply (safe_bind _ _ _ (fun _ => True)); [apply Hloop; assumption|].
    intros _ _. apply safe_ret. assumption.
Qed.

End Functions.

End MemFacts.

Lemma insert_row_perm {A} (compar : A -> A -> nat -> outcome Z) arg x l l' :
  insert_row compar arg x l = Ret l' -> Permutation l' (x :: l).
Proof.
  revert l'. induction l as [|y l IH]; intros l' H; simpl in H.
  - inv_ret H. reflexivity.
  - bind_inv H as c Hc. destruct (c <=? 0)%Z.
    + inv_ret H. reflexivity.
    + bind_inv H as l'' Hl''. inv_ret H. rewrite (IH _ Hl''). apply perm_swap.
Qed.

Lemma insertion_sort_perm {A} (compar : A -> A -> nat -> outcome Z) arg l l' :
  insertion_sort compar arg l = Ret l' -> Permutation l' l.
Proof.
  revert l'. induction l as [|x l IH]; intros l' H; simpl in H.
  - inv_ret H. reflexivity.
  - bind_inv H as s Hs. apply insert_row_perm in H. rewrite H, (IH _ Hs). reflexivity.
Qed.

Lemma insertion_qsort_r_rearranges : Mem.rearranges insertion_qsort_r.
Proof.
  intros A base nmemb compar arg sorted H. unfold insertion_qsort_r in H.
  destruct (decide (nmemb <= length base)); [|discriminate].
  bind_inv H as s Hs. inv_ret H. apply insertion_sort_perm in Hs.
  rewrite Hs. rewrite take_drop. reflexivity.
Qed.

(** C9: whatever the initialization strategy, a call of [k_means] that
    returns has left every block that existed before the call as it was, so
    every [data_rows[r][c]] still has the value it had at the call; the
    block it returns is a new one.  [qsort_r] is taken to return its input
    rearranged. *)
Theorem k_means_keeps_callers_memory
    (sort : qsort_t) (draws : list Z) (fuel k data_rows n m : nat) (gen : bool)
    (h h' : list (list Mem.cell)) (followers : nat) :
  Mem.rearranges sort ->
  Mem.k_means sort draws fuel k data_rows n m gen h = Ret (followers, h') ->
  (forall b, b < length h -> h' !! b = h !! b) /\
  (forall r c x, Mem.element h data_rows r c = Some x ->
                 Mem.element h' data_rows r c = Some x) /\
  length h <= followers.
Proof.
  intros Hsort H.
  destruct (MemFacts.safe_k_means (length h) sort draws fuel k data_rows n m gen Hsort
              h followers h') as (_ & _ & Hkept & Hfol); [lia| |assumption|].
  { intros b blk a Hb Hblk _. apply lookup_lt_Some in Hblk. lia. }
  split; [exact Hkept|]. split; [|exact Hfol].
  intros r c x. unfold Mem.element.
  destruct (h !! data_rows) as [blk|] eqn:Hblk; [|discriminate].
  rewrite (Hkept data_rows) by (eapply lookup_lt_Some; eassumption). rewrite Hblk.
  destruct (blk !! r) as [[| |row|]|]; try discriminate.
  destruct (h !! row) as [cells|] eqn:Hcells; [|discriminate].
  rewrite (Hkept row) by (eapply lookup_lt_Some; eassumption). rewrite Hcells.
  auto.
Qed.

Lemma k_means_keeps_callers_memory_witness :
  (forall b, b < length (Mem.heap_of two_clusters) ->
             example_heap_after !! b = Mem.heap_of two_clusters !! b) /\
  (forall r c x, Mem.element (Mem.heap_of two_clusters) 0 r c = Some x ->
                 Mem.element example_heap_after 0 r c = Some x) /\
  length (Mem.heap_of two_clusters) <= 14.
Proof.
  apply (k_means_keeps_callers_memory insertion_qsort_r [] 3 2 0 4 2 true).
  - apply insertion_qsort_r_rearranges.
  - vm_compute. reflexivity.
Defined.

(** On the example the two translations agree: the block returned holds
    the assignment that [k_means] computes. *)
Lemma mem_example_agrees :
  example_heap_after !! 14 = Some [Mem.Size 0; Mem.Size 0; Mem.Size 1; Mem.Size 1] /\
  k_means insertion_qsort_r [] 3 2 (map vec two_clusters) 4 2 true
    = Ret [Some 0; Some 0; Some 1; Some 1].
Proof. split; vm_compute; reflexivity. Qed.

(** * The comparison and the distance on arbitrary numbers *)

Section SquaredDifferences.
Local Open Scope Z_scope.

Lemma binary_round_aux_opp s m e l :
  binary_round_aux prec emax (negb s) m e l = SFopp (binary_round_aux prec emax s m e l).
Proof.
  unfold binary_round_aux.
  destruct (shr_fexp prec emax m e l) as [mrs' e'].
  destruct (shr_fexp prec emax _ e' loc_Exact) as [mrs'' e''].
  destruct (shr_m mrs''); try reflexivity.
  destruct (e'' <=? emax - prec); reflexivity.
Qed.

Lemma binary_round_opp s m e :
  binary_round prec emax (negb s) m e = SFopp (binary_round prec emax s m e).
Proof.
  unfold binary_round. destruct (shl_align _ _ _) as [mz ez].
  apply binary_round_aux_opp.
Qed.

Lemma binary_normalize_opp z e :
  z <> 0 ->
  binary_normalize prec emax (- z) e false = SFopp (binary_normalize prec emax z e false).
Proof.
  destruct z as [|p|p]; intros H; [congruence| |]; simpl.
  - apply (binary_round_opp false).
  - rewrite <- (binary_round_opp true). reflexivity.
Qed.

Lemma SFmul_opp_opp x : SF64mul (SFopp x) (SFopp x) = SF64mul x x.
Proof. destruct x as [[]|[]| |[] m e]; reflexivity. Qed.

Lemma SFsub_swap x y :
  SF64sub y x = SFopp (SF64sub x y) \/ SF64sub y x = SF64sub x y.
Proof.
  unfold SF64sub.
  destruct x as [sx|sx| |sx mx ex], y as [sy|sy| |sy my ey]; unfold SFsub;
    try (first [ left; reflexivity | right; reflexivity
               | destruct sx, sy; first [left; reflexivity | right; reflexivity] ]).
  rewrite (Z.min_comm ey ex). cbv zeta.
    set (a := cond_Zopp sx _). set (b := cond_Zopp sy _).
    destruct (Z.eq_dec (a - b) 0) as [E|E].
  - right. replace (b - a) with 0 by lia. rewrite E. reflexivity.
  - left. replace (b - a) with (- (a - b)) by lia.
    apply binary_normalize_opp. assumption.
Qed.

End SquaredDifferences.

Section DistanceFacts.
Local Open Scope float_scope.

Lemma square_sub_swap x y : (x - y) * (x - y) = (y - x) * (y - x).
Proof.
  apply Prim2SF_inj. rewrite !FloatAxioms.mul_spec, !FloatAxioms.sub_spec.
  destruct (SFsub_swap (Prim2SF x) (Prim2SF y)) as [E|E]; rewrite E; [|reflexivity].
  symmetry. apply SFmul_opp_opp.
Qed.



End DistanceFacts.

Section DistanceTheorems.
Local Open Scope float_scope.





End DistanceTheorems.

(** X1: [cmpf64v] answers with opposite signs when its two rows are
    swapped, for all contents of the compared cells, NaN included. *)
Theorem cmpf64v_sign_flips (a b : array float) (dim : nat) (c : Z) :
  cmpf64v a b dim = Ret c -> cmpf64v b a dim = Ret (- c)%Z.
Proof.
  unfold cmpf64v. intros H. bind_inv H as x Hx. bind_inv H as y Hy.
  rewrite Hy, Hx. simpl.
  destruct (y <? x)%float eqn:Eyx.
  - inv_ret H. rewrite (ltb_asym _ _ Eyx). reflexivity.
  - destruct (x <? y)%float; inv_ret H; reflexivity.
Qed.

Lemma cmpf64v_sign_flips_witness :
  cmpf64v (vec [2; 10]%float) (vec [1; 20]%float) 1 = Ret (- 1)%Z.
Proof.
  apply (cmpf64v_sign_flips (vec [1; 20]%float) (vec [2; 10]%float) 1 1).
  reflexivity.
Defined.

(** X2: when either compared cell holds a NaN, [cmpf64v] answers 0: a NaN
    ties with every number, so the comparison is no order on such rows. *)
Theorem cmpf64v_nan_ties (a b : array float) (dim : nat) (x y : float) :
  rd a dim = Ret x -> rd b dim = Ret y ->
  is_nan x = true \/ is_nan y = true ->
  cmpf64v a b dim = Ret 0%Z.
Proof.
  intros Hx Hy Hn. unfold cmpf64v. rewrite Hx, Hy. simpl.
  destruct Hn as [Hn|Hn].
  - rewrite (ltb_nan_l x y Hn).
    destruct (y <? x)%float eqn:E; [|reflexivity].
    rewrite FloatAxioms.ltb_spec in E. apply is_nan_true in Hn. rewrite Hn in E.
    destruct (Prim2SF y); discriminate.
  - rewrite (ltb_nan_l y x Hn).
    destruct (x <? y)%float eqn:E; [|reflexivity].
    rewrite FloatAxioms.ltb_spec in E. apply is_nan_true in Hn. rewrite Hn in E.
    destruct (Prim2SF x); discriminate.
Qed.

Lemma cmpf64v_nan_ties_witness :
  cmpf64v (vec [nan]) (vec [1%float]) 0 = Ret 0%Z /\
  cmpf64v (vec [nan]) (vec [2%float]) 0 = Ret 0%Z /\
  cmpf64v (vec [1%float]) (vec [2%float]) 0 = Ret (-1)%Z.
Proof.
  split; [|split].
  - apply (cmpf64v_nan_ties (vec [nan]) (vec [1%float]) 0 nan 1%float);
      [reflexivity | reflexivity | left; reflexivity].
  - apply (cmpf64v_nan_ties (vec [nan]) (vec [2%float]) 0 nan 2%float);
      [reflexivity | reflexivity | left; reflexivity].
  - reflexivity.
Defined.

(** X3: on rows whose cell [dim] holds a number (no NaN), [cmpf64v] is a
    comparison [qsort_r] can sort with: it answers on every pair, its sign
    flips when the rows are swapped, and "not after" is transitive. *)
Theorem cmpf64v_orders_numbers (rows : list (list float)) (dim : nat) :
  Forall (fun r => exists x, r !! dim = Some x /\ is_nan x = false) rows ->
  consistent cmpf64v dim (map vec rows).
Proof.
  intros Hrows.
  assert (Hcell : forall r, In r (map vec rows) ->
            exists a x, r = vec a /\ a !! dim = Some x /\ is_nan x = false).
  { intros r Hr. apply in_map_iff in Hr as (a & <- & Ha).
    apply list_elem_of_In in Ha.
    destruct (proj1 (Forall_forall _ _) Hrows a Ha) as (x & Hx & Hn). eauto. }
  split; [|split].
  - intros r1 r2 H1 H2.
    destruct (Hcell r1 H1) as (a & x & -> & Hx & _).
    destruct (Hcell r2 H2) as (b & y & -> & Hy & _).
    rewrite (cmpf64v_vec a b dim x y Hx Hy). eauto.
  - intros r1 r2 c1 c2 _ _ E1 E2.
    apply cmpf64v_sign_flips in E1. rewrite E1 in E2. inv_ret E2.
    rewrite Z.sgn_opp. lia.
  - intros r1 r2 r3 c1 c2 c3 H1 H2 H3.
    destruct (Hcell r1 H1) as (a & x & -> & Hx & _).
    destruct (Hcell r2 H2) as (b & y & -> & Hy & Hny).
    destruct (Hcell r3 H3) as (c & z & -> & Hz & _).
    rewrite (cmpf64v_vec a b dim x y Hx Hy), (cmpf64v_vec b c dim y z Hy Hz),
            (cmpf64v_vec a c dim x z Hx Hz).
    intros E1 E2 E3. inv_ret E1. inv_ret E2. inv_ret E3.
    destruct (y <? x)%float eqn:Eyx; [lia|].
    destruct (z <? y)%float eqn:Ezy; [lia|]. intros _ _.
    destruct (z <? x)%float eqn:Ezx.
    + rewrite (ltb_le_trans z y x Hny Ezx Eyx) in Ezy. discriminate.
    + destruct (x <? z)%float; lia.
Qed.

Lemma cmpf64v_orders_numbers_witness :
  consistent cmpf64v 1 (map vec [[1; infinity]; [2; 10]; [3; neg_infinity]]%float).
Proof.
  apply (cmpf64v_orders_numbers [[1; infinity]; [2; 10]; [3; neg_infinity]]%float 1).
  repeat constructor; eexists; (split; [reflexivity|reflexivity]).
Defined.



(** X5: [distf64v] does not depend on the order of its two vectors: the
    outcome for [(p, q)] is the outcome for [(q, p)], bit for bit. *)
Theorem distf64v_symmetric (p q : array float) (m : nat) :
  distf64v p q m = distf64v q p m.
Proof.
  unfold distf64v. f_equal.
  apply for_ext. intros i sum _.
  unfold rd. destruct (p !! i) as [[x|]|], (q !! i) as [[y|]|]; simpl; try reflexivity.
  rewrite (square_sub_swap x y). reflexivity.
Qed.


(** * The initial kernels *)

Section InitialKernels.

(** A loop whose body returns or runs into undefined behaviour does the
    same as a whole. *)
Lemma for_cases {St} (I : nat -> St -> Prop) body lo n (s : St) :
  I lo s ->
  (forall i t, lo <= i < lo + n -> I i t ->
     body i t = Undef \/ exists t', body i t = Ret t' /\ I (S i) t') ->
  for_ lo n body s = Undef \/ exists s', for_ lo n body s = Ret s' /\ I (lo + n) s'.
Proof.
  revert lo s. induction n as [|n IH]; intros lo s H0 Hstep; simpl.
  - right. exists s. rewrite Nat.add_0_r. auto.
  - destruct (Hstep lo s) as [Hb|(t' & Hb & Ht')]; [lia | assumption | |];
      rewrite Hb; simpl; [left; reflexivity|].
    destruct (IH (S lo) t') as [Hu|(s' & Hs' & HI)]; auto.
    + intros i t Hi. apply Hstep. lia.
    + right. exists s'. split; auto. rewrite Nat.add_succ_r. exact HI.
Qed.

Lemma cells_written k m (rows : list (array float)) :
  shaped k m rows ->
  (forall i j, i < k -> j < m -> exists x, rd2 rows i j = Ret x) ->
  written rows.
Proof.
  intros [Hl Hs] Hcells. apply Forall_lookup. intros i r Hr.
  apply Forall_lookup. intros j c Hc.
  pose proof (proj1 (Forall_lookup _ _) Hs i r Hr) as Hlr. simpl in Hlr.
  destruct (Hcells i j) as (x & Hx).
  - apply lookup_lt_Some in Hr. lia.
  - apply lookup_lt_Some in Hc. lia.
  - apply rd2_Ret in Hx as (r' & Hr' & Hx). exists x. congruence.
Qed.

Lemma pick_random_kernels_shaped draws (data : list (array float)) n m k
    kernels previous draws' :
  pick_random_kernels draws data n m k = Ret (kernels, previous, draws') ->
  shaped k m kernels.
Proof.
  intros H. unfold pick_random_kernels in H.
  apply (for_inv (fun _ (s : list (array float) * array nat * list Z) =>
                    shaped k m (fst (fst s)))) in H.
  - exact H.
  - apply shaped_malloc.
  - intros i [[ks prev] dr] [[ks' prev'] dr'] _ Hs Hbody. simpl in *.
    bind_inv Hbody as [row dr1] Hdraw. bind_inv Hbody as prev1 Hwr.
    bind_inv Hbody as ks1 Hcopy. injection Hbody as <- <- <-.
    apply (for_inv (fun _ t => shaped k m t)) in Hcopy; [exact Hcopy|exact Hs|].
    intros j t t' _ Ht Hb. bind_inv Hb as x Hx. eapply wr2_shaped; eassumption.
Qed.

(** The first pivot is row 0, whatever [k] and [n] are. *)
Lemma pivot_index_first k n p : pivot_index 0 k n = Ret p -> p = 0.
Proof.
  unfold pivot_index. cbv zeta.
  change (2 * f64_of_size (Z.of_nat 0))%float with 0%float.
  set (b := (f64_of_size (Z.of_nat k) * 2)%float).
  set (n' := f64_of_size (Z.of_nat n)).
  unfold size_of_f64.
  rewrite FloatAxioms.mul_spec, FloatAxioms.div_spec.
  change (Prim2SF 0) with (S754_zero false).
  destruct (Prim2SF b) as [sb|sb| |sb mb eb], (Prim2SF n') as [sn|sn| |sn mn en];
    simpl; intros H; try discriminate; inv_ret H; reflexivity.
Qed.

Lemma make_pivots_Ret n k pivots :
  make_pivots n k = Ret pivots ->
  forall j, j < k -> exists p, pivot_index j k n = Ret p /\ pivots !! j = Some (Some p).
Proof.
  unfold make_pivots. intros H.
  refine (for_inv (fun i (pv : array nat) =>
            forall j, j < i -> exists p,
              pivot_index j k n = Ret p /\ pv !! j = Some (Some p)) _ 0 k _ _ H _ _).
  - intros j Hj. lia.
  - intros i pv pv' _ Hprev Hbody. bind_inv Hbody as p Hp.
    apply wr_Ret in Hbody as [Hi ->]. intros j Hj.
    destruct (decide (j = i)) as [->|Hne].
    + exists p. split; [assumption|]. apply list_lookup_insert_eq. assumption.
    + destruct (Hprev j) as (p' & ? & ?); [lia|]. exists p'. split; [assumption|].
      rewrite list_lookup_insert_ne by congruence. assumption.
Qed.

Lemma make_pivots_cases n k :
  make_pivots n k = Undef \/
  exists pivots, make_pivots n k = Ret pivots /\ length pivots = k.
Proof.
  unfold make_pivots.
  destruct (for_cases (fun _ (pv : array nat) => length pv = k)
              (fun i pivots => p <- pivot_index i k n ;; wr pivots i p) 0 k (malloc k))
    as [H|(pv & H & Hl)]; [| |left; exact H|right; eauto].
  - apply length_malloc.
  - intros i pv Hi Hl. unfold pivot_index, size_of_f64. cbv zeta.
    destruct (Prim2SF _) as [s|s| |s mx ex]; simpl; auto.
    + right. unfold wr. rewrite decide_True by lia. eexists. split; [reflexivity|].
      rewrite length_insert. assumption.
    + destruct s.
      * destruct (Z.shiftl (Z.pos mx) ex =? 0)%Z; simpl; auto.
        right. unfold wr. rewrite decide_True by lia. eexists. split; [reflexivity|].
        rewrite length_insert. assumption.
      * destruct (Z.shiftl (Z.pos mx) ex <? 2 ^ SIZE_WIDTH)%Z; simpl; auto.
        right. unfold wr. rewrite decide_True by lia. eexists. split; [reflexivity|].
        rewrite length_insert. assumption.
Qed.

(** Lines 163-166 for one dimension [i], when the loop runs to its end. *)
Lemma read_pivots_Ret k m i (C : list (list float)) (pivots : array nat) ks0 ks :
  shaped k m ks0 ->
  for_ 0 k (fun j kernels =>
              pivot <- rd pivots j ;;
              x <- rd2 (map vec C) pivot i ;;
              wr2 kernels j i x) ks0 = Ret ks ->
  shaped k m ks /\
  (forall j i', i' <> i -> rd2 ks j i' = rd2 ks0 j i') /\
  (forall j, j < k -> exists p r x,
      pivots !! j = Some (Some p) /\ C !! p = Some r /\ r !! i = Some x /\
      rd2 ks j i = Ret x).
Proof.
  intros Hs0 H.
  apply (for_inv (fun j t => shaped k m t /\
           (forall j' i', i' <> i -> rd2 t j' i' = rd2 ks0 j' i') /\
           (forall j', j' < j -> exists p r x,
               pivots !! j' = Some (Some p) /\ C !! p = Some r /\ r !! i = Some x /\
               rd2 t j' i = Ret x))) in H.
  - exact H.
  - split; [assumption|]. split; [auto|]. intros j' Hj'. lia.
  - intros j t t' _ (Hs & Hother & Hdone) Hbody.
    bind_inv Hbody as p Hp. apply rd_Ret in Hp.
    bind_inv Hbody as x Hx. apply rd2_Ret in Hx as (r' & Hr' & Hx).
    rewrite list_lookup_fmap in Hr'.
    destruct (C !! p) as [r|] eqn:Hr; [|discriminate]. simpl in Hr'.
    injection Hr' as <-. unfold vec in Hx. rewrite list_lookup_fmap in Hx.
    destruct (r !! i) as [x'|] eqn:Hri; [|discriminate]. simpl in Hx.
    assert (x' = x) by congruence. subst x'.
    split; [eapply wr2_shaped; eassumption|]. split.
    + intros j' i' Hne. rewrite (rd2_wr2_other _ _ _ _ _ j' i' Hbody) by auto.
      apply Hother. assumption.
    + intros j' Hj'. destruct (decide (j' = j)) as [->|Hne].
      * exists p, r, x. repeat split; try assumption.
        eapply rd2_wr2_same; eassumption.
      * destruct (Hdone j') as (p' & r0 & x' & ? & ? & ? & ?); [lia|].
        exists p', r0, x'. repeat split; try assumption.
        rewrite (rd2_wr2_other _ _ _ _ _ j' i Hbody) by auto. assumption.
Qed.

End InitialKernels.



(** X7: when [pick_random_kernels] returns, it has chosen [k] different
    rows, every cell of its [k] kernels of [m] cells has been written, and
    kernel [i] holds the first [m] values of the [i]-th chosen row. *)
Theorem pick_random_kernels_copies_rows
    (draws : list Z) (data : list (array float)) (n m k : nat)
    (kernels : list (array float)) (previous : array nat) (draws' : list Z) :
  pick_random_kernels draws data n m k = Ret (kernels, previous, draws') ->
  exists rows K,
    previous = map Some rows /\ length rows = k /\ NoDup rows /\
    kernels = map vec K /\ matrix k m K /\
    forall i j, i < k -> j < m -> exists row x,
      rows !! i = Some row /\ rd2 data row j = Ret x /\ rd2 kernels i j = Ret x.
Proof.
  intros H.
  pose proof (pick_random_kernels_shaped _ _ _ _ _ _ _ _ H) as Hs.
  apply pick_random_kernels_spec in H as (rows & Hprev & Hlen & Hnd & Hcells).
  destruct (written_is_matrix k m kernels Hs) as (K & HK & HM).
  { apply (cells_written k m); [assumption|]. intros i j Hi Hj.
    destruct (Hcells i j Hi Hj) as (row & x & _ & _ & Hx). eauto. }
  exists rows, K. auto 10.
Qed.

Lemma pick_random_kernels_copies_rows_witness :
  exists rows K,
    [Some 0; Some 2] = map Some rows /\ length rows = 2 /\ NoDup rows /\
    map vec [[0; 0]; [10; 10]]%float = map vec K /\ matrix 2 2 K /\
    forall i j, i < 2 -> j < 2 -> exists row x,
      rows !! i = Some row /\ rd2 (map vec two_clusters) row j = Ret x /\
      rd2 (map vec [[0; 0]; [10; 10]]%float) i j = Ret x.
Proof.
  apply (pick_random_kernels_copies_rows [0%Z; 1073741824%Z] (map vec two_clusters)
           4 2 2 _ _ []).
  vm_compute. reflexivity.
Defined.

(** X8: with more kernels asked for than there are rows, and at least one
    column, [pick_random_kernels] never returns: every accepted row is read,
    so it is one of the [n] rows, and the rows accepted are all different. *)
Theorem pick_random_kernels_needs_enough_rows
    (draws : list Z) (data : list (array float)) (n m k : nat) :
  0 < m -> length data <= n -> n < k ->
  returns (pick_random_kernels draws data n m k) = false.
Proof.
  intros Hm Hdata Hk.
  destruct (pick_random_kernels draws data n m k) as [[[ks prev] dr]| | |] eqn:H;
    try reflexivity. exfalso.
  apply pick_random_kernels_spec in H as (rows & _ & Hlen & Hnd & Hcells).
  assert (Hincl : incl rows (seq 0 n)).
  { intros row Hrow. apply list_elem_of_In, list_elem_of_lookup in Hrow as [i Hi].
    destruct (Hcells i 0) as (row' & x & Hrow' & Hx & _);
      [apply lookup_lt_Some in Hi; lia | assumption |].
    assert (row' = row) by congruence. subst row'.
    apply rd2_Ret in Hx as (r & Hr & _). apply lookup_lt_Some in Hr.
    apply in_seq. lia. }
  pose proof (NoDup_incl_length (proj1 (NoDup_ListNoDup _) Hnd) Hincl) as Hle.
  rewrite length_seq in Hle. lia.
Qed.

Lemma pick_random_kernels_needs_enough_rows_witness :
  returns (pick_random_kernels [0%Z; 1073741824%Z] (map vec two_clusters) 4 2 5)
  = false.
Proof.
  apply (pick_random_kernels_needs_enough_rows _ (map vec two_clusters) 4 2 5);
    simpl; lia.
Defined.

(** X9: when [generate_mean_kernels] returns on a dataset of finite
    numbers, with [qsort_r] honouring its contract and [k] at least 1, kernel
    0 is the minimum of the dataset column by column: its first pivot is
    row 0 of each sorted copy. *)
Theorem generate_mean_kernels_first_is_minimum
    (qsort_r : qsort_t) (D : list (list float)) (n m k : nat)
    (kernels : list (array float)) :
  qsort_contract qsort_r -> matrix n m D -> all_finite D -> 0 < k ->
  generate_mean_kernels qsort_r (map vec D) n m k = Ret kernels ->
  forall i, i < m -> column_minimum D i kernels.
Proof.
  intros Hq HM Hfin Hk H. unfold generate_mean_kernels in H.
  rewrite (copy_rows_vec n m D HM), bind_Ret_l in H.
  bind_inv H as pivots Hpv. bind_inv H as [cp ks] Hloop. inv_ret H.
  destruct (make_pivots_Ret _ _ _ Hpv 0 Hk) as (p0 & Hp0 & Hpiv0).
  apply pivot_index_first in Hp0. subst p0.
  apply (for_inv (fun i (s : list (array float) * list (array float)) =>
           (exists C, fst s = map vec C /\ Permutation C D) /\
           shaped k m (snd s) /\
           forall i', i' < i -> column_minimum D i' (snd s))) in Hloop.
  - apply Hloop.
  - simpl. split; [exists D; auto|]. split; [apply shaped_malloc|].
    intros i' Hi'. lia.
  - intros i [cp0 ks0] [cp1 ks1] Hi ((C & HC & HCD) & Hs & Hcols) Hbody.
    simpl in HC, Hs, Hcols. subst cp0.
    pose proof (matrix_perm n m C D HCD HM) as HMC.
    pose proof (all_finite_perm C D HCD Hfin) as HfC.
    destruct (Hq _ (map vec C) n cmpf64v i) as (sorted & Hsort & Hperm & Hsorted).
    { rewrite length_map. destruct HMC. congruence. }
    { eapply cmpf64v_consistent; try eassumption. lia. }
    rewrite Hsort, bind_Ret_l in Hbody.
    apply Permutation_map_inv in Hperm as (C' & -> & HCC').
    assert (HC'D : Permutation C' D) by (rewrite <- HCC'; assumption).
    bind_inv Hbody as ks' Hread. injection Hbody as <- <-.
    apply read_pivots_Ret with (m := m) in Hread as (Hs' & Hother & Hdone);
      [|assumption].
    simpl. split; [exists C'; auto|]. split; [assumption|].
    intros i' Hi'. destruct (decide (i' = i)) as [->|Hne].
    + destruct (Hdone 0 Hk) as (p & r & x & Hp & Hr & Hx & Hrd).
      assert (p = 0) by congruence. subst p.
      apply StronglySorted_vec in Hsorted.
      destruct C' as [|r' C'']; [discriminate|]. injection Hr as ->.
      inversion Hsorted as [|? ? _ Hall]; subst.
      exists x. split; [assumption|]. split.
      * exists r. split; [|assumption].
        apply (Permutation_in r HC'D). left. reflexivity.
      * intros r0 Hr0. apply (Permutation_in r0 (Permutation_sym HC'D)) in Hr0.
        destruct Hr0 as [<-|Hr0].
        -- exists x. split; [assumption|]. apply ltb_irrefl.
        -- apply list_elem_of_In in Hr0.
           destruct (proj1 (Forall_forall _ _) Hall r0 Hr0) as (x0 & y & Hx0 & Hy & Hlt).
           exists y. split; [assumption|]. congruence.
    + destruct (Hcols i') as (x & Hx & Hrest); [lia|].
      exists x. split; [|assumption]. rewrite Hother by assumption. assumption.
Qed.

Lemma generate_mean_kernels_first_is_minimum_witness :
  column_minimum crossed 0 [vec [1; 10]%float; vec [2; 20]%float] /\
  column_minimum crossed 1 [vec [1; 10]%float; vec [2; 20]%float].
Proof.
  assert (H : forall i, i < 2 ->
            column_minimum crossed i [vec [1; 10]%float; vec [2; 20]%float]).
  { apply (generate_mean_kernels_first_is_minimum insertion_qsort_r crossed 2 2 2).
    - apply insertion_qsort_r_contract.
    - split; [reflexivity|repeat constructor].
    - repeat constructor.
    - lia.
    - vm_compute. reflexivity. }
  split; apply H; lia.
Defined.

(** X10: on a dataset of no rows, with at least one kernel and one
    column, [generate_mean_kernels] reads [data_rows_copy[pivot]] in a block
    of no rows, or fails earlier to compute a pivot: its behaviour is
    undefined. *)
Theorem generate_mean_kernels_no_rows
    (qsort_r : qsort_t) (data : list (array float)) (m k : nat) :
  qsort_contract qsort_r -> 0 < m -> 0 < k ->
  generate_mean_kernels qsort_r data 0 m k = Undef.
Proof.
  intros Hq Hm Hk. unfold generate_mean_kernels.
  change (copy_rows data 0 m) with (Ret ([] : list (array float))).
  rewrite bind_Ret_l.
  destruct (make_pivots_cases 0 k) as [->|(pv & -> & Hl)]; [reflexivity|].
  rewrite bind_Ret_l.
  destruct m as [|m']; [lia|]. destruct k as [|k']; [lia|].
  cbn [for_].
  destruct (Hq (array float) [] 0 cmpf64v 0) as (sorted & Hsort & Hperm & _).
  { reflexivity. }
  { split; [|split]; intros; exfalso; auto. }
  apply Permutation_sym, Permutation_nil in Hperm. subst sorted.
  rewrite Hsort, !bind_Ret_l. cbn [for_].
  unfold rd at 1. destruct (pv !! 0) as [[p|]|]; reflexivity.
Qed.

Lemma generate_mean_kernels_no_rows_witness :
  generate_mean_kernels insertion_qsort_r [] 0 2 2 = Undef.
Proof.
  apply (generate_mean_kernels_no_rows insertion_qsort_r [] 2 2);
    [apply insertion_qsort_r_contract | lia | lia].
Defined.

(** * What holds when [k_means] returns *)

Section Convergence.

Lemma SFcompare_swap x y : SFcompare y x = option_map CompOpp (SFcompare x y).
Proof.
  destruct x as [[]|[]| |[] m1 e1], y as [[]|[]| |[] m2 e2]; simpl; try reflexivity;
    f_equal; rewrite (Z.compare_antisym e1 e2); destruct (e1 ?= e2)%Z; simpl;
    try reflexivity; rewrite (Pos.compare_cont_antisym m1 m2 Eq); reflexivity.
Qed.

Lemma leb_false_ltb x y :
  is_nan x = false -> is_nan y = false ->
  (x <=? y)%float = false -> (y <? x)%float = true.
Proof.
  rewrite !is_nan_false, FloatAxioms.leb_spec, FloatAxioms.ltb_spec.
  unfold SFleb, SFltb. rewrite (SFcompare_swap (Prim2SF x) (Prim2SF y)).
  intros Hx Hy.
  destruct (SFcompare (Prim2SF x) (Prim2SF y)) as [[]|] eqn:E; simpl;
    try discriminate; try reflexivity.
  destruct (Prim2SF x), (Prim2SF y); simpl in E; congruence.
Qed.

Lemma update_movement_not_nan k m st st' :
  update_movement k m st = Ret st' -> is_nan (movement st') = false.
Proof.
  unfold update_movement. intros H. bind_inv H as mv Hmv. inv_ret H. simpl.
  apply (for_inv (fun _ acc => is_nan acc = false)) in Hmv; [exact Hmv|reflexivity|].
  intros i acc acc' _ _ Hbody.
  bind_inv Hbody as p Hp. bind_inv Hbody as q Hq. bind_inv Hbody as d Hd.
  cbv zeta in Hbody.
  destruct (negb (acc + d =? acc + d)%float) eqn:E; [discriminate|].
  inv_ret Hbody. exact E.
Qed.

Lemma k_means_loop_exit fuel k n m st0 st :
  k_means_loop fuel k n m st0 = Ret st ->
  loop_condition st = false /\
  (loop_condition st0 = true -> exists s, update_movement k m s = Ret st).
Proof.
  revert st0. induction fuel as [|fuel IH]; intros st0 H.
  - apply k_means_loop_Ret in H as [[Hc ->]|(_ & f & st1 & Hfuel & _)];
      [|discriminate]. split; [assumption|congruence].
  - apply k_means_loop_Ret in H as [[Hc ->]|(_ & f & st1 & Hfuel & Hit & Hloop)];
      [split; [assumption|congruence]|].
    injection Hfuel as <-. destruct (IH st1 Hloop) as [Hc Hex]. split; [assumption|].
    intros _. destruct (loop_condition st1) eqn:Hc1; [auto|].
    apply k_means_loop_Ret in Hloop as [[_ ->]|[Ht _]]; [|congruence].
    unfold iteration in Hit. bind_inv Hit as s4 H4. eauto.
Qed.

End Convergence.

(** X11: [k_means] returns only from a pass that moved the kernels by
    less than [DBL_EPSILON] in total: on return the movement is a number
    (a NaN is a failure) below [DBL_EPSILON], and [iterations] is still 0. *)
Theorem k_means_returns_converged
    (qsort_r : qsort_t) (draws : list Z) (fuel k : nat)
    (data : list (array float)) (n m : nat) (gen : bool) (st : state) :
  k_means_run qsort_r draws fuel k data n m gen = Ret st ->
  iterations st = 0%Z /\ is_nan (movement st) = false /\
  (movement st <? DBL_EPSILON)%float = true.
Proof.
  intros H.
  pose proof (k_means_run_post _ _ _ _ _ _ _ _ _ H) as (_ & Hit & _).
  apply k_means_run_Ret in H as (ks & _ & H).
  apply k_means_loop_exit in H as [Hc Hex].
  destruct (Hex (loop_condition_init _ _ _ _ _)) as (s & Hs).
  apply update_movement_not_nan in Hs.
  split; [assumption|]. split; [assumption|].
  unfold loop_condition in Hc. rewrite Hit in Hc.
  apply andb_false_iff in Hc as [Hc|Hc]; [|discriminate].
  apply leb_false_ltb; [reflexivity|assumption|assumption].
Qed.

Lemma k_means_returns_converged_witness :
  iterations example_final = 0%Z /\ is_nan (movement example_final) = false /\
  (movement example_final <? DBL_EPSILON)%float = true.
Proof.
  apply (k_means_returns_converged insertion_qsort_r [] 3 2
           (map vec two_clusters) 4 2 true).
  vm_compute. reflexivity.
Defined.

(** X12: with no kernel ([k = 0], which [main] does not forbid) and at
    least one row, [k_means] never returns: line 232 increments
    [kernel_follower_count[0]] in a block of no cells. *)
Theorem k_means_without_kernels
    (qsort_r : qsort_t) (draws : list Z) (fuel : nat)
    (data : list (array float)) (n m : nat) (gen : bool) :
  0 < n -> returns (k_means qsort_r draws fuel 0 data n m gen) = false.
Proof.
  intros Hn. unfold k_means.
  destruct (k_means_run qsort_r draws fuel 0 data n m gen) as [st| | |] eqn:H;
    try reflexivity.
  exfalso. exact (k_means_needs_a_kernel _ _ _ _ _ _ _ _ Hn H).
Qed.

Lemma k_means_without_kernels_witness :
  returns (k_means insertion_qsort_r [] 3 0 (map vec two_clusters) 4 2 true) = false.
Proof.
  apply (k_means_without_kernels insertion_qsort_r [] 3 (map vec two_clusters) 4 2 true).
  lia.
Defined.

(** * The kernels as means of their followers *)

Section Means.

Lemma combine_snoc {A B} (a : list A) (D : list B) c d :
  D !! length a = Some d -> combine (a ++ [c]) D = combine a D ++ [(c, d)].
Proof.
  revert D. induction a as [|x a IH]; intros [|y D] H; simpl in *; try discriminate.
  - injection H as ->. reflexivity.
  - rewrite IH by assumption. reflexivity.
Qed.

Lemma followers_of_snoc a D c d j :
  D !! length a = Some d ->
  followers_of (a ++ [c]) D j
  = followers_of a D j ++ (if Nat.eqb c j then [d] else []).
Proof.
  intros H. unfold followers_of. rewrite (combine_snoc a D c d H).
  rewrite List.filter_app, map_app. simpl. destruct (Nat.eqb c j); reflexivity.
Qed.

Lemma followers_of_length a D j : length (followers_of a D j) <= length a.
Proof.
  unfold followers_of. rewrite length_map.
  etransitivity; [apply List.filter_length_le|].
  rewrite length_combine. lia.
Qed.

Lemma column_sum_snoc rows d vi :
  column_sum (rows ++ [d]) vi = (column_sum rows vi + nth vi d 0)%float.
Proof. unfold column_sum. rewrite fold_left_app. reflexivity. Qed.

(** Lines 212-217: the counts and the sums of the [k] kernels are zero. *)
Lemma reset_followers_zero k m st st' :
  reset_followers k m st = Ret st' ->
  exists cnt sums, st' = set_accumulators cnt sums st /\
    forall j, j < k ->
      cnt !! j = Some (Some 0%Z) /\
      forall vi, vi < m -> rd2 sums j vi = Ret 0%float.
Proof.
  unfold reset_followers. intros H. bind_inv H as [cnt sums] Hloop. inv_ret H.
  exists cnt, sums. split; [reflexivity|].
  refine (for_inv (fun i (s : array Z * list (array float)) =>
            forall j, j < i ->
              fst s !! j = Some (Some 0%Z) /\
              forall vi, vi < m -> rd2 (snd s) j vi = Ret 0%float)
            _ 0 k _ _ Hloop _ _).
  - intros j Hj. lia.
  - intros i [c s] [c' s'] Hi HI Hbody. simpl in *.
    bind_inv Hbody as c1 Hc1. bind_inv Hbody as s1 Hs1. injection Hbody as <- <-.
    apply wr_Ret in Hc1 as [Hlt ->].
    assert (Hrow : (forall j, j <> i -> s1 !! j = s !! j) /\
                   (forall vi, vi < m -> rd2 s1 i vi = Ret 0%float)).
    { refine (for_inv (fun v (t : list (array float)) =>
                (forall j, j <> i -> t !! j = s !! j) /\
                (forall vi, vi < v -> rd2 t i vi = Ret 0%float))
                _ 0 m _ _ Hs1 _ _).
      - split; [auto|]. intros; lia.
      - intros v t t' _ [H1 H2] Hb. split.
        + intros j Hj. rewrite (wr2_other_rows _ _ _ _ _ _ Hb) by assumption. auto.
        + intros vi Hvi. destruct (decide (vi = v)) as [->|Hne].
          * eapply rd2_wr2_same; eassumption.
          * rewrite (rd2_wr2_other _ _ _ _ _ i vi Hb) by auto. apply H2. lia. }
    destruct Hrow as [Hother Hzero].
    intros j Hj. destruct (decide (j = i)) as [->|Hne].
    + split; [apply list_lookup_insert_eq; assumption|assumption].
    + destruct (HI j) as [Hc Hs]; [lia|]. split.
      * rewrite list_lookup_insert_ne by congruence. assumption.
      * intros vi Hvi. rewrite (rd2_same_row s s1) by (apply Hother; assumption).
        apply Hs. assumption.
Qed.

(** Lines 219-236: after the rows are assigned, the count of a kernel is
    the number of its followers and its sum is their sum. *)
Lemma assign_rows_accumulates k n m st st' (D : list (list float)) :
  data_rows st = map vec D -> length (kernel_followers st) = n ->
  (Z.of_nat n < 2 ^ 64)%Z ->
  (forall j, j < k ->
     kernel_follower_count st !! j = Some (Some 0%Z) /\
     forall vi, vi < m -> rd2 (kernel_follower_sum st) j vi = Ret 0%float) ->
  assign_rows k n m st = Ret st' ->
  exists a, kernel_followers st' = map Some a /\ length a = n /\
    forall j, j < k ->
      kernel_follower_count st' !! j
        = Some (Some (Z.of_nat (length (followers_of a D j)))) /\
      forall vi, vi < m ->
        rd2 (kernel_follower_sum st') j vi = Ret (column_sum (followers_of a D j) vi).
Proof.
  intros HD Hlen Hn Hzero H. unfold assign_rows in H.
  apply (for_inv (fun i t =>
           data_rows t = map vec D /\ length (kernel_followers t) = n /\
           exists a, take i (kernel_followers t) = map Some a /\ length a = i /\
             forall j, j < k ->
               kernel_follower_count t !! j
                 = Some (Some (Z.of_nat (length (followers_of a D j)))) /\
               forall vi, vi < m ->
                 rd2 (kernel_follower_sum t) j vi
                 = Ret (column_sum (followers_of a D j) vi))) in H.
  - destruct H as (_ & Hl & a & Ha & Hla & Hk). simpl in Ha, Hla.
    rewrite take_ge in Ha by lia. eauto.
  - split; [assumption|]. split; [assumption|]. exists [].
    split; [apply take_0|]. split; [reflexivity|].
    intros j Hj. exact (Hzero j Hj).
  - intros i t t' Hi (HDt & Hlt & a & Ha & Hla & Hk) Hbody.
    unfold assign_row in Hbody.
    bind_inv Hbody as row Hrow. apply row_at_Ret in Hrow.
    rewrite HDt, list_lookup_fmap in Hrow.
    destruct (D !! i) as [d|] eqn:Hd; [|discriminate]. injection Hrow as <-.
    bind_inv Hbody as [cd ck] Hnear.
    bind_inv Hbody as fol Hfol. apply wr_Ret in Hfol as [Hri ->].
    bind_inv Hbody as c Hc. apply rd_Ret in Hc.
    bind_inv Hbody as cnt Hcnt. apply wr_Ret in Hcnt as [Hck ->].
    bind_inv Hbody as sums Hsums. apply add_row_loop in Hsums as [Hother Hsum].
    inv_ret Hbody. simpl.
    split; [assumption|]. split; [rewrite length_insert; assumption|].
    exists (a ++ [ck]). split; [|split].
    + rewrite (take_S_r _ _ (Some ck)) by (apply list_lookup_insert_eq; assumption).
      rewrite take_insert_ge by lia. rewrite Ha, map_app. reflexivity.
    + rewrite length_app. simpl. lia.
    + intros j Hj. destruct (Hk j Hj) as [Hcj Hsj].
      rewrite (followers_of_snoc a D ck d j) by assumption.
      destruct (Nat.eqb_spec ck j) as [->|Hne].
      * rewrite length_app. simpl. split.
        -- rewrite list_lookup_insert_eq by assumption.
           assert (c = Z.of_nat (length (followers_of a D j))) by congruence.
           subst c. pose proof (followers_of_length a D j).
           rewrite size_add_succ by lia. do 2 f_equal. lia.
        -- intros vi Hvi. destruct (Hsum vi Hvi) as (s & x & Hs & Hx & Hs').
           rewrite Hs'. rewrite (Hsj vi Hvi) in Hs. injection Hs as <-.
           apply rd_vec in Hx. rewrite column_sum_snoc.
           rewrite (nth_lookup_Some _ _ _ _ Hx). reflexivity.
      * rewrite app_nil_r. split.
        -- rewrite list_lookup_insert_ne by congruence. assumption.
        -- intros vi Hvi. rewrite (rd2_same_row (kernel_follower_sum t) sums)
             by (apply Hother; congruence). apply Hsj. assumption.
Qed.

(** Lines 239-247 for the kernels that have followers. *)
Lemma update_kernels_divides k m st st' :
  update_kernels k m st = Ret st' ->
  forall ki c, ki < k -> kernel_follower_count st !! ki = Some (Some c) ->
    (0 < c)%Z -> forall vi, vi < m -> exists s,
      rd2 (kernel_follower_sum st) ki vi = Ret s /\
      rd2 (kernels st') ki vi = Ret (s / f64_of_size c)%float.
Proof.
  intros H. unfold update_kernels in H.
  bind_inv H as ks Hks. inv_ret H. simpl.
  refine (for_inv (fun i (t : list (array float)) =>
            forall j c, j < i -> kernel_follower_count st !! j = Some (Some c) ->
              (0 < c)%Z -> forall vi, vi < m -> exists s,
                rd2 (kernel_follower_sum st) j vi = Ret s /\
                rd2 t j vi = Ret (s / f64_of_size c)%float)
            _ 0 k _ _ Hks _ _).
  - intros; lia.
  - intros i t t' Hi HJ Hbody.
    apply update_row_loop in Hbody as (Hother & Hrow).
    intros j c Hj Hc Hpos vi Hvi. destruct (decide (j = i)) as [->|Hne].
    + destruct (Hrow c Hc) as [Hdiv _]. apply Hdiv; assumption.
    + destruct (HJ j c) with (vi := vi) as (s & ? & ?); try assumption; [lia|].
      exists s. split; [assumption|].
      rewrite (rd2_same_row t t') by (apply Hother; assumption). assumption.
Qed.

End Means.

(** X13: one pass, lines 207-247, on [n] rows (a [size_t], so below 2^64)
    leaves in [kernel_follower_count[j]] the number of rows assigned to
    kernel [j] and in [kernel_follower_sum[j]] their sum, added cell by cell
    in row order from [0.0]; a kernel that has followers is moved to that
    sum divided by that number. *)
Theorem kernels_move_to_means
    (k n m : nat) (st st' : state) (D : list (list float)) :
  data_rows st = map vec D ->
  length (kernel_followers st) = n -> (Z.of_nat n < 2 ^ 64)%Z ->
  assign_and_update k n m st = Ret st' ->
  exists a, kernel_followers st' = map Some a /\ length a = n /\
    forall j, j < k ->
      kernel_follower_count st' !! j
        = Some (Some (Z.of_nat (length (followers_of a D j)))) /\
      forall vi, vi < m ->
        rd2 (kernel_follower_sum st') j vi = Ret (column_sum (followers_of a D j) vi) /\
        (followers_of a D j <> [] ->
         rd2 (kernels st') j vi
         = Ret (column_sum (followers_of a D j) vi
                / f64_of_size (Z.of_nat (length (followers_of a D j))))%float).
Proof.
  intros HD Hlen Hn H. unfold assign_and_update in H.
  bind_inv H as s1 H1. apply save_prev_means_frame in H1 as (pm & ->).
  bind_inv H as s2 H2. apply reset_followers_zero in H2 as (cnt & sums & -> & Hzero).
  bind_inv H as s3 H3.
  apply (assign_rows_accumulates k n m _ s3 D) in H3 as (a & Ha & Hla & Hacc);
    try assumption.
  pose proof (update_kernels_divides _ _ _ _ H) as Hdiv.
  apply update_kernels_frame in H as (ks & ->). simpl in *.
  exists a. split; [assumption|]. split; [assumption|].
  intros j Hj. destruct (Hacc j Hj) as [Hc Hs]. split; [assumption|].
  intros vi Hvi. split; [apply Hs; assumption|].
  intros Hne.
  destruct (Hdiv j _ Hj Hc) with (vi := vi) as (s & Hs1 & Hs2); [|assumption|].
  - destruct (followers_of a D j); [congruence|]. simpl. lia.
  - rewrite (Hs vi Hvi) in Hs1. injection Hs1 as <-. assumption.
Qed.

Lemma kernels_move_to_means_witness :
  exists a, kernel_followers example_updated = map Some a /\ length a = 4 /\
    forall j, j < 2 ->
      kernel_follower_count example_updated !! j
        = Some (Some (Z.of_nat (length (followers_of a two_clusters j)))) /\
      forall vi, vi < 2 ->
        rd2 (kernel_follower_sum example_updated) j vi
          = Ret (column_sum (followers_of a two_clusters j) vi) /\
        (followers_of a two_clusters j <> [] ->
         rd2 (kernels example_updated) j vi
         = Ret (column_sum (followers_of a two_clusters j) vi
                / f64_of_size (Z.of_nat (length (followers_of a two_clusters j))))%float).
Proof.
  apply (kernels_move_to_means 2 4 2 example_entry example_updated two_clusters).
  - reflexivity.
  - reflexivity.
  - vm_compute. reflexivity.
  - vm_compute. reflexivity.
Defined.

(** * The assignment that [k_means] returns *)

Section Postcondition.

Lemma generate_mean_kernels_written qsort_r (data : list (array float)) n m k ks :
  generate_mean_kernels qsort_r data n m k = Ret ks ->
  shaped k m ks /\ written ks.
Proof.
  unfold generate_mean_kernels. intros H.
  bind_inv H as cp Hcp. bind_inv H as pivots Hpv. bind_inv H as [cp' ks'] Hloop.
  inv_ret H.
  apply (for_inv (fun i (s : list (array float) * list (array float)) =>
           shaped k m (snd s) /\
           forall j i', j < k -> i' < i -> exists x, rd2 (snd s) j i' = Ret x)) in Hloop.
  - simpl in Hloop. destruct Hloop as [Hs Hcells]. split; [assumption|].
    apply (cells_written k m); assumption.
  - simpl. split; [apply shaped_malloc|]. intros; lia.
  - intros i [c0 k0] [c1 k1] Hi [Hs Hcells] Hbody. simpl in *.
    bind_inv Hbody as sorted Hsort. bind_inv Hbody as k2 Hread.
    injection Hbody as <- <-.
    apply (for_inv (fun j t => shaped k m t /\
             (forall j' i', i' <> i -> rd2 t j' i' = rd2 k0 j' i') /\
             (forall j', j' < j -> exists x, rd2 t j' i = Ret x))) in Hread.
    + destruct Hread as (Hs' & Hother & Hdone). split; [assumption|].
      intros j i' Hj Hi'. destruct (decide (i' = i)) as [->|Hne]; [auto|].
      rewrite Hother by assumption. apply Hcells; [assumption|lia].
    + split; [assumption|]. split; [auto|]. intros; lia.
    + intros j t t' _ (Ht & Hother & Hdone) Hb.
      bind_inv Hb as p Hp. bind_inv Hb as x Hx.
      split; [eapply wr2_shaped; eassumption|]. split.
      * intros j' i' Hne. rewrite (rd2_wr2_other _ _ _ _ _ j' i' Hb) by auto.
        apply Hother. assumption.
      * intros j' Hj'. destruct (decide (j' = j)) as [->|Hne].
        -- exists x. eapply rd2_wr2_same; eassumption.
        -- destruct (Hdone j') as (x' & Hx'); [lia|]. exists x'.
           rewrite (rd2_wr2_other _ _ _ _ _ j' i Hb) by auto. assumption.
Qed.

(** Both initializers hand over [k] kernels of [m] written cells. *)
Lemma init_kernels_written qsort_r draws (data : list (array float)) n m k gen ks :
  init_kernels qsort_r draws data n m k gen = Ret ks ->
  exists P, ks = map vec P /\ matrix k m P.
Proof.
  unfold init_kernels. destruct gen; intros H.
  - apply generate_mean_kernels_written in H as [Hs Hw].
    apply written_is_matrix; assumption.
  - bind_inv H as [[ks' prev] dr] Hpick. inv_ret H.
    pose proof (pick_random_kernels_shaped _ _ _ _ _ _ _ _ Hpick) as Hs.
    apply pick_random_kernels_spec in Hpick as (rows & _ & _ & _ & Hcells).
    apply written_is_matrix; [assumption|].
    apply (cells_written k m); [assumption|]. intros i j Hi Hj.
    destruct (Hcells i j Hi Hj) as (row & x & _ & _ & Hx). eauto.
Qed.

(** Lines 219-236: every row is given to a nearest kernel. *)
Lemma assign_rows_nearest k n m st st' :
  0 < k -> assign_rows k n m st = Ret st' ->
  forall ri, ri < n -> exists row cd ck,
    data_rows st !! ri = Some row /\ nearest (kernels st) k m row cd ck /\
    kernel_followers st' !! ri = Some (Some ck).
Proof.
  intros Hk H. unfold assign_rows in H.
  refine (proj2 (proj2 (for_inv (fun i t =>
            data_rows t = data_rows st /\ kernels t = kernels st /\
            forall ri, ri < i -> exists row cd ck,
              data_rows st !! ri = Some row /\ nearest (kernels st) k m row cd ck /\
              kernel_followers t !! ri = Some (Some ck))
            _ 0 n _ _ H _ _))).
  - split; [reflexivity|]. split; [reflexivity|]. intros; lia.
  - intros i t t' _ (Hd & Hks & Hdone) Hbody. unfold assign_row in Hbody.
    bind_inv Hbody as row Hrow. apply row_at_Ret in Hrow.
    bind_inv Hbody as [cd ck] Hnear.
    apply (closest_nearest k m row (kernels t) cd ck Hk) in Hnear.
    bind_inv Hbody as fol Hfol. apply wr_Ret in Hfol as [Hri ->].
    bind_inv Hbody as c Hc. bind_inv Hbody as cnt Hcnt. bind_inv Hbody as sums Hsums.
    inv_ret Hbody. simpl. split; [assumption|]. split; [assumption|].
    intros ri Hlt. destruct (decide (ri = i)) as [->|Hne].
    + exists row, cd, ck. rewrite <- Hd, <- Hks.
      split; [assumption|]. split; [assumption|].
      apply list_lookup_insert_eq. assumption.
    + destruct (Hdone ri) as (row' & cd' & ck' & ? & ? & ?); [lia|].
      exists row', cd', ck'. split; [assumption|]. split; [assumption|].
      rewrite list_lookup_insert_ne by congruence. assumption.
Qed.



End Postcondition.



(** * The loop stays inside its blocks *)

Section Bounds.




Lemma safely_defined {A} (o : outcome A) (Q : A -> Prop) : safely o Q -> defined o = true.
Proof. destruct o; simpl; intros H; try reflexivity; contradiction. Qed.







End Bounds.





(** * The columns given on the command line *)

Module MainFacts.
Import Ascii Main MainSpec.

Section Columns.

Lemma same_but_columns_refl g : same_but_columns g g.
Proof. destruct g. reflexivity. Qed.

Lemma same_but_columns_trans g1 g2 g3 :
  same_but_columns g1 g2 -> same_but_columns g2 g3 -> same_but_columns g1 g3.
Proof.
  unfold same_but_columns. intros H12 H23. rewrite H23 at 1. rewrite H12 at 1.
  reflexivity.
Qed.

Lemma upto_S from n : upto from (S n) = from :: upto (from + 1) n.
Proof.
  unfold upto. simpl. rewrite Z.add_0_r. f_equal.
  rewrite <- seq_shift, map_map. apply map_ext. intros d. lia.
Qed.

(** Lines 138-159: the index is appended. *)
Lemma add_column_index_appends x l g :
  columns_are l g -> (Z.of_nat (length l) + 1 < 2 ^ 64)%Z ->
  exists g', add_column_index x g = Ret g' /\
             columns_are (l ++ [x]) g' /\ same_but_columns g g'.
Proof.
  intros [Hcount Hcols] Hlen. unfold add_column_index.
  assert (Hadd : size_add (column_count g) 1 = Z.of_nat (length (l ++ [x]))).
  { rewrite Hcount, length_app. simpl. unfold size_add, SIZE_WIDTH.
    rewrite Z.mod_small by lia. lia. }
  destruct (columns g) as [c|] eqn:Hc.
  - subst c. rewrite Hcount.
    replace (Z.to_nat (Z.of_nat (length l) + 1)) with (S (length l)) by lia.
    rewrite Nat2Z.id. unfold realloc.
    rewrite take_ge by (rewrite length_map; lia).
    rewrite length_map. replace (S (length l) - length l) with 1 by lia. simpl.
    unfold wr. rewrite decide_True by (rewrite length_app, length_map; simpl; lia).
    rewrite bind_Ret_l. eexists. split; [reflexivity|]. split.
    + split; [simpl; rewrite <- Hcount; exact Hadd|]. simpl.
      rewrite insert_app_r_alt by (rewrite length_map; lia).
      rewrite length_map, Nat.sub_diag, map_app. reflexivity.
    + unfold same_but_columns. reflexivity.
  - subst l. simpl. eexists. split; [reflexivity|]. split.
    + split; [exact Hadd|reflexivity].
    + unfold same_but_columns. reflexivity.
Qed.

(** Lines 183-186: the indices from [i] to [to] are appended, in order. *)
Lemma add_columns_appends n : forall fuel i to l g,
  (i + Z.of_nat n = to + 1)%Z -> n <= fuel -> (0 <= i)%Z -> (to < ULONG_MAX)%Z ->
  (Z.of_nat (length l) + Z.of_nat n < 2 ^ 64)%Z ->
  columns_are l g ->
  exists g', add_columns fuel i to g = Ret g' /\
             columns_are (l ++ upto i n) g' /\ same_but_columns g g'.
Proof.
  unfold ULONG_MAX.
  induction n as [|n IH]; intros fuel i to l g Hn Hfuel Hi Hto Hlen Hcols.
  - exists g. split.
    + destruct fuel; simpl; rewrite (proj2 (Z.leb_gt i to)) by lia; reflexivity.
    + unfold upto. simpl. rewrite app_nil_r. split; [assumption|].
      apply same_but_columns_refl.
  - destruct fuel as [|fuel]; [lia|]. simpl.
    rewrite (proj2 (Z.leb_le i to)) by lia.
    destruct (add_column_index_appends i l g Hcols) as (g1 & -> & Hc1 & Hs1); [lia|].
    rewrite bind_Ret_l.
    assert (Hi1 : size_add i 1 = (i + 1)%Z).
    { unfold size_add, SIZE_WIDTH. apply Z.mod_small. lia. }
    rewrite Hi1.
    destruct (IH fuel (i + 1)%Z to (l ++ [i]) g1) as (g' & Hrun & Hc' & Hs');
      try lia; [rewrite length_app; simpl; lia|assumption|].
    exists g'. split; [assumption|]. split.
    + rewrite upto_S. rewrite <- app_assoc in Hc'. exact Hc'.
    + eapply same_but_columns_trans; eassumption.
Qed.

Lemma add_param_appends E fuel param idx l g :
  indices_of E param = Some idx ->
  length idx <= fuel ->
  (Z.of_nat (length l) + Z.of_nat (length idx) < 2 ^ 64)%Z ->
  columns_are l g ->
  exists g',
    (if char_in_string E param "-"%char then add_column_range E fuel param g
     else add_column E param g) = Ret g' /\
    columns_are (l ++ idx) g' /\ same_but_columns g g'.
Proof.
  unfold indices_of. intros Hidx Hfuel Hlen Hcols.
  destruct (char_in_string E param "-"%char).
  - unfold add_column_range.
    destruct (sscanf_range E param) as [from to| | |]; try discriminate. simpl.
    destruct ((0 <=? from) && (from <? to) && (to <? ULONG_MAX))%Z eqn:Hb;
      [|discriminate].
    apply andb_true_iff in Hb as [Hb Hto]. apply andb_true_iff in Hb as [Hfrom Hlt].
    apply Z.leb_le in Hfrom. apply Z.ltb_lt in Hlt, Hto.
    injection Hidx as <-. unfold upto in Hfuel, Hlen.
    rewrite length_map, length_seq in Hfuel, Hlen.
    rewrite (proj2 (Z.leb_gt to from)) by lia.
    apply add_columns_appends; try assumption; lia.
  - unfold add_column.
    destruct (sscanf_zu E param) as [c| |]; try discriminate. simpl.
    destruct ((0 <=? c) && (c <=? ULONG_MAX))%Z; [|discriminate].
    injection Hidx as <-. simpl in Hlen.
    apply add_column_index_appends; [assumption|lia].
Qed.

End Columns.

(** X17: a range argument [from-to] with [from < to] adds the column
    indices [from], [from + 1], ..., [to], both ends included and in this
    order, after the columns given before it. *)
Theorem add_column_range_appends
    (E : externals) (fuel : nat) (range : cstring) (from to : Z)
    (l : list Z) (g : globals) :
  sscanf_range E range = Both from to ->
  (0 <= from < to)%Z -> (to < ULONG_MAX)%Z ->
  Z.to_nat (to - from) < fuel ->
  (Z.of_nat (length l) + (to - from + 1) < 2 ^ 64)%Z ->
  columns_are l g ->
  exists g', add_column_range E fuel range g = Ret g' /\
             columns_are (l ++ upto from (Z.to_nat (to - from + 1))) g' /\
             same_but_columns g g'.
Proof.
  intros Hscan Hfrom Hto Hfuel Hlen Hcols. unfold add_column_range.
  rewrite Hscan. simpl. rewrite (proj2 (Z.leb_gt to from)) by lia.
  apply add_columns_appends; try assumption; lia.
Qed.

Lemma add_column_range_appends_witness :
  exists g', add_column_range MainExample.libc 5 ["2"; "-"; "4"]%char initial = Ret g' /\
             columns_are ([] ++ upto 2 (Z.to_nat (4 - 2 + 1))) g' /\
             same_but_columns initial g'.
Proof.
  apply (add_column_range_appends MainExample.libc 5 ["2"; "-"; "4"]%char 2 4 [] initial).
  - reflexivity.
  - lia.
  - unfold ULONG_MAX. lia.
  - simpl. lia.
  - simpl. lia.
  - split; reflexivity.
Defined.

Section Arguments.

Lemma parse_options_keeps_columns E opts : forall g out g0 out0,
  parse_options E opts g out = Ret (Go (g0, out0)) ->
  columns g0 = columns g /\ column_count g0 = column_count g.
Proof.
  induction opts as [|[opt optarg] opts IH]; intros g out g0 out0 H; simpl in H.
  - injection H as <- <-. auto.
  - repeat match type of H with
           | (if Ascii.eqb ?a ?b then _ else _) = _ =>
               destruct (Ascii.eqb a b); try discriminate
           | (if (?a =? ?b)%Z then _ else _) = _ =>
               destruct (a =? b)%Z; try discriminate
           end;
      try (apply IH in H; simpl in H; exact H).
    destruct (sscanf_zu E optarg); simpl in H; apply IH in H; simpl in H; exact H.
Qed.

Lemma add_params_collects E fuel params : forall idxs l g,
  Forall2 (fun p idx => indices_of E p = Some idx) params idxs ->
  Forall (fun idx => length idx <= fuel) idxs ->
  (Z.of_nat (length (l ++ concat idxs)) < 2 ^ 64)%Z ->
  columns_are l g ->
  exists g', add_params E fuel params g = Ret g' /\
             columns_are (l ++ concat idxs) g' /\ same_but_columns g g'.
Proof.
  induction params as [|p params IH]; intros idxs l g H2 Hfuel Hlen Hcols;
    inversion H2 as [|? idx ? idxs' Hp H2']; subst; simpl.
  - exists g. rewrite app_nil_r. split; [reflexivity|]. split; [assumption|].
    apply same_but_columns_refl.
  - inversion Hfuel as [|? ? Hf Hfuel']; subst.
    simpl in Hlen. rewrite !length_app in Hlen.
    destruct (add_param_appends E fuel p idx l g Hp Hf) as (g1 & -> & Hc1 & Hs1);
      [lia|assumption|].
    rewrite bind_Ret_l.
    destruct (IH idxs' (l ++ idx) g1 H2' Hfuel') as (g' & Hrun & Hc' & Hs');
      [rewrite <- app_assoc, !length_app; lia|assumption|].
    exists g'. split; [assumption|]. split.
    + rewrite app_assoc. assumption.
    + eapply same_but_columns_trans; eassumption.
Qed.

End Arguments.

(** X18: when the options are accepted and every positional argument is
    well written (an index, or [from-to] with [from < to]), [parse_args]
    leaves in [columns] the indices the arguments stand for, argument after
    argument, with [column_count] their number; the options leave no trace
    in the columns and the columns none in the other variables. *)
Theorem parse_args_collects_columns
    (E : externals) (fuel : nat) (argc : Z) (opts : list (ascii * cstring))
    (params : list cstring) (idxs : list (list Z)) (g g0 : globals)
    (out : list printed) :
  argc <> 1%Z ->
  columns_are [] g ->
  parse_options E opts g [] = Ret (Go (g0, out)) ->
  Forall2 (fun p idx => indices_of E p = Some idx) params idxs ->
  Forall (fun idx => length idx <= fuel) idxs ->
  (Z.of_nat (length (concat idxs)) < 2 ^ 64)%Z ->
  exists g', parse_args E fuel argc opts params g = Ret (Go (g', out)) /\
             columns_are (concat idxs) g' /\ same_but_columns g0 g'.
Proof.
  intros Hargc [Hcount Hcols] Hopts H2 Hfuel Hlen. unfold parse_args.
  rewrite (proj2 (Z.eqb_neq argc 1) Hargc), Hopts, bind_Ret_l.
  destruct (parse_options_keeps_columns E opts g [] g0 out Hopts) as [Hc Hn].
  destruct (add_params_collects E fuel params idxs [] g0 H2 Hfuel Hlen)
    as (g' & -> & Hc' & Hs').
  { split; [congruence|]. rewrite Hc. assumption. }
  rewrite bind_Ret_l. eauto.
Qed.

Lemma parse_args_collects_columns_witness :
  exists g',
    parse_args MainExample.libc 4 5 [("k"%char, ["3"%char])]
               [["0"; "-"; "2"]%char; ["5"%char]] initial = Ret (Go (g', [])) /\
    columns_are (concat [[0; 1; 2]; [5]]%Z) g' /\
    same_but_columns (set_kernels 3 initial) g'.
Proof.
  apply (parse_args_collects_columns MainExample.libc 4 5 [("k"%char, ["3"%char])]
           [["0"; "-"; "2"]%char; ["5"%char]] [[0; 1; 2]; [5]]%Z initial
           (set_kernels 3 initial) []).
  - lia.
  - split; reflexivity.
  - reflexivity.
  - repeat constructor.
  - repeat constructor; simpl; lia.
  - simpl. lia.
Defined.

(** * Reading a line of data *)

Section Lines.

Lemma is_prefix_length p : forall s, is_prefix p s = true -> length p <= length s.
Proof.
  induction p as [|a p IH]; intros [|b s] H; simpl in *; try lia; try discriminate.
  apply andb_true_iff in H as [_ H]. apply IH in H. lia.
Qed.

Lemma strstr_prefix needle : forall haystack s,
  strstr haystack needle = Some s -> is_prefix needle s = true.
Proof.
  induction haystack as [|c h IH]; intros s H; simpl in H.
  - destruct (is_prefix needle []) eqn:E; [|discriminate]. injection H as <-. exact E.
  - destruct (is_prefix needle (c :: h)) eqn:E; [injection H as <-; exact E|].
    apply IH. assumption.
Qed.

(** The test of line 119 never holds: what [strstr] finds starts with the
    separator. *)
Lemma strstr_length haystack needle s :
  strstr haystack needle = Some s -> ~ length s < length needle.
Proof.
  intros H. apply strstr_prefix, is_prefix_length in H. lia.
Qed.


Lemma seek_not_fail g n : forall lp,
  fail_on_errors g = false -> seek g n lp <> Fail.
Proof.
  induction n as [|n IH]; intros lp Hf; simpl; [discriminate|].
  destruct (strstr lp (field_separator g)) as [s|] eqn:E;
    [|rewrite Hf; discriminate].
  rewrite decide_False by (eapply strstr_length; eassumption).
  apply IH. assumption.
Qed.


Lemma bind_not_fail {A B} (o : outcome A) (f : A -> outcome B) :
  o <> Fail -> (forall a, o = Ret a -> f a <> Fail) -> bind o f <> Fail.
Proof. destruct o; simpl; auto; discriminate. Qed.

Lemma for_not_fail {St} (body : nat -> St -> outcome St) n : forall lo s,
  (forall i t, body i t <> Fail) -> for_ lo n body s <> Fail.
Proof.
  induction n as [|n IH]; intros lo s H; simpl; [discriminate|].
  apply bind_not_fail; auto.
Qed.

Lemma wr2_not_fail {A} (rows : list (array A)) i j x : wr2 rows i j x <> Fail.
Proof.
  unfold wr2, row_at, wr. destruct (rows !! i); simpl; [|discriminate].
  destruct (decide (j < length l)); discriminate.
Qed.

Lemma parse_columns_not_fail E g r n : forall i j lp rows,
  fail_on_errors g = false -> parse_columns E g r n i j lp rows <> Fail.
Proof.
  induction n as [|n IH]; intros i j lp rows Hf; simpl; [discriminate|].
  apply bind_not_fail; [destruct (columns g); discriminate|]. intros cols _.
  apply bind_not_fail; [unfold rd; destruct (cols !! i) as [[?|]|]; discriminate|].
  intros column _.
  apply bind_not_fail; [apply seek_not_fail; assumption|]. intros [lp'|] _;
    [|discriminate].
  apply bind_not_fail; [unfold row_at; destruct (rows !! r); discriminate|].
  intros _ _.
  apply bind_not_fail.
  - destruct (sscanf_lf E lp'); try discriminate. apply wr2_not_fail.
  - intros rows' _. destruct (conversions (sscanf_lf E lp') =? 0)%Z;
      [rewrite Hf; discriminate|]. apply IH. assumption.
Qed.

(** Writing one cell of row [r] leaves the other rows and the other cells
    as they were, and every row as long as it was. *)
Lemma wr2_cell (rows rows' : list (array float)) r i x :
  wr2 rows r i x = Ret rows' ->
  cell rows' r i = Some (Some x) /\
  (forall r' i', r' <> r \/ i' <> i -> cell rows' r' i' = cell rows r' i') /\
  length rows' = length rows /\
  (forall r', r' <> r -> rows' !! r' = rows !! r') /\
  (forall n, Forall (fun row => length row = n) rows ->
             Forall (fun row => length row = n) rows').
Proof.
  intros H. apply wr2_Ret in H as (row & Hrow & Hi & ->). unfold cell.
  split; [|split; [|split; [|split]]].
  - rewrite list_lookup_insert_eq by (eapply lookup_lt_Some; eassumption).
    apply list_lookup_insert_eq. assumption.
  - intros r' i' Hne. destruct (decide (r' = r)) as [->|Hr].
    + rewrite list_lookup_insert_eq by (eapply lookup_lt_Some; eassumption).
      rewrite Hrow. apply list_lookup_insert_ne. destruct Hne; congruence.
    + rewrite list_lookup_insert_ne by congruence. reflexivity.
  - apply length_insert.
  - intros r' Hr. apply list_lookup_insert_ne. congruence.
  - intros n Hall. apply Forall_insert; [assumption|].
    rewrite length_insert. eapply (proj1 (Forall_lookup _ _) Hall); eassumption.
Qed.

Lemma parse_columns_frame E g r n : forall i j lp rows rows' b,
  parse_columns E g r n i j lp rows = Ret (rows', b) ->
  length rows' = length rows /\
  (forall r', r' <> r -> rows' !! r' = rows !! r') /\
  (forall len, Forall (fun row => length row = len) rows ->
               Forall (fun row => length row = len) rows').
Proof.
  induction n as [|n IH]; intros i j lp rows rows' b H; simpl in H.
  - injection H as <- <-. auto.
  - bind_inv H as cols Hcols. bind_inv H as column Hcol. bind_inv H as found Hseek.
    destruct found as [lp'|]; [|injection H as <- <-; auto].
    bind_inv H as row Hrow. bind_inv H as rows1 Hscan.
    assert (H1 : length rows1 = length rows /\
                 (forall r', r' <> r -> rows1 !! r' = rows !! r') /\
                 (forall len, Forall (fun row => length row = len) rows ->
                              Forall (fun row => length row = len) rows1)).
    { destruct (sscanf_lf E lp'); try (injection Hscan as <-; auto).
      apply wr2_cell in Hscan as (_ & _ & ? & ? & ?). auto. }
    destruct H1 as (Hl1 & Ho1 & Hf1).
    destruct (conversions (sscanf_lf E lp') =? 0)%Z.
    + destruct (fail_on_errors g); [discriminate|]. injection H as <- <-. auto.
    + apply IH in H as (Hl & Ho & Hf). split; [congruence|]. split.
      * intros r' Hr. rewrite Ho by assumption. auto.
      * auto.
Qed.




End Lines.

(** X19: without [-e] a line never stops the program: whatever the line
    holds, [parse_data_row] does not reach [failwith].  In particular the
    test of line 119 (the rest of the line shorter than the separator) never
    holds, and a missing or unreadable column makes the row be dropped. *)
Theorem parse_data_row_discards_quietly
    (E : externals) (line : cstring) (line_number : Z) (g : globals) :
  fail_on_errors g = false ->
  (data_row_count g = data_row_cap g -> data_row_cap g <> (ULONG_MAX / 2)%Z) ->
  failed (parse_data_row E line line_number g) = false.
Proof.
  intros Hf Hcap.
  assert (H : parse_data_row E line line_number g <> Fail).
  { unfold parse_data_row. cbv zeta.
    apply bind_not_fail.
    - destruct (data_row_count g =? data_row_cap g)%Z eqn:E1; [|discriminate].
      apply Z.eqb_eq, Hcap, Z.eqb_neq in E1. rewrite E1.
      apply bind_not_fail; [|discriminate].
      apply for_not_fail. intros i t. unfold set_row.
      destruct (decide (i < length t)); discriminate.
    - intros g1 Hg1.
      assert (Hf1 : fail_on_errors g1 = false).
      { destruct (data_row_count g =? data_row_cap g)%Z;
          [|injection Hg1 as <-; assumption].
        destruct (data_row_cap g =? ULONG_MAX / 2)%Z; [discriminate|].
        bind_inv Hg1 as rows Hrows. injection Hg1 as <-. assumption. }
      apply bind_not_fail; [apply parse_columns_not_fail; assumption|].
      intros [rows [|]] _; discriminate. }
  destruct (parse_data_row E line line_number g); try reflexivity. congruence.
Qed.

Lemma parse_data_row_discards_quietly_witness :
  failed (parse_data_row MainExample.libc ["1"; ","; "x"]%char 0
            MainExample.two_columns) = false.
Proof.
  apply (parse_data_row_discards_quietly MainExample.libc ["1"; ","; "x"]%char 0
           MainExample.two_columns).
  - reflexivity.
  - simpl. discriminate.
Defined.



(** * The rows read so far *)

Section Rows.

(** Lines 92-95: the new rows. *)
Lemma grow_rows (rows : list (array float)) (cap : nat) (cc : nat) rows' :
  0 < cap -> length rows = cap ->
  Forall (fun r => length r = cc) rows ->
  for_ cap (2 * cap - cap) (fun i rows => set_row rows i (malloc cc))
       (realloc rows (2 * cap) no_row) = Ret rows' ->
  length rows' = 2 * cap /\
  Forall (fun r => length r = cc) rows' /\
  forall r, r < cap -> rows' !! r = rows !! r.
Proof.
  intros Hcap Hlen Hall H.
  apply (for_inv (fun i (t : list (array float)) =>
           length t = 2 * cap /\
           Forall (fun r => length r = cc) (take i t) /\
           forall r, r < cap -> t !! r = rows !! r)) in H.
  - destruct H as (Hl & Hf & Hr). split; [assumption|]. split; [|assumption].
    rewrite take_ge in Hf by lia. assumption.
  - unfold realloc. rewrite take_ge by lia.
    split; [rewrite length_app, length_replicate; lia|]. split.
    + rewrite take_app_length' by lia. assumption.
    + intros r Hr. apply lookup_app_l. lia.
  - intros i t t' Hi (Hl & Hf & Hr) Hbody. unfold set_row in Hbody.
    destruct (decide (i < length t)); [|discriminate]. injection Hbody as <-.
    split; [rewrite length_insert; assumption|]. split.
    + rewrite (take_S_r _ _ (malloc cc)) by (apply list_lookup_insert_eq; assumption).
      rewrite take_insert_ge by lia.
      apply Forall_app. split; [assumption|]. constructor; [|constructor].
      apply length_malloc.
    + intros r Hlt. rewrite list_lookup_insert_ne by lia. apply Hr. assumption.
Qed.

Lemma parse_data_row_sized E line line_number g g' :
  well_sized g -> (0 < data_row_cap g < 2 ^ 63)%Z ->
  parse_data_row E line line_number g = Ret g' ->
  well_sized g' /\ same_but_data g g' /\
  (data_row_cap g' = data_row_cap g \/
   data_row_count g = data_row_cap g /\ data_row_cap g' = (2 * data_row_cap g)%Z) /\
  (data_row_count g' = data_row_count g \/
   data_row_count g' = (data_row_count g + 1)%Z) /\
  forall r, (Z.of_nat r < data_row_count g)%Z ->
            data_rows g' !! r = data_rows g !! r.
Proof.
  intros (Hlen & Hcount & Hcc & Hall) Hcap H. unfold parse_data_row in H.
  cbv zeta in H. bind_inv H as g1 Hgrow.
  assert (Hg1 : well_sized g1 /\ same_but_data g g1 /\
                data_row_count g1 = data_row_count g /\
                (data_row_count g1 < data_row_cap g1)%Z /\
                (data_row_cap g1 = data_row_cap g \/
                 data_row_count g = data_row_cap g /\
                 data_row_cap g1 = (2 * data_row_cap g)%Z) /\
                (data_row_cap g1 < 2 ^ 64)%Z /\
                forall r, (Z.of_nat r < data_row_count g)%Z ->
                          data_rows g1 !! r = data_rows g !! r).
  { destruct (data_row_count g =? data_row_cap g)%Z eqn:E1.
    - apply Z.eqb_eq in E1.
      destruct (data_row_cap g =? ULONG_MAX / 2)%Z; [discriminate|].
      bind_inv Hgrow as rows Hrows. injection Hgrow as <-.
      rewrite Z.mod_small in * by lia. simpl.
      replace (Z.to_nat (data_row_cap g * 2)) with (2 * Z.to_nat (data_row_cap g))
        in Hrows by lia.
      replace (Z.to_nat (data_row_cap g * 2 - data_row_cap g))
        with (2 * Z.to_nat (data_row_cap g) - Z.to_nat (data_row_cap g)) in Hrows by lia.
      apply grow_rows in Hrows as (Hl' & Hf' & Hr'); [|lia|lia|assumption].
      split; [unfold well_sized; simpl; repeat split; try assumption; lia|].
      split; [unfold same_but_data; reflexivity|].
      split; [reflexivity|]. split; [lia|]. split; [right; split; [assumption|lia]|].
      split; [lia|]. intros r Hr. apply Hr'. lia.
    - apply Z.eqb_neq in E1. injection Hgrow as <-.
      split; [unfold well_sized; auto|].
      split; [unfold same_but_data; destruct g; reflexivity|].
      split; [reflexivity|]. split; [lia|]. split; [left; reflexivity|].
      split; [lia|]. auto. }
  destruct Hg1 as ((Hlen1 & Hcount1 & Hcc1 & Hall1) & Hsame & Hc1 & Hlt & Hcap1 & Hmax & Hkeep).
  bind_inv H as [rows completed] Hparse.
  apply parse_columns_frame in Hparse as (Hl & Hother & Hshape).
  assert (Hsame' : forall n, same_but_data g (set_data rows (data_row_cap g1) n g1)).
  { intros n. unfold same_but_data in *. rewrite Hsame. reflexivity. }
  assert (Hrows : forall r, (Z.of_nat r < data_row_count g)%Z ->
                            rows !! r = data_rows g !! r).
  { intros r Hr. rewrite Hother by lia. apply Hkeep. assumption. }
  assert (Hadd : size_add (data_row_count g1) 1 = (data_row_count g1 + 1)%Z).
  { unfold size_add, SIZE_WIDTH. apply Z.mod_small. lia. }
  destruct completed; injection H as <-; simpl.
  - rewrite Hadd.
    split; [unfold well_sized; simpl; repeat split; try lia; auto|].
    split; [apply Hsame'|]. split; [assumption|]. split; [right; lia|assumption].
  - split; [unfold well_sized; simpl; repeat split; try lia; auto|].
    split; [apply Hsame'|]. split; [assumption|]. split; [left; lia|assumption].
Qed.


End Rows.

(** X21: on an array of [data_row_cap] rows (below 2^63) of which
    [data_row_count] are in use, [parse_data_row] keeps the array well
    sized, doubles the capacity only when it is used up, adds one row or
    none, and leaves the rows accepted before as they were. *)
Theorem parse_data_row_keeps_rows
    (E : externals) (line : cstring) (line_number : Z) (g g' : globals) :
  well_sized g -> (0 < data_row_cap g < 2 ^ 63)%Z ->
  parse_data_row E line line_number g = Ret g' ->
  well_sized g' /\ same_but_data g g' /\
  (data_row_cap g' = data_row_cap g \/
   data_row_count g = data_row_cap g /\ data_row_cap g' = (2 * data_row_cap g)%Z) /\
  (data_row_count g' = data_row_count g \/
   data_row_count g' = (data_row_count g + 1)%Z) /\
  forall r, (Z.of_nat r < data_row_count g)%Z ->
            data_rows g' !! r = data_rows g !! r.
Proof. apply parse_data_row_sized. Qed.

Lemma parse_data_row_keeps_rows_witness :
  well_sized (set_data [vec [1; 2]%float; malloc 2; malloc 2; malloc 2] 4 1
                       MainExample.two_columns) /\
  same_but_data MainExample.two_columns
    (set_data [vec [1; 2]%float; malloc 2; malloc 2; malloc 2] 4 1
              MainExample.two_columns) /\
  (4 = 4 \/ 0 = 4 /\ 4 = 2 * 4)%Z /\
  (1 = 0 \/ 1 = 0 + 1)%Z /\
  forall r, (Z.of_nat r < 0)%Z ->
    [vec [1; 2]%float; malloc 2; malloc 2; malloc 2] !! r = replicate 4 (malloc 2) !! r.
Proof.
  apply (parse_data_row_keeps_rows MainExample.libc ["1"; ","; "2"]%char 0
           MainExample.two_columns).
  - unfold well_sized. simpl. repeat split; try lia. repeat constructor.
  - simpl. lia.
  - vm_compute. reflexivity.
Defined.

(** * The whole program *)

Section Program.

Lemma parse_options_keeps_data E opts : forall g out g0 out0,
  parse_options E opts g out = Ret (Go (g0, out0)) ->
  data_rows g0 = data_rows g /\ data_row_cap g0 = data_row_cap g /\
  data_row_count g0 = data_row_count g.
Proof.
  induction opts as [|[opt optarg] opts IH]; intros g out g0 out0 H; simpl in H.
  - injection H as <- <-. auto.
  - repeat match type of H with
           | (if Ascii.eqb ?a ?b then _ else _) = _ =>
               destruct (Ascii.eqb a b); try discriminate
           | (if (?a =? ?b)%Z then _ else _) = _ =>
               destruct (a =? b)%Z; try discriminate
           end;
      try (apply IH in H; simpl in H; exact H).
    destruct (sscanf_zu E optarg); simpl in H; apply IH in H; simpl in H; exact H.
Qed.

(** Only [-n] with an argument of more than one character prints. *)
Lemma parse_options_warns E opts : forall g out g0 out0,
  parse_options E opts g out = Ret (Go (g0, out0)) ->
  Forall (fun p => exists s, p = Warning s) out ->
  Forall (fun p => exists s, p = Warning s) out0.
Proof.
  induction opts as [|[opt optarg] opts IH]; intros g out g0 out0 H Hout; simpl in H.
  - injection H as <- <-. assumption.
  - repeat match type of H with
           | (if Ascii.eqb ?a ?b then _ else _) = _ =>
               destruct (Ascii.eqb a b); try discriminate
           | (if (?a =? ?b)%Z then _ else _) = _ =>
               destruct (a =? b)%Z; try discriminate
           end;
      try (eapply IH; [exact H|]; try assumption).
    destruct (decide (1 < length optarg)); [|assumption].
    apply Forall_app. split; [assumption|]. constructor; [eauto|constructor].
Qed.

Lemma size_add_nonneg a b : (0 <= size_add a b)%Z.
Proof. unfold size_add, SIZE_WIDTH. apply Z.mod_pos_bound. lia. Qed.

Lemma add_column_index_frame x g g' :
  add_column_index x g = Ret g' ->
  same_but_columns g g' /\ (0 <= column_count g')%Z.
Proof.
  unfold add_column_index. intros H.
  destruct (columns g); bind_inv H as c Hc; injection H as <-;
    (split; [reflexivity|apply size_add_nonneg]).
Qed.

Lemma add_columns_frame fuel : forall i to g g',
  (0 <= column_count g)%Z ->
  add_columns fuel i to g = Ret g' ->
  same_but_columns g g' /\ (0 <= column_count g')%Z.
Proof.
  induction fuel as [|fuel IH]; intros i to g g' Hcc H; simpl in H;
    (destruct (i <=? to)%Z;
     [|injection H as <-; split; [apply same_but_columns_refl|assumption]]);
    [discriminate|].
  bind_inv H as g1 H1. apply add_column_index_frame in H1 as [Hs1 Hc1].
  apply IH in H as [Hs Hc]; [|assumption].
  split; [eapply same_but_columns_trans; eassumption|assumption].
Qed.

Lemma add_params_frame E fuel params : forall g g',
  (0 <= column_count g)%Z ->
  add_params E fuel params g = Ret g' ->
  same_but_columns g g' /\ (0 <= column_count g')%Z.
Proof.
  induction params as [|p params IH]; intros g g' Hcc H; simpl in H.
  - injection H as <-. split; [apply same_but_columns_refl|assumption].
  - bind_inv H as g1 H1.
    assert (Hg1 : same_but_columns g g1 /\ (0 <= column_count g1)%Z).
    { destruct (char_in_string E p "-"%char).
      - unfold add_column_range in H1.
        destruct (range_conversions (sscanf_range E p) =? 0)%Z; [discriminate|].
        destruct (sscanf_range E p) as [from to| | |]; try discriminate.
        destruct (to <=? from)%Z; [discriminate|].
        eapply add_columns_frame; eassumption.
      - unfold add_column in H1.
        destruct (conversions (sscanf_zu E p) =? 0)%Z; [discriminate|].
        destruct (sscanf_zu E p) as [c| |]; try discriminate.
        eapply add_column_index_frame; eassumption. }
    destruct Hg1 as [Hs1 Hc1]. apply IH in H as [Hs Hc]; [|assumption].
    split; [eapply same_but_columns_trans; eassumption|assumption].
Qed.

Lemma parse_args_initial E fuel argc opts params g0 out :
  parse_args E fuel argc opts params initial = Ret (Go (g0, out)) ->
  data_rows g0 = [] /\ data_row_cap g0 = 1024%Z /\ data_row_count g0 = 0%Z /\
  (0 <= column_count g0)%Z /\ Forall (fun p => exists s, p = Warning s) out.
Proof.
  unfold parse_args. destruct (argc =? 1)%Z; [discriminate|]. intros H.
  bind_inv H as e He. destruct e as [[g1 out1]|status]; [|discriminate].
  bind_inv H as g2 Hp. injection H as <- <-.
  pose proof (parse_options_keeps_data _ _ _ _ _ _ He) as (Hr & Hc & Hn).
  pose proof (parse_options_keeps_columns _ _ _ _ _ _ He) as (_ & Hcc).
  pose proof (parse_options_warns _ _ _ _ _ _ He (Forall_nil_2 _)) as Hw.
  apply add_params_frame in Hp as [Hs Hcc2]; [|rewrite Hcc; simpl; lia].
  unfold same_but_columns in Hs. rewrite Hs. simpl.
  rewrite Hr, Hc, Hn. simpl. auto.
Qed.

(** Lines 55-61. *)
Lemma preallocate_sized g g' :
  (0 <= column_count g)%Z -> (0 <= data_row_count g <= data_row_cap g)%Z ->
  preallocate_data_rows g = Ret g' ->
  well_sized g' /\ same_but_data g g' /\
  data_row_cap g' = data_row_cap g /\ data_row_count g' = data_row_count g.
Proof.
  intros Hcc Hcount H. unfold preallocate_data_rows in H.
  bind_inv H as rows Hrows. injection H as <-.
  apply (for_inv (fun i (t : list (array float)) =>
           length t = Z.to_nat (data_row_cap g) /\
           Forall (fun r => length r = Z.to_nat (column_count g)) (take i t))) in Hrows.
  - destruct Hrows as [Hl Hf]. simpl in Hf. rewrite take_ge in Hf by lia.
    split; [unfold well_sized; simpl; repeat split; try lia; assumption|].
    split; [reflexivity|]. auto.
  - split; [apply length_replicate|]. apply Forall_nil_2.
  - intros i t t' Hi [Hl Hf] Hbody. unfold set_row in Hbody.
    destruct (decide (i < length t)); [|discriminate]. injection Hbody as <-.
    split; [rewrite length_insert; assumption|].
    rewrite (take_S_r _ _ (malloc (Z.to_nat (column_count g))))
      by (apply list_lookup_insert_eq; assumption).
    rewrite take_insert_ge by lia.
    apply Forall_app. split; [assumption|]. constructor; [|constructor].
    apply length_malloc.
Qed.


End Program.



End MainFacts.

(** * The text of a vector *)

Module ReprFacts.
Import Ascii Repr.

Section Rendering.
Variable format : float -> list ascii.

Lemma cells_snoc l x :
  cells format (l ++ [x]) = concat (map (piece format) l) ++ format x ++ ["]"%char].
Proof.
  induction l as [|y l IH]; [reflexivity|].
  change ((y :: l) ++ [x]) with (y :: (l ++ [x])).
  destruct (l ++ [x]) as [|z rest] eqn:E; [destruct l; discriminate|].
  change (cells format (y :: z :: rest))
    with (format y ++ [","; " "]%char ++ cells format (z :: rest)).
  rewrite IH. simpl. unfold piece. rewrite <- !app_assoc. reflexivity.
Qed.

(** Lines 41-43 from cell [i] on: [k] cells are printed, each followed by a
    comma and a space, unless the block is too small for them. *)
Lemma repr_loop size (l : list float) : forall k i text,
  i + k <= length l ->
  (Z.of_nat (length text) + 1 <= size)%Z ->
  for_ i k (fun i a_repr =>
              x <- rd (vec l) i ;;
              sprintf size a_repr (format x ++ [","; " "]%char)) text
  = if decide (Z.of_nat (length (text ++ concat (map (piece format) (take k (drop i l))))) + 1
               <= size)%Z
    then Ret (text ++ concat (map (piece format) (take k (drop i l))))
    else Undef.
Proof.
  induction k as [|k IH]; intros i text Hik Hfit; simpl.
  - rewrite app_nil_r. rewrite decide_True by assumption. reflexivity.
  - destruct (lookup_lt_is_Some_2 l i) as [x Hx]; [lia|].
    rewrite (rd_vec_lookup _ _ _ Hx), bind_Ret_l.
    rewrite (drop_S l x i Hx). simpl. fold (piece format x). unfold sprintf at 1.
    destruct (Z.of_nat (length text + length (piece format x)) + 1 <=? size)%Z eqn:E.
    + apply Z.leb_le in E. rewrite bind_Ret_l.
      rewrite IH by (rewrite ?length_app; lia).
      rewrite <- !app_assoc. reflexivity.
    + apply Z.leb_gt in E. simpl. rewrite decide_False; [reflexivity|].
      rewrite !length_app. lia.
Qed.

End Rendering.

(** X23: on a vector of [n >= 1] written cells (with [256 n] below 2^64),
    [reprf64v] returns the opening bracket, the cells as ["%0.2lf"] prints
    them, separated by a comma and a space, and the closing bracket, when
    this text and its NUL fit the [256 n] bytes allocated; when they do not,
    it writes past the end of the block. *)
Theorem reprf64v_renders (format : float -> list ascii) (l : list float) :
  l <> [] -> (Z.of_nat (length l) * 256 < 2 ^ 64)%Z ->
  reprf64v format (vec l) (Z.of_nat (length l))
  = if decide (length (rendering format l) < 256 * length l)
    then Ret (rendering format l) else Undef.
Proof.
  intros Hne Hsize. destruct (exists_last Hne) as (l1 & x & ->).
  rewrite length_app in *. simpl length in *.
  unfold reprf64v. cbv zeta.
  rewrite (Z.mod_small (_ * 256)) by lia.
  rewrite (Z.mod_small (_ - 1)) by lia.
  replace (Z.to_nat (Z.of_nat (length l1 + 1) - 1)) with (length l1) by lia.
  unfold sprintf at 1. simpl length.
  rewrite (proj2 (Z.leb_le _ _)) by lia. rewrite bind_Ret_l. simpl app at 1.
  rewrite repr_loop by (rewrite ?length_app; simpl; lia).
  rewrite drop_0, take_app_length.
  unfold rendering. rewrite cells_snoc.
  set (body := concat (map _ l1)).
  destruct (decide (_ <= _)%Z) as [Hfit|Hfit].
  - rewrite bind_Ret_l.
    assert (Hx : (vec (l1 ++ [x])) !! length l1 = Some (Some x)).
    { unfold vec. rewrite list_lookup_fmap, lookup_app_r, Nat.sub_diag by lia.
      reflexivity. }
    apply rd_Ret in Hx. rewrite Hx, bind_Ret_l. unfold sprintf.
    simpl length in *. rewrite !length_app in *. simpl length in *.
    destruct (decide (S (length body + (length (format x) + 1))
                      < 256 * (length l1 + 1))) as [Hall|Hall].
    + rewrite (proj2 (Z.leb_le _ _)) by lia. reflexivity.
    + rewrite (proj2 (Z.leb_gt _ _)) by lia. reflexivity.
  - simpl. simpl length in *. rewrite !length_app in *. simpl length in *.
    rewrite decide_False by lia. reflexivity.
Qed.

Lemma reprf64v_renders_witness :
  reprf64v sign_of (vec [1; -2; nan]%float) (Z.of_nat (length [1; -2; nan]%float))
  = if decide (length (rendering sign_of [1; -2; nan]%float)
               < 256 * length [1; -2; nan]%float)
    then Ret (rendering sign_of [1; -2; nan]%float) else Undef.
Proof.
  apply (reprf64v_renders sign_of [1; -2; nan]%float); [discriminate|simpl; lia].
Defined.

End ReprFacts.

(** * The generator of test data *)

Module GeneratorFacts.
Import Ascii Main Generator.

Section Rows.
Variable rand : nat -> Z.

Lemma numbers_loop k : forall lo row calls,
  for_ lo k (fun j '(row, calls) =>
               let '(x, calls) := randf64 rand calls in
               Ret (row ++ [x], calls)) (row, 2 * calls)
  = Ret (row ++ map (fun d => number rand (calls + d)) (seq 0 k), 2 * (calls + k)).
Proof.
  induction k as [|k IH]; intros lo row calls; cbn [for_ seq map].
  - rewrite app_nil_r, Nat.add_0_r. reflexivity.
  - change (randf64 rand (2 * calls)) with (number rand calls, S (S (2 * calls))).
    cbv beta iota. rewrite bind_Ret_l.
    replace (S (S (2 * calls))) with (2 * (S calls)) by lia.
    rewrite IH. rewrite <- app_assoc. cbn [app].
    rewrite Nat.add_0_r. rewrite <- seq_shift, map_map.
    replace (2 * (S calls + k)) with (2 * (calls + S k)) by lia.
    do 4 f_equal. apply map_ext. intros d. f_equal. lia.
Qed.

Lemma print_row_numbers m calls :
  print_row rand m (2 * calls)
  = Ret (map (fun d => number rand (calls + d)) (seq 0 (row_width m)),
         2 * (calls + row_width m)).
Proof.
  unfold print_row, row_width.
  rewrite numbers_loop, bind_Ret_l. simpl app.
  set (k := Z.to_nat _).
  replace (randf64 rand (2 * (calls + k)))
    with (number rand (calls + k), 2 * (calls + S k)).
  - rewrite seq_S, map_app. reflexivity.
  - unfold number, randf64. cbn [fst]. f_equal. lia.
Qed.

Lemma rows_loop m k : forall lo rows r,
  for_ lo k (fun i '(rows, calls) =>
               '(row, calls) <- print_row rand m calls ;;
               Ret (rows ++ [row], calls)) (rows, 2 * (r * row_width m))
  = Ret (rows ++ map (fun i => map (fun d => number rand ((r + i) * row_width m + d))
                                   (seq 0 (row_width m)))
                     (seq 0 k),
         2 * ((r + k) * row_width m)).
Proof.
  induction k as [|k IH]; intros lo rows r.
  - cbn [for_ seq map]. rewrite app_nil_r, Nat.add_0_r. reflexivity.
  - cbn [for_]. rewrite print_row_numbers, !bind_Ret_l.
    replace (2 * (r * row_width m + row_width m)) with (2 * (S r * row_width m)) by lia.
    rewrite IH. rewrite <- app_assoc. cbn [seq map app].
    rewrite Nat.add_0_r. rewrite <- seq_shift, map_map.
    replace (2 * ((S r + k) * row_width m)) with (2 * ((r + S k) * row_width m)) by lia.
    do 4 f_equal. apply map_ext. intros i.
    apply map_ext. intros d. f_equal. lia.
Qed.

End Rows.

(** X24: given two arguments that [sscanf] converts to [n] and [m], the
    generator prints [n] lines; line [r] holds the numbers that calls
    [2 (r w + c)] and [2 (r w + c) + 1] of [rand()] give, for [c] below the
    width [w].  The width is [m] when [m >= 1]; with [m = 0] the bound
    [m - 1] of the inner loop wraps around and the width is 2^64. *)
Theorem generator_prints_rows
    (E : externals) (rand : nat -> Z) (argv1 argv2 : cstring) (n m : Z) :
  sscanf_zu E argv1 = Converted n -> sscanf_zu E argv2 = Converted m ->
  (0 <= m < 2 ^ 64)%Z ->
  main E rand 3 argv1 argv2
  = Ret (map (fun r => map (fun c => number rand (r * row_width m + c))
                           (seq 0 (row_width m)))
             (seq 0 (Z.to_nat n))) /\
  (0 < m -> row_width m = Z.to_nat m)%Z /\
  (m = 0%Z -> row_width m = Z.to_nat (2 ^ 64)).
Proof.
  intros Hn Hm Hrange. split; [|split].
  - unfold main. rewrite Hn, Hm. simpl negb. cbv iota. simpl conversions.
    simpl (1 =? 0)%Z. cbv iota zeta.
    pose proof (rows_loop rand m (Z.to_nat n) 0 [] 0) as Hrows.
    change (2 * (0 * row_width m)) with 0 in Hrows.
    rewrite Hrows, bind_Ret_l. reflexivity.
  - intros Hpos. unfold row_width. rewrite Z.mod_small by lia. lia.
  - intros ->. unfold row_width.
    replace ((0 - 1) mod 2 ^ 64)%Z with (2 ^ 64 - 1)%Z by reflexivity.
    rewrite <- Z2Nat.inj_succ by lia. f_equal.
Qed.

Lemma generator_prints_rows_witness :
  main MainExample.libc (fun i => (Z.of_nat i * 100000000)%Z) 3 ["2"%char] ["3"%char]
  = Ret (map (fun r => map (fun c => number (fun i => (Z.of_nat i * 100000000)%Z)
                                            (r * row_width 3 + c))
                           (seq 0 (row_width 3)))
             (seq 0 (Z.to_nat 2))) /\
  (0 < 3 -> row_width 3 = Z.to_nat 3)%Z /\
  (3%Z = 0%Z -> row_width 3 = Z.to_nat (2 ^ 64)).
Proof.
  apply (generator_prints_rows MainExample.libc _ ["2"%char] ["3"%char] 2 3);
    [reflexivity | reflexivity | lia].
Defined.

End GeneratorFacts.

(** * Kernels that coincide *)

Section Twins.

(** The nearest kernel is the first of the kernels at its position. *)
Lemma nearest_first_twin kernels k m row cd ck j :
  nearest kernels k m row cd ck -> j < ck -> kernels !! j <> kernels !! ck.
Proof.
  intros (Hck & (kernel & Hk & Hd) & Hall) Hj Heq.
  destruct (Hall j) as (dj & (kernel' & Hk' & Hd') & _ & Hlt); [lia|].
  assert (kernel' = kernel) by congruence. subst kernel'.
  assert (dj = cd) by congruence. subst dj.
  specialize (Hlt Hj). rewrite ltb_irrefl in Hlt. discriminate.
Qed.

Lemma followers_of_absent a D j : ~ In j a -> followers_of a D j = [].
Proof.
  unfold followers_of. revert D. induction a as [|c a IH]; intros D Hj; [reflexivity|].
  destruct D as [|d D]; [reflexivity|]. simpl.
  destruct (Nat.eqb_spec c j) as [->|Hne]; [exfalso; apply Hj; left; reflexivity|].
  apply IH. intros Hin. apply Hj. right. assumption.
Qed.

(** Lines 239-247 for a kernel without followers. *)
Lemma update_kernels_keeps k m st st' j :
  update_kernels k m st = Ret st' ->
  kernel_follower_count st !! j = Some (Some 0%Z) ->
  kernels st' !! j = kernels st !! j.
Proof.
  intros H Hc. unfold update_kernels in H.
  bind_inv H as ks Hks. inv_ret H. simpl.
  apply (for_inv (fun _ (t : list (array float)) => t !! j = kernels st !! j)) in Hks;
    [exact Hks|reflexivity|].
  intros i t t' _ Ht Hbody.
  apply update_row_loop in Hbody as (Hother & Hrow).
  destruct (decide (j = i)) as [->|Hne].
  - destruct (Hrow 0%Z Hc) as [_ Hzero]. rewrite Hzero by lia. assumption.
  - rewrite Hother by assumption. assumption.
Qed.

End Twins.

(** X25: a kernel [j2] that has the same cells as a kernel of lower index
    [j1] gets no row in the pass (ties go to the lower index): every row is
    assigned to an index other than [j2], the count of [j2] is 0, and [j2]
    is not moved. *)
Theorem twin_kernel_gets_no_follower
    (k n m j1 j2 : nat) (st st' : state) (D : list (list float)) :
  j1 < j2 < k -> kernels st !! j1 = kernels st !! j2 ->
  data_rows st = map vec D ->
  length (kernel_followers st) = n -> (Z.of_nat n < 2 ^ 64)%Z ->
  assign_and_update k n m st = Ret st' ->
  (forall ri, ri < n -> exists ck,
      kernel_followers st' !! ri = Some (Some ck) /\ (ck < j2 \/ j2 < ck)) /\
  kernel_follower_count st' !! j2 = Some (Some 0%Z) /\
  kernels st' !! j2 = kernels st !! j2.
Proof.
  intros Hj Htwin HD Hlen Hn H. unfold assign_and_update in H.
  bind_inv H as s1 H1. apply save_prev_means_frame in H1 as (pm & ->).
  bind_inv H as s2 H2. apply reset_followers_zero in H2 as (cnt & sums & -> & Hzero).
  bind_inv H as s3 H3.
  assert (Hk : 0 < k) by lia.
  pose proof (assign_rows_nearest k n m _ _ Hk H3) as Hnear. simpl in Hnear.
  assert (Hnot : forall ri, ri < n -> exists ck,
             kernel_followers s3 !! ri = Some (Some ck) /\ (ck < j2 \/ j2 < ck)).
  { intros ri Hri. destruct (Hnear ri Hri) as (row & cd & ck & _ & Hn' & Hf).
    exists ck. split; [assumption|].
    destruct (Nat.lt_total ck j2) as [?|[->|?]]; auto.
    exfalso. eapply nearest_first_twin; [exact Hn'| |exact Htwin]. lia. }
  pose proof (assign_rows_post _ _ _ _ _ H3) as (Hks3 & _).
  apply (assign_rows_accumulates k n m _ s3 D) in H3 as (a & Ha & Hla & Hacc);
    try assumption.
  assert (Hcount : kernel_follower_count s3 !! j2 = Some (Some 0%Z)).
  { destruct (Hacc j2) as [Hc _]; [lia|]. rewrite Hc.
    rewrite followers_of_absent; [reflexivity|].
    intros Hin. apply list_elem_of_In, list_elem_of_lookup in Hin as [ri Hri].
    destruct (Hnot ri) as (ck & Hck & Hne);
      [apply lookup_lt_Some in Hri; lia|].
    rewrite Ha, list_lookup_fmap, Hri in Hck. simpl in Hck. injection Hck as <-. lia. }
  pose proof (update_kernels_keeps _ _ _ _ j2 H Hcount) as Hkeep.
  apply update_kernels_frame in H as (ks & ->). simpl in *.
  split; [assumption|]. split; [assumption|]. congruence.
Qed.

Lemma twin_kernel_gets_no_follower_witness :
  (forall ri, ri < 4 -> exists ck,
      [Some 0; Some 0; Some 0; Some 0] !! ri = Some (Some ck) /\ (ck < 1 \/ 1 < ck)) /\
  [Some 4%Z; Some 0%Z] !! 1 = Some (Some 0%Z) /\
  [vec [5.5; 5.25]%float; vec [3; 3]%float] !! 1
  = kernels (init_state (map vec two_clusters) [vec [3; 3]%float; vec [3; 3]%float] 2 4 2) !! 1.
Proof.
  apply (twin_kernel_gets_no_follower 2 4 2 0 1
           (init_state (map vec two_clusters) [vec [3; 3]%float; vec [3; 3]%float] 2 4 2)
           (mkState (map vec two_clusters) [vec [5.5; 5.25]%float; vec [3; 3]%float]
                    [Some 0; Some 0; Some 0; Some 0] [Some 4%Z; Some 0%Z]
                    [vec [22; 21]%float; vec [0; 0]%float]
                    [vec [3; 3]%float; vec [3; 3]%float] infinity 0)
           two_clusters).
  - lia.
  - reflexivity.
  - reflexivity.
  - reflexivity.
  - vm_compute. reflexivity.
  - vm_compute. reflexivity.
Defined.

(** * A dataset without columns *)

Section NoColumns.

Lemma for_skip {St} (f : nat -> St -> outcome St) (k : nat) :
  (forall i s, f i s = Ret s) ->
  forall lo (s : St), for_ lo k f s = Ret s.
Proof.
  intros Hf. induction k as [|k IH]; intros lo s; simpl; [reflexivity|].
  rewrite Hf, bind_Ret_l. apply IH.
Qed.

Lemma distf64v_no_columns (p q : array float) : distf64v p q 0 = Ret 0%float.
Proof. reflexivity. Qed.

(** Lines 221-230 with [m = 0]: every distance is [0.0], and the first
    kernel wins. *)
Lemma closest_no_columns k (row : array float) (kernels : list (array float)) :
  0 < k -> k <= length kernels ->
  closest k 0 row kernels = Ret (0%float, 0).
Proof.
  intros Hk Hlen. unfold closest.
  destruct k as [|k]; [lia|]. cbn [for_].
  destruct (lookup_lt_is_Some_2 kernels 0) as [k0 Hk0]; [lia|].
  unfold row_at at 1. rewrite Hk0. rewrite !bind_Ret_l.
  rewrite distf64v_no_columns, bind_Ret_l.
  change (0 <? INFINITY)%float with true. cbv iota.
  assert (Hrest : forall j lo, lo + j <= length kernels ->
            for_ lo j (fun ki '(closest_distance, closest_kernel) =>
                         kernel <- row_at kernels ki ;;
                         distance <- distf64v row kernel 0 ;;
                         if (distance <? closest_distance)%float then Ret (distance, ki)
                         else Ret (closest_distance, closest_kernel)) (0%float, 0)
            = Ret (0%float, 0)).
  { induction j as [|j IH]; intros lo Hlo; [reflexivity|]. cbn [for_].
    destruct (lookup_lt_is_Some_2 kernels lo) as [kl Hkl]; [lia|].
    unfold row_at at 1. rewrite Hkl. rewrite !bind_Ret_l.
    rewrite distf64v_no_columns, bind_Ret_l.
    change (0 <? 0)%float with false. cbv iota. rewrite bind_Ret_l.
    apply IH. lia. }
  rewrite bind_Ret_l. apply Hrest. lia.
Qed.

Lemma reset_no_columns k st :
  length (kernel_follower_count st) = k ->
  exists cnt, reset_followers k 0 st = Ret (set_accumulators cnt (kernel_follower_sum st) st) /\
              length cnt = k /\ forall j, j < k -> cnt !! j = Some (Some 0%Z).
Proof.
  intros Hlen. unfold reset_followers.
  destruct (for_total
    (fun i (s : array Z * list (array float)) =>
       snd s = kernel_follower_sum st /\ length (fst s) = k /\
       forall j, j < i -> fst s !! j = Some (Some 0%Z))
    (fun ki '(cnt, sums) =>
       cnt <- wr cnt ki 0%Z ;;
       sums <- for_ 0 0 (fun vi sums => wr2 sums ki vi 0%float) sums ;;
       Ret (cnt, sums)) 0 k (kernel_follower_count st, kernel_follower_sum st))
    as ([cnt sums] & Hrun & Hs & Hl & Hz).
  - split; [reflexivity|]. split; [assumption|]. intros; lia.
  - intros i [c s] Hi (Hs & Hl & Hz). simpl in *.
    unfold wr. rewrite decide_True by lia. rewrite !bind_Ret_l.
    eexists. split; [reflexivity|]. simpl. split; [assumption|].
    split; [rewrite length_insert; assumption|].
    intros j Hj. destruct (decide (j = i)) as [->|Hne].
    + apply list_lookup_insert_eq. lia.
    + rewrite list_lookup_insert_ne by congruence. apply Hz. lia.
  - simpl in *. subst sums. rewrite Hrun, bind_Ret_l. eauto.
Qed.

Lemma assign_no_columns k n st :
  0 < k -> k <= length (kernels st) -> n <= length (data_rows st) ->
  length (kernel_followers st) = n -> length (kernel_follower_count st) = k ->
  (forall j, j < k -> exists c, kernel_follower_count st !! j = Some (Some c)) ->
  exists cnt,
    assign_rows k n 0 st
    = Ret (set_assignment (replicate n (Some 0)) cnt (kernel_follower_sum st) st).
Proof.
  intros Hk Hks Hdata Hlen Hlc Hcnt. unfold assign_rows.
  destruct (for_total
    (fun i t =>
       exists cnt,
         t = set_assignment (replicate i (Some 0) ++ drop i (kernel_followers st))
                            cnt (kernel_follower_sum st) st /\
         length cnt = k /\ exists c, cnt !! 0 = Some (Some c))
    (assign_row k 0) 0 n st) as (t & Hrun & cnt & -> & _).
  - exists (kernel_follower_count st). rewrite drop_0. simpl.
    split; [destruct st; reflexivity|]. split; [assumption|]. apply Hcnt. assumption.
  - intros i t Hi (cnt & -> & Hl & c & Hc). unfold assign_row. simpl.
    destruct (lookup_lt_is_Some_2 (data_rows st) i) as [row Hrow]; [lia|].
    unfold row_at at 1. rewrite Hrow, bind_Ret_l.
    rewrite closest_no_columns by assumption. rewrite bind_Ret_l.
    unfold wr at 1.
    rewrite decide_True
      by (rewrite length_app, length_replicate, length_drop; lia).
    rewrite bind_Ret_l. apply rd_Ret in Hc. rewrite Hc, bind_Ret_l.
    unfold wr at 1. rewrite decide_True by lia. rewrite !bind_Ret_l.
    eexists. split; [reflexivity|].
    exists (<[0 := Some (size_add c 1)]> cnt). split; [|split].
    + unfold set_assignment. simpl. f_equal.
      rewrite insert_app_r_alt by (rewrite length_replicate; lia).
      rewrite length_replicate, Nat.sub_diag.
      destruct (drop i (kernel_followers st)) as [|x rest] eqn:E.
      { apply (f_equal length) in E. rewrite length_drop in E. simpl in E. lia. }
      simpl.
      assert (Hrest : drop (S i) (kernel_followers st) = rest).
      { replace (S i) with (i + 1) by lia. rewrite <- drop_drop, E. reflexivity. }
      rewrite Hrest.
      change (replicate i (Some 0) ++ [Some 0] ++ rest
              = replicate (S i) (Some 0) ++ rest).
      rewrite replicate_S_end, <- app_assoc. reflexivity.
    + rewrite length_insert. assumption.
    + eexists. apply list_lookup_insert_eq. lia.
  - exists cnt. rewrite Hrun. simpl. rewrite drop_ge by lia. rewrite app_nil_r.
    reflexivity.
Qed.

Lemma movement_no_columns k (prev kernels : list (array float)) : forall lo,
  lo + k <= length prev -> lo + k <= length kernels ->
  for_ lo k (fun ki movement =>
               p <- row_at prev ki ;;
               q <- row_at kernels ki ;;
               current_movement <- distf64v p q 0 ;;
               let movement := (movement + current_movement)%float in
               if negb (movement =? movement)%float then Fail else Ret movement)
       0%float = Ret 0%float.
Proof.
  induction k as [|k IH]; intros lo Hp Hk; [reflexivity|]. cbn [for_].
  destruct (lookup_lt_is_Some_2 prev lo) as [p Hlp]; [lia|].
  destruct (lookup_lt_is_Some_2 kernels lo) as [q Hlq]; [lia|].
  unfold row_at at 1 2. rewrite Hlp, Hlq, !bind_Ret_l.
  rewrite distf64v_no_columns, bind_Ret_l. cbv zeta.
  change (negb (0 + 0 =? 0 + 0)%float) with false. cbv iota.
  change (0 + 0)%float with 0%float. rewrite bind_Ret_l. apply IH; lia.
Qed.

End NoColumns.

(** X26: with no column ([m = 0], what [main] passes on when no column
    is named) and [k] at least 1, every distance is [0.0]: once the kernels
    are initialised, the first pass gives every row to kernel 0 and moves
    nothing, and [k_means] returns after it with an assignment of [n]
    zeros. *)
Theorem k_means_without_columns
    (qsort_r : qsort_t) (draws : list Z) (fuel k : nat)
    (data : list (array float)) (n : nat) (gen : bool) (ks : list (array float)) :
  0 < k -> n <= length data ->
  init_kernels qsort_r draws data n 0 k gen = Ret ks ->
  k_means qsort_r draws (S fuel) k data n 0 gen = Ret (replicate n (Some 0)).
Proof.
  intros Hk Hn Hinit. unfold k_means, k_means_run. rewrite Hinit, bind_Ret_l.
  apply init_kernels_written in Hinit as (P & -> & HlP & _).
  cbn [k_means_loop]. rewrite loop_condition_init.
  unfold iteration, assign_and_update, save_prev_means.
  rewrite for_skip by reflexivity. rewrite !bind_Ret_l.
  destruct (reset_no_columns k (set_prev_means
              (prev_means (init_state data (map vec P) k n 0))
              (init_state data (map vec P) k n 0))) as (cnt & -> & Hlc & Hz);
    [apply length_malloc|].
  rewrite bind_Ret_l.
  destruct (assign_no_columns k n
              (set_accumulators cnt (replicate k (malloc 0))
                 (set_prev_means (replicate k (malloc 0))
                    (init_state data (map vec P) k n 0)))) as (cnt' & Hassign);
    simpl; try assumption; try (rewrite ?length_map, ?length_malloc; lia).
  { intros j Hj. eauto. }
  simpl in Hassign. rewrite Hassign, bind_Ret_l.
  unfold update_kernels. rewrite for_skip by reflexivity. rewrite !bind_Ret_l.
  unfold update_movement. simpl.
  rewrite movement_no_columns
    by (rewrite ?length_replicate, ?length_map; lia).
  rewrite !bind_Ret_l.
  destruct fuel; reflexivity.
Qed.

Lemma k_means_without_columns_witness :
  k_means insertion_qsort_r [] (S 0) 2 (map vec two_clusters) 4 0 true
  = Ret (replicate 4 (Some 0)).
Proof.
  apply (k_means_without_columns insertion_qsort_r [] 0 2 (map vec two_clusters) 4 true
           [[]; []]).
  - lia.
  - simpl. lia.
  - vm_compute. reflexivity.
Defined.

Module EmptyInput.
Import Ascii Main MainSpec MainExample.

(** Lines 55-61: the allocation loop stays inside the block it fills. *)
Lemma preallocate_returns g :
  exists g', preallocate_data_rows g = Ret g'.
Proof.
  unfold preallocate_data_rows.
  destruct (for_total
    (fun _ (t : list (array float)) => length t = Z.to_nat (data_row_cap g))
    (fun i rows => set_row rows i (malloc (Z.to_nat (column_count g))))
    0 (Z.to_nat (data_row_cap g))
    (replicate (Z.to_nat (data_row_cap g)) no_row)) as (rows & Hrun & _).
  - apply length_replicate.
  - intros i t Hi Hl. unfold set_row. rewrite decide_True by lia.
    eexists. split; [reflexivity|]. rewrite length_insert. assumption.
  - rewrite Hrun, bind_Ret_l. eauto.
Qed.

(** X27: on an input without data lines (nothing on standard input, or
    with [-i] the header line alone) no row is counted, [trim_data_rows]
    asks [realloc] for zero bytes, and where that returns [NULL], as it may,
    the program stops in [failwith] and prints no label: an empty dataset
    is an error, whatever the arguments. *)
Theorem main_fails_without_data
    (E : externals) (qsort_r : qsort_t) (draws : list Z) (fuel : nat) (argc : Z)
    (opts : list (ascii * cstring)) (params words : list cstring)
    (g0 : globals) (warnings : list printed) :
  realloc_zero_is_null E = true ->
  parse_args E fuel argc opts params initial = Ret (Go (g0, warnings)) ->
  words = [] \/
    (ignore_header g0 = true /\ exists header, words = [header] /\ length header < 2048) ->
  main E qsort_r draws fuel argc opts params words = Fail.
Proof.
  intros Hnull Hargs Hwords. unfold main. rewrite Hargs, bind_Ret_l.
  pose proof (MainFacts.parse_args_initial _ _ _ _ _ _ _ Hargs)
    as (Hr0 & Hcap0 & Hn0 & Hcc0 & _).
  destruct (preallocate_returns g0) as [g1 Hpre]. rewrite Hpre, bind_Ret_l.
  apply MainFacts.preallocate_sized in Hpre as (_ & Hs1 & _ & Hn1); [|assumption|lia].
  assert (Hih : ignore_header g1 = ignore_header g0).
  { unfold same_but_data in Hs1. rewrite Hs1. reflexivity. }
  assert (Hread : exists out,
    (if ignore_header g1 then
       match words with
       | [] => Ret ([Header (field_separator g1)], [])
       | word :: words' =>
           if decide (length word < 2048)
           then Ret ([Header (field_separator g1)], words')
           else Undef
       end
     else Ret ([], words)) = Ret (out, @nil cstring)).
  { destruct Hwords as [->|(Hh & header & -> & Hlen)].
    - destruct (ignore_header g1); eauto.
    - rewrite Hih, Hh. rewrite decide_True by assumption. eauto. }
  destruct Hread as [out ->]. rewrite bind_Ret_l. cbn [read_lines].
  rewrite bind_Ret_l. unfold trim_data_rows.
  rewrite Hn1, Hn0, Hnull. reflexivity.
Qed.

Lemma main_fails_without_data_witness :
  main libc insertion_qsort_r [] 5 4 [("i"%char, [])] [["0"; "-"; "1"]%char]
       [["x"; ","; "y"]%char] = Fail.
Proof.
  apply (main_fails_without_data libc insertion_qsort_r [] 5 4 [("i"%char, [])]
           [["0"; "-"; "1"]%char] [["x"; ","; "y"]%char]
           (mkGlobals 2 false true false false [","%char] "."%char 2
              (Some [Some 0%Z; Some 1%Z]) [] 1024 0) []).
  - reflexivity.
  - vm_compute. reflexivity.
  - right. split; [reflexivity|]. eexists. split; [reflexivity|]. simpl. lia.
Defined.

End EmptyInput.
